(** * sap_cap: the hashed-key cache, its obfuscator and its write queue

    A shallow embedding of [util/queue.js] (classes [Queue] and
    [ProcessQueue]), of [setUnboundedTimeout] from [util/common.js] and of
    [util/cache.js] (classes [Obfuscator] and [Cache]), with the properties
    of the specification stated and settled against it. The business-day
    functions of [util/common.js] close the development.

    Conventions.
    - JavaScript numbers that the code uses as indices, sizes and delays
      are integers; they are modelled in [Z], exact as long as they stay
      inside the safe-integer range of a double (below 2^53). The sums of
      the hash are rounded as the sums of doubles are. The numbers that
      the cache stores as values have a type of their own, [number].
    - A JavaScript string is the list of its UTF-16 code units.
    - A [throw] is a [Throw e] result; an [async] function is cut at its
      [await]s into a synchronous prefix and continuations that the
      micro-task queue of the state runs later, in order.
    - [node:crypto] (AES-256-CBC, random bytes) and [JSON] are outside the
      repository: the cipher and [JSON] are parameters, SHA-256 is written
      out from FIPS 180-4. So are [Number(string)] and [toString] outside
      the safe integers. *)

From stdpp Require Import base relations list gmap strings.
From Stdlib Require Import ZArith Lia.

Open Scope Z_scope.

(** ** Exceptions and results *)

Inductive exn : Type :=
| Error (msg : string)
| TypeError (msg : string)
| RangeError (msg : string)
| CacheException (code : string) (msg : string) (cause : exn).

Inductive result (A : Type) : Type :=
| Ok (a : A)
| Throw (e : exn).

Arguments Ok {A} a.
Arguments Throw {A} e.

Definition is_ok {A} (r : result A) : bool :=
  match r with Ok _ => true | Throw _ => false end.

(** ** [class Queue]: the bounded circular buffer *)

Module Queue.
Section Queue.

(** The items of the queue and JavaScript's [undefined], which fills the
    holes of [new Array(capacity)] and the slots that [dequeue] clears. *)
Context {A : Type} (undefined : A).

Record t : Type := mk {
  capacity : Z;
  items : list A;
  front : Z;
  rear : Z;
  size : Z
}.

(** [items[i]] for an integer [i]: a hole or an index outside the array
    reads [undefined]. *)
Definition array_get (l : list A) (i : Z) : A :=
  if i <? 0 then undefined else default undefined (l !! Z.to_nat i).

(** [items[i] = x]: inside the array the slot is replaced; beyond its end
    JavaScript extends the array with holes up to [i]. *)
Definition array_set (l : list A) (i : Z) (x : A) : list A :=
  if i <? 0 then l
  else if (Z.to_nat i <? length l)%nat then <[Z.to_nat i := x]> l
  else l ++ replicate (Z.to_nat i - length l) undefined ++ [x].

(** [constructor(capacity)]; [new Array(capacity)] raises a RangeError
    unless [capacity] is an integer in [0, 2^32). *)
Definition new (capacity : Z) : result t :=
  if (0 <=? capacity) && (capacity <? 2 ^ 32) then
    Ok {| capacity := capacity;
          items := replicate (Z.to_nat capacity) undefined;
          front := 0;
          size := 0;
          rear := capacity - 1 |}
  else Throw (RangeError "Invalid array length").

Definition isEmpty (q : t) : bool := size q =? 0.

Definition isFull (q : t) : bool := size q =? capacity q.

Definition enqueue (item : A) (q : t) : result t :=
  if isFull q then Throw (Error "Queue is full")
  else
    let rear' := Z.rem (rear q + 1) (capacity q) in
    Ok {| capacity := capacity q;
          items := array_set (items q) rear' item;
          front := front q;
          rear := rear';
          size := size q + 1 |}.

Definition dequeue (q : t) : result (A * t) :=
  if isEmpty q then Throw (Error "Queue is empty")
  else
    let item := array_get (items q) (front q) in
    Ok (item,
        {| capacity := capacity q;
           items := array_set (items q) (front q) undefined;
           front := Z.rem (front q + 1) (capacity q);
           rear := rear q;
           size := size q - 1 |}).

Definition peek (q : t) : result A :=
  if isEmpty q then Throw (Error "Queue is empty")
  else Ok (array_get (items q) (front q)).

(** *** The queue as the list of its pending items, oldest first *)

Definition contents (q : t) : list A :=
  (λ k, array_get (items q) ((front q + k) mod capacity q)) <$> seqZ 0 (size q).

(** The representation invariant of the circular buffer. *)
Record wf (q : t) : Prop := {
  wf_len : Z.of_nat (length (items q)) = capacity q;
  wf_size : 0 <= size q <= capacity q;
  wf_front : 0 <= front q < capacity q ∨ (capacity q = 0 ∧ front q = 0);
  wf_rear : 0 < capacity q → rear q = (front q + size q - 1) mod capacity q
}.

(** *** The contract in the words of the specification: a list bounded by
    the capacity *)

Definition spec_enqueue (C : Z) (item : A) (l : list A) : result (list A) :=
  if Z.of_nat (length l) =? C then Throw (Error "Queue is full")
  else Ok (l ++ [item]).

Definition spec_dequeue (l : list A) : result (A * list A) :=
  match l with
  | [] => Throw (Error "Queue is empty")
  | x :: l' => Ok (x, l')
  end.

Definition spec_peek (l : list A) : result A :=
  match l with
  | [] => Throw (Error "Queue is empty")
  | x :: _ => Ok x
  end.

(** Operations issued by a client of the queue and what the client sees. *)
Inductive op : Type := Enqueue (item : A) | Dequeue | Peek.

Inductive obs : Type :=
| Enqueued (size_after : Z)
| Got (item : A) (size_after : Z)
| Failed (e : exn).

Fixpoint run (ops : list op) (q : t) : list obs * t :=
  match ops with
  | [] => ([], q)
  | Enqueue x :: ops' =>
      match enqueue x q with
      | Ok q' => let '(os, qf) := run ops' q' in (Enqueued (size q') :: os, qf)
      | Throw e => let '(os, qf) := run ops' q in (Failed e :: os, qf)
      end
  | Dequeue :: ops' =>
      match dequeue q with
      | Ok (x, q') => let '(os, qf) := run ops' q' in (Got x (size q') :: os, qf)
      | Throw e => let '(os, qf) := run ops' q in (Failed e :: os, qf)
      end
  | Peek :: ops' =>
      match peek q with
      | Ok x => let '(os, qf) := run ops' q in (Got x (size q) :: os, qf)
      | Throw e => let '(os, qf) := run ops' q in (Failed e :: os, qf)
      end
  end.

Fixpoint spec_run (C : Z) (ops : list op) (l : list A) : list obs * list A :=
  match ops with
  | [] => ([], l)
  | Enqueue x :: ops' =>
      match spec_enqueue C x l with
      | Ok l' =>
          let '(os, lf) := spec_run C ops' l' in
          (Enqueued (Z.of_nat (length l')) :: os, lf)
      | Throw e => let '(os, lf) := spec_run C ops' l in (Failed e :: os, lf)
      end
  | Dequeue :: ops' =>
      match spec_dequeue l with
      | Ok (x, l') =>
          let '(os, lf) := spec_run C ops' l' in
          (Got x (Z.of_nat (length l')) :: os, lf)
      | Throw e => let '(os, lf) := spec_run C ops' l in (Failed e :: os, lf)
      end
  | Peek :: ops' =>
      match spec_peek l with
      | Ok x =>
          let '(os, lf) := spec_run C ops' l in
          (Got x (Z.of_nat (length l)) :: os, lf)
      | Throw e => let '(os, lf) := spec_run C ops' l in (Failed e :: os, lf)
      end
  end.

End Queue.

Arguments t A : clear implicits.
Arguments op A : clear implicits.
Arguments obs A : clear implicits.

End Queue.

(** ** JavaScript strings and buffers *)

Module JS.

(** A string is the list of its UTF-16 code units. *)
Abbreviation jsstring := (list Z).

Definition js (s : string) : jsstring :=
  (λ a, Z.of_N (Ascii.N_of_ascii a)) <$> String.list_ascii_of_string s.

(** [a === b] on strings. *)
Fixpoint str_eqb (a b : jsstring) : bool :=
  match a, b with
  | [], [] => true
  | x :: a', y :: b' => (x =? y) && str_eqb a' b'
  | _, _ => false
  end.

(** The code units matched by the regular expression [\s]. *)
Definition is_whitespace (c : Z) : bool :=
  ((9 <=? c) && (c <=? 13)) || (c =? 32) || (c =? 160) || (c =? 5760)
  || ((8192 <=? c) && (c <=? 8202)) || (c =? 8232) || (c =? 8233)
  || (c =? 8239) || (c =? 8287) || (c =? 12288) || (c =? 65279).

(** [key.replace(/\s/g, '')] *)
Definition remove_whitespace (s : jsstring) : jsstring :=
  filter (λ c, is_whitespace c = false) s.

(** [s.toLowerCase()] on the ASCII letters; no other code unit lowers to
    an ASCII letter of the words the code compares with. *)
Definition toLowerCase (s : jsstring) : jsstring :=
  (λ c, if (65 <=? c) && (c <=? 90) then c + 32 else c) <$> s.

(** [s.split(sep)] for a separator of one code unit. *)
Fixpoint split (sep : Z) (s : jsstring) : list jsstring :=
  match s with
  | [] => [[]]
  | c :: s' =>
      if c =? sep then [] :: split sep s'
      else match split sep s' with
           | p :: ps => (c :: p) :: ps
           | [] => [[c]]
           end
  end.

Definition colon : Z := 58.

(** Buffers are lists of bytes. [buf.toString('hex')]: *)
Definition hex_digit (n : Z) : Z := if n <? 10 then 48 + n else 87 + n.

Definition byte_to_hex (b : Byte.byte) : jsstring :=
  let n := Z.of_N (Byte.to_N b) in [hex_digit (n / 16); hex_digit (n mod 16)].

Definition to_hex (bs : list Byte.byte) : jsstring :=
  concat (byte_to_hex <$> bs).

(** [Buffer.from(s, 'hex')] decodes pairs of hexadecimal digits and stops
    at the first pair that is not one. *)
Definition hex_value (c : Z) : option Z :=
  if (48 <=? c) && (c <=? 57) then Some (c - 48)
  else if (97 <=? c) && (c <=? 102) then Some (c - 87)
  else if (65 <=? c) && (c <=? 70) then Some (c - 55)
  else None.

Fixpoint from_hex (s : jsstring) : list Byte.byte :=
  match s with
  | c :: d :: s' =>
      match hex_value c, hex_value d with
      | Some h, Some l =>
          match Byte.of_N (Z.to_N (16 * h + l)) with
          | Some b => b :: from_hex s'
          | None => []
          end
      | _, _ => []
      end
  | _ => []
  end.

(** The UTF-8 bytes of a string, as [hash.update(key)] feeds them to the
    digest: surrogate pairs are one code point, a lone surrogate is
    replaced by U+FFFD. *)
Definition is_high_surrogate (c : Z) : bool := (55296 <=? c) && (c <? 56320).
Definition is_low_surrogate (c : Z) : bool := (56320 <=? c) && (c <? 57344).

Definition utf8_code_point (cp : Z) : list Z :=
  if cp <? 128 then [cp]
  else if cp <? 2048 then [192 + cp / 64; 128 + cp mod 64]
  else if cp <? 65536 then
    [224 + cp / 4096; 128 + (cp / 64) mod 64; 128 + cp mod 64]
  else
    [240 + cp / 262144; 128 + (cp / 4096) mod 64;
     128 + (cp / 64) mod 64; 128 + cp mod 64].

Fixpoint utf8 (s : jsstring) : list Z :=
  match s with
  | [] => []
  | c :: s' =>
      if is_high_surrogate c then
        match s' with
        | d :: s'' =>
            if is_low_surrogate d
            then utf8_code_point (65536 + (c - 55296) * 1024 + (d - 56320)) ++ utf8 s''
            else utf8_code_point 65533 ++ utf8 s'
        | [] => utf8_code_point 65533
        end
      else if is_low_surrogate c then utf8_code_point 65533 ++ utf8 s'
      else utf8_code_point c ++ utf8 s'
  end.

(** A string without lone surrogates survives UTF-8. *)
Fixpoint well_formed (s : jsstring) : bool :=
  match s with
  | [] => true
  | c :: s' =>
      if is_high_surrogate c then
        match s' with
        | d :: s'' => is_low_surrogate d && well_formed s''
        | [] => false
        end
      else negb (is_low_surrogate c) && (0 <=? c) && (c <? 65536) && well_formed s'
  end.

(** Decimal digits, for [toString] of integers and the parsing of what it
    wrote. *)
Fixpoint digits_of (fuel : nat) (n : Z) (acc : jsstring) : jsstring :=
  match fuel with
  | O => acc
  | S fuel' =>
      let acc' := (48 + n mod 10) :: acc in
      if n <? 10 then acc' else digits_of fuel' (n / 10) acc'
  end.

Definition decimal (z : Z) : jsstring :=
  if z <? 0 then 45 :: digits_of (S (Z.to_nat (Z.log2 (- z)))) (- z) []
  else digits_of (S (Z.to_nat (Z.log2 z))) z [].

Fixpoint parse_digits (s : jsstring) (acc : Z) : option Z :=
  match s with
  | [] => Some acc
  | c :: s' =>
      if (48 <=? c) && (c <=? 57) then parse_digits s' (10 * acc + (c - 48))
      else None
  end.

Definition parse_decimal (s : jsstring) : option Z :=
  match s with
  | [] => None
  | c :: s' =>
      if c =? 45 then
        match s' with [] => None | _ => Z.opp <$> parse_digits s' 0 end
      else parse_digits s 0
  end.

End JS.

Export JS.

(** ** SHA-256 (FIPS 180-4), the digest behind [crypt.createHash('sha256')] *)

Module SHA256.

Definition w32 (x : Z) : Z := x mod 2 ^ 32.
Definition add32 (x y : Z) : Z := w32 (x + y).
Definition rotr (n x : Z) : Z := Z.lor (Z.shiftr x n) (w32 (Z.shiftl x (32 - n))).
Definition not32 (x : Z) : Z := Z.lxor x (2 ^ 32 - 1).

Definition Ch (x y z : Z) : Z := Z.lxor (Z.land x y) (Z.land (not32 x) z).
Definition Maj (x y z : Z) : Z :=
  Z.lxor (Z.lxor (Z.land x y) (Z.land x z)) (Z.land y z).
Definition Sigma0 (x : Z) : Z := Z.lxor (Z.lxor (rotr 2 x) (rotr 13 x)) (rotr 22 x).
Definition Sigma1 (x : Z) : Z := Z.lxor (Z.lxor (rotr 6 x) (rotr 11 x)) (rotr 25 x).
Definition sigma0 (x : Z) : Z := Z.lxor (Z.lxor (rotr 7 x) (rotr 18 x)) (Z.shiftr x 3).
Definition sigma1 (x : Z) : Z := Z.lxor (Z.lxor (rotr 17 x) (rotr 19 x)) (Z.shiftr x 10).

(** The round constants: the first 32 bits of the fractional parts of
    the cube roots of the first 64 primes. *)
Definition K : list Z :=
  [1116352408; 1899447441; 3049323471; 3921009573; 961987163; 1508970993;
   2453635748; 2870763221; 3624381080; 310598401; 607225278; 1426881987;
   1925078388; 2162078206; 2614888103; 3248222580; 3835390401; 4022224774;
   264347078; 604807628; 770255983; 1249150122; 1555081692; 1996064986;
   2554220882; 2821834349; 2952996808; 3210313671; 3336571891; 3584528711;
   113926993; 338241895; 666307205; 773529912; 1294757372; 1396182291;
   1695183700; 1986661051; 2177026350; 2456956037; 2730485921; 2820302411;
   3259730800; 3345764771; 3516065817; 3600352804; 4094571909; 275423344;
   430227734; 506948616; 659060556; 883997877; 958139571; 1322822218;
   1537002063; 1747873779; 1955562222; 2024104815; 2227730452; 2361852424;
   2428436474; 2756734187; 3204031479; 3329325298].

(** The initial hash value: the same of the square roots of the first 8
    primes. *)
Definition H0 : list Z :=
  [1779033703; 3144134277; 1013904242; 2773480762;
   1359893119; 2600822924; 528734635; 1541459225].

(** Big-endian bytes of a number, [n] of them. *)
Fixpoint be_bytes (n : nat) (x : Z) : list Z :=
  match n with
  | O => []
  | S n' => (x / 256 ^ Z.of_nat n') mod 256 :: be_bytes n' x
  end.

Definition pad (msg : list Z) : list Z :=
  let len := Z.of_nat (length msg) in
  msg ++ [128] ++ replicate (Z.to_nat ((55 - len) mod 64)) 0 ++ be_bytes 8 (8 * len).

(** The big-endian words of a byte string, four bytes each. *)
Fixpoint words (fuel : nat) (bs : list Z) : list Z :=
  match fuel, bs with
  | S fuel', a :: b :: c :: d :: bs' =>
      (((a * 256 + b) * 256 + c) * 256 + d) :: words fuel' bs'
  | _, _ => []
  end.

(** The message schedule, most recent word first. *)
Fixpoint schedule (n : nat) (rev_w : list Z) : list Z :=
  match n with
  | O => rev_w
  | S n' =>
      let w := add32 (add32 (sigma1 (nth 1 rev_w 0)) (nth 6 rev_w 0))
                     (add32 (sigma0 (nth 14 rev_w 0)) (nth 15 rev_w 0)) in
      schedule n' (w :: rev_w)
  end.

Definition round (h : list Z) (kw : Z * Z) : list Z :=
  match h with
  | [a; b; c; d; e; f; g; hh] =>
      let t1 := add32 (add32 (add32 hh (Sigma1 e)) (add32 (Ch e f g) kw.1)) kw.2 in
      let t2 := add32 (Sigma0 a) (Maj a b c) in
      [add32 t1 t2; a; b; c; add32 d t1; e; f; g]
  | _ => h
  end.

Definition compress (h : list Z) (block : list Z) : list Z :=
  let w := rev (schedule 48 (rev (words 16 block))) in
  zip_with add32 h (foldl round h (zip K w)).

Fixpoint blocks (fuel : nat) (h : list Z) (bs : list Z) : list Z :=
  match fuel with
  | O => h
  | S fuel' =>
      match bs with
      | [] => h
      | _ => blocks fuel' (compress h (take 64 bs)) (drop 64 bs)
      end
  end.

Definition digest (msg : list Z) : list Z :=
  let p := pad msg in
  concat (be_bytes 4 <$> blocks (length p) H0 p).

(** [hash.digest('hex')] *)
Definition hexdigest (msg : list Z) : jsstring :=
  concat ((λ b, [hex_digit (b / 16); hex_digit (b mod 16)]) <$> digest msg).

End SHA256.

(** ** [class ProcessQueue extends Queue]: the write serializer *)

Module ProcessQueue.
Section ProcessQueue.

(** The queued functions act on a world [W] that the queue is not part
    of, and return results in [R]. A call returns a value (or a promise
    that is fulfilled when the loop resumes), throws, or returns a promise
    that is rejected when the loop resumes. *)
Context {W R : Type}.

Inductive outcome (X : Type) : Type :=
| Returns (x : X) (w : W)
| Throws (e : exn) (w : W)
| Rejects (e : exn) (w : W).

Arguments Returns {X} x w.
Arguments Throws {X} e w.
Arguments Rejects {X} e w.

(** The object [{ function: item, callback: processCompleteCallback }];
    [enqueue] asserts that [item] is a function, so the field always
    holds one and the [if (!item)] branch of [execute] is never taken. *)
Record item : Type := {
  function : W → outcome R;
  callback : option (R → W → outcome unit)
}.

(** Where [execute] is suspended: at [await item()] with the settled
    result and the pending callback, or at [await callback(result)]. *)
Inductive suspension : Type :=
| AwaitItem (r : R + exn) (cb : option (R → W → outcome unit))
| AwaitCallback (r : unit + exn).

(** A slot of the array holds an item or [undefined]. *)
Record t : Type := mk {
  queue : Queue.t (option item);
  isExecuting : bool;
  suspended : option suspension
}.

(** What the loop needs from the world: [console.error] for the [catch]
    block and the micro-task that resumes the loop after an [await]. *)
Context (console_error : string → exn → W → W) (schedule_resume : W → W).

Definition new (capacity : Z) : result t :=
  match Queue.new None capacity with
  | Ok q => Ok {| queue := q; isExecuting := false; suspended := None |}
  | Throw e => Throw e
  end.

Definition with_queue (q : Queue.t (option item)) (s : t) : t :=
  {| queue := q; isExecuting := isExecuting s; suspended := suspended s |}.

Definition suspend (p : suspension) (s : t) : t :=
  {| queue := queue s; isExecuting := isExecuting s; suspended := Some p |}.

(** [catch (error) { console.error(...) } finally { isExecuting = false }] *)
Definition catch (e : exn) (s : t) (w : W) : t * W :=
  ({| queue := queue s; isExecuting := false; suspended := None |},
   console_error "[PROCESS_QUEUE][ERROR] Error during completing current process queue:" e w).

(** The loop leaves normally: [finally { isExecuting = false }]. *)
Definition finish (s : t) (w : W) : t * W :=
  ({| queue := queue s; isExecuting := false; suspended := None |}, w).

(** [while (!this.isEmpty())] from its test up to the next [await], the
    end of the loop or the [catch]. *)
Definition loop (s : t) (w : W) : t * W :=
  if Queue.isEmpty (queue s) then finish s w
  else
    match Queue.dequeue None (queue s) with
    | Throw e => catch e s w
    | Ok (None, q') =>
        catch (TypeError "Cannot destructure property 'function' of undefined")
              (with_queue q' s) w
    | Ok (Some it, q') =>
        match function it w with
        | Throws e w' => catch e (with_queue q' s) w'
        | Returns r w' =>
            (suspend (AwaitItem (inl r) (callback it)) (with_queue q' s),
             schedule_resume w')
        | Rejects e w' =>
            (suspend (AwaitItem (inr e) (callback it)) (with_queue q' s),
             schedule_resume w')
        end
    end.

(** [async execute()] up to its first [await]. *)
Definition execute (s : t) (w : W) : t * W :=
  if Queue.isEmpty (queue s) || isExecuting s then (s, w)
  else loop {| queue := queue s; isExecuting := true; suspended := suspended s |} w.

(** The micro-task that resumes [execute] after an [await]. *)
Definition resume (s : t) (w : W) : t * W :=
  match suspended s with
  | None => (s, w)
  | Some (AwaitItem (inr e) _) => catch e s w
  | Some (AwaitItem (inl r) None) => loop s w
  | Some (AwaitItem (inl r) (Some cb)) =>
      match cb r w with
      | Throws e w' => catch e s w'
      | Returns _ w' => (suspend (AwaitCallback (inl ())) s, schedule_resume w')
      | Rejects e w' => (suspend (AwaitCallback (inr e)) s, schedule_resume w')
      end
  | Some (AwaitCallback (inl _)) => loop s w
  | Some (AwaitCallback (inr e)) => catch e s w
  end.

(** [enqueue(item, processCompleteCallback = null)]; the two [assert]s
    hold by the types of the arguments. *)
Definition enqueue (f : W → outcome R) (cb : option (R → W → outcome unit))
    (s : t) (w : W) : result (t * W) :=
  match Queue.enqueue None (Some {| function := f; callback := cb |}) (queue s) with
  | Throw e => Throw e
  | Ok q' =>
      let s' := with_queue q' s in
      Ok (if isExecuting s' then (s', w) else execute s' w)
  end.

(** The pending jobs, oldest first. *)
Definition pending (s : t) : list (option item) := Queue.contents None (queue s).

(** [n] micro-tasks of the loop, one after the other, with nothing else
    running in between. *)
Fixpoint resumes (n : nat) (st : t * W) : t * W :=
  match n with
  | O => st
  | S n' => resumes n' (resume st.1 st.2)
  end.

End ProcessQueue.

Arguments outcome W X : clear implicits.
Arguments Returns {W X} x w.
Arguments Throws {W X} e w.
Arguments Rejects {W X} e w.
Arguments item W R : clear implicits.
Arguments suspension W R : clear implicits.
Arguments t W R : clear implicits.

End ProcessQueue.

(** ** Values, the platform, and the state of the program *)

(** JavaScript numbers. [Int z] is the number of value [z] for a safe
    integer [z], of absolute value below 2^53, with [Int 0] for +0;
    [Finite s] is any other finite number, a fraction or a number beyond
    the safe integers, named by the string that its [toString] writes, as
    ["1.5"] or ["1e+21"]. *)
Inductive number : Type :=
| Int (z : Z)
| NegZero
| NaN
| Infinity
| NegInfinity
| Finite (repr : jsstring).

(** [Number.isSafeInteger] on an integer. *)
Definition isSafeInteger (z : Z) : bool := Z.abs z <=? 2 ^ 53 - 1.

(** JavaScript values; objects and arrays are opaque, of a type [O] that
    only [JSON] looks into. *)
Inductive value (O : Type) : Type :=
| VUndefined
| VNull
| VBoolean (b : bool)
| VNumber (n : number)
| VBigInt (z : Z)
| VString (s : jsstring)
| VObject (o : O)
| VArray (o : O)
| VFunction
| VSymbol.

Arguments VUndefined {O}.
Arguments VNull {O}.
Arguments VBoolean {O} b.
Arguments VNumber {O} n.
Arguments VBigInt {O} z.
Arguments VString {O} s.
Arguments VObject {O} o.
Arguments VArray {O} o.
Arguments VFunction {O}.
Arguments VSymbol {O}.

(** What the program takes from outside the repository. [cipher key iv s]
    is [createCipheriv('aes-256-cbc', key, iv)] followed by
    [update(s, 'utf8')] and [final()]; [decipher key iv bytes] is the same
    for [createDecipheriv], decoded as UTF-8; [randomBytes n k] is the
    result of the [n]-th call of [crypt.randomBytes], for [k] bytes.
    [StringToNumber s] is [Number(s)] for the strings that [Number] below
    does not read itself, and [Number_toString z] is [toString] of the
    number of integer value [z] outside the safe integers. *)
Class Platform : Type := {
  object : Type;
  JSON_stringify : value object → result jsstring;
  JSON_parse : jsstring → result (value object);
  StringToNumber : jsstring → number;
  Number_toString : Z → jsstring;
  randomBytes : nat → nat → list Byte.byte;
  cipher : list Byte.byte → list Byte.byte → jsstring → result (list Byte.byte);
  decipher : list Byte.byte → list Byte.byte → list Byte.byte → result jsstring
}.

(** The class [Duration] is not among the sources; the program only reads
    its getter [toMilliseconds]. *)
Record Duration : Type := { toMilliseconds : Z }.

(** Modelled from the spec: [Duration.days(n)], the duration of [n] days
    ("default 90 days"); the class [Duration] is missing from the sources. *)
Definition Duration_days (n : Z) : Duration :=
  {| toMilliseconds := n * 24 * 60 * 60 * 1000 |}.

(** The third argument of [write]: the string ["never"], [null], or a
    [Duration]. *)
Inductive expiration : Type :=
| ExpNever
| ExpNull
| ExpAfter (d : Duration).

Inductive event : Type := key_rotated | obfuscated | rotation_duration_changed.

Definition event_name (ev : event) : string :=
  match ev with
  | key_rotated => "key_rotated"
  | obfuscated => "obfuscated"
  | rotation_duration_changed => "rotation_duration_changed"
  end.

(** The function that [setUnboundedTimeout] returns: it closes over its
    [timeoutId] and over its variable [clearNextTimeout]. *)
Record canceller : Type := { ctimer : nat; ccell : nat }.

(** What [clearTimeout] can be given: a timeout object, or some function. *)
Inductive timer_ref : Type :=
| TimeoutObject (id : nat)
| CancelFunction (c : canceller).

(** The callbacks handed to [setUnboundedTimeout]: [() => this.rotateKey()]
    of [#rotator], and the expiry closure of [#runCacheCleanup], which
    closes over the hashed key, the duration and its own [_timer]. *)
Inductive unbounded_callback : Type :=
| RotateKey
| ExpireEntry (hKey : Z) (exp : Duration) (_timer : canceller).

Inductive log_entry : Type :=
| LogInfo (msg : string)
| LogWarn (msg : string)
| LogError (msg : string) (e : exn).

Section Program.

Context `{Platform}.

Abbreviation value := (value object).

(** An entry of the cache map; entries are objects, shared by reference
    between the maps that hold them. *)
Record entry : Type := {
  value_of : value;
  expiresOn : expiration;
  isObfusacated : bool;
  type : jsstring;
  checksum : jsstring
}.

(** The rest of [read] and [write] after [await
    this.#pauseUntilOperationsResumed()], with the promise it settles. *)
Inductive continuation : Type :=
| ContRead (promise : nat) (key : jsstring)
| ContWrite (promise : nat) (key : jsstring) (v : value) (exp : expiration)
    (obfuscate : bool) (typeOfValue : jsstring) (hKey : Z).

(** The callbacks of [setTimeout]: the two closures of
    [setUnboundedTimeout] and the [resolve] of the pause gate. *)
Inductive timer_callback : Type :=
| CallAsync (callback : unbounded_callback)
| Chain (callback : unbounded_callback) (delay : Z) (cell : nat)
| ResolvePause (k : continuation).

Record timer : Type := { tid : nat; due : Z; tcallback : timer_callback }.

(** The jobs of the micro-task queue: the continuations of the [await]s. *)
Inductive task : Type :=
| EmitterResume (ev : event)
| PauseLoop (k : continuation)
| Resume (k : continuation)
| DrainResume
| AfterAwait.

(** Everything but the write queue: the event loop of the platform, the
    fields of the [Obfuscator] and the fields of the [Cache]. *)
Record world : Type := {
  now : Z;
  timers : list timer;
  next_timer : nat;
  cells : list (option canceller);
  microtasks : list task;
  draws : nat;
  console : list log_entry;
  emitted : list event;
  settled : list (nat * result value);
  next_promise : nat;
  CACHE_HASH_KEY_INITALIZER : option Z;
  fideliusCharm : option (list Byte.byte);
  defaultKeyRotationDuration : Duration;
  existingRotatorTimerObject : option canceller;
  heap : gmap nat entry;
  next_loc : nat;
  data : list (Z * nat);
  temp : option (list (Z * nat));
  isPaused : bool
}.

Definition upd_now (f : Z → Z) (w : world) : world :=
  {| now := f (now w); timers := timers w; next_timer := next_timer w;
     cells := cells w; microtasks := microtasks w; draws := draws w;
     console := console w; emitted := emitted w; settled := settled w;
     next_promise := next_promise w;
     CACHE_HASH_KEY_INITALIZER := CACHE_HASH_KEY_INITALIZER w;
     fideliusCharm := fideliusCharm w;
     defaultKeyRotationDuration := defaultKeyRotationDuration w;
     existingRotatorTimerObject := existingRotatorTimerObject w;
     heap := heap w; next_loc := next_loc w; data := data w;
     temp := temp w; isPaused := isPaused w |}.

Definition upd_timers (f : list timer → list timer) (w : world) : world :=
  {| now := now w; timers := f (timers w); next_timer := next_timer w;
     cells := cells w; microtasks := microtasks w; draws := draws w;
     console := console w; emitted := emitted w; settled := settled w;
     next_promise := next_promise w;
     CACHE_HASH_KEY_INITALIZER := CACHE_HASH_KEY_INITALIZER w;
     fideliusCharm := fideliusCharm w;
     defaultKeyRotationDuration := defaultKeyRotationDuration w;
     existingRotatorTimerObject := existingRotatorTimerObject w;
     heap := heap w; next_loc := next_loc w; data := data w;
     temp := temp w; isPaused := isPaused w |}.

Definition upd_next_timer (f : nat → nat) (w : world) : world :=
  {| now := now w; timers := timers w; next_timer := f (next_timer w);
     cells := cells w; microtasks := microtasks w; draws := draws w;
     console := console w; emitted := emitted w; settled := settled w;
     next_promise := next_promise w;
     CACHE_HASH_KEY_INITALIZER := CACHE_HASH_KEY_INITALIZER w;
     fideliusCharm := fideliusCharm w;
     defaultKeyRotationDuration := defaultKeyRotationDuration w;
     existingRotatorTimerObject := existingRotatorTimerObject w;
     heap := heap w; next_loc := next_loc w; data := data w;
     temp := temp w; isPaused := isPaused w |}.

Definition upd_cells (f : list (option canceller) → list (option canceller)) (w : world) : world :=
  {| now := now w; timers := timers w; next_timer := next_timer w;
     cells := f (cells w); microtasks := microtasks w; draws := draws w;
     console := console w; emitted := emitted w; settled := settled w;
     next_promise := next_promise w;
     CACHE_HASH_KEY_INITALIZER := CACHE_HASH_KEY_INITALIZER w;
     fideliusCharm := fideliusCharm w;
     defaultKeyRotationDuration := defaultKeyRotationDuration w;
     existingRotatorTimerObject := existingRotatorTimerObject w;
     heap := heap w; next_loc := next_loc w; data := data w;
     temp := temp w; isPaused := isPaused w |}.

Definition upd_microtasks (f : list task → list task) (w : world) : world :=
  {| now := now w; timers := timers w; next_timer := next_timer w;
     cells := cells w; microtasks := f (microtasks w); draws := draws w;
     console := console w; emitted := emitted w; settled := settled w;
     next_promise := next_promise w;
     CACHE_HASH_KEY_INITALIZER := CACHE_HASH_KEY_INITALIZER w;
     fideliusCharm := fideliusCharm w;
     defaultKeyRotationDuration := defaultKeyRotationDuration w;
     existingRotatorTimerObject := existingRotatorTimerObject w;
     heap := heap w; next_loc := next_loc w; data := data w;
     temp := temp w; isPaused := isPaused w |}.

Definition upd_draws (f : nat → nat) (w : world) : world :=
  {| now := now w; timers := timers w; next_timer := next_timer w;
     cells := cells w; microtasks := microtasks w; draws := f (draws w);
     console := console w; emitted := emitted w; settled := settled w;
     next_promise := next_promise w;
     CACHE_HASH_KEY_INITALIZER := CACHE_HASH_KEY_INITALIZER w;
     fideliusCharm := fideliusCharm w;
     defaultKeyRotationDuration := defaultKeyRotationDuration w;
     existingRotatorTimerObject := existingRotatorTimerObject w;
     heap := heap w; next_loc := next_loc w; data := data w;
     temp := temp w; isPaused := isPaused w |}.

Definition upd_console (f : list log_entry → list log_entry) (w : world) : world :=
  {| now := now w; timers := timers w; next_timer := next_timer w;
     cells := cells w; microtasks := microtasks w; draws := draws w;
     console := f (console w); emitted := emitted w; settled := settled w;
     next_promise := next_promise w;
     CACHE_HASH_KEY_INITALIZER := CACHE_HASH_KEY_INITALIZER w;
     fideliusCharm := fideliusCharm w;
     defaultKeyRotationDuration := defaultKeyRotationDuration w;
     existingRotatorTimerObject := existingRotatorTimerObject w;
     heap := heap w; next_loc := next_loc w; data := data w;
     temp := temp w; isPaused := isPaused w |}.

Definition upd_emitted (f : list event → list event) (w : world) : world :=
  {| now := now w; timers := timers w; next_timer := next_timer w;
     cells := cells w; microtasks := microtasks w; draws := draws w;
     console := console w; emitted := f (emitted w); settled := settled w;
     next_promise := next_promise w;
     CACHE_HASH_KEY_INITALIZER := CACHE_HASH_KEY_INITALIZER w;
     fideliusCharm := fideliusCharm w;
     defaultKeyRotationDuration := defaultKeyRotationDuration w;
     existingRotatorTimerObject := existingRotatorTimerObject w;
     heap := heap w; next_loc := next_loc w; data := data w;
     temp := temp w; isPaused := isPaused w |}.

Definition upd_settled (f : list (nat * result value) → list (nat * result value)) (w : world) : world :=
  {| now := now w; timers := timers w; next_timer := next_timer w;
     cells := cells w; microtasks := microtasks w; draws := draws w;
     console := console w; emitted := emitted w; settled := f (settled w);
     next_promise := next_promise w;
     CACHE_HASH_KEY_INITALIZER := CACHE_HASH_KEY_INITALIZER w;
     fideliusCharm := fideliusCharm w;
     defaultKeyRotationDuration := defaultKeyRotationDuration w;
     existingRotatorTimerObject := existingRotatorTimerObject w;
     heap := heap w; next_loc := next_loc w; data := data w;
     temp := temp w; isPaused := isPaused w |}.

Definition upd_next_promise (f : nat → nat) (w : world) : world :=
  {| now := now w; timers := timers w; next_timer := next_timer w;
     cells := cells w; microtasks := microtasks w; draws := draws w;
     console := console w; emitted := emitted w; settled := settled w;
     next_promise := f (next_promise w);
     CACHE_HASH_KEY_INITALIZER := CACHE_HASH_KEY_INITALIZER w;
     fideliusCharm := fideliusCharm w;
     defaultKeyRotationDuration := defaultKeyRotationDuration w;
     existingRotatorTimerObject := existingRotatorTimerObject w;
     heap := heap w; next_loc := next_loc w; data := data w;
     temp := temp w; isPaused := isPaused w |}.

Definition upd_CACHE_HASH_KEY_INITALIZER (f : option Z → option Z) (w : world) : world :=
  {| now := now w; timers := timers w; next_timer := next_timer w;
     cells := cells w; microtasks := microtasks w; draws := draws w;
     console := console w; emitted := emitted w; settled := settled w;
     next_promise := next_promise w;
     CACHE_HASH_KEY_INITALIZER := f (CACHE_HASH_KEY_INITALIZER w);
     fideliusCharm := fideliusCharm w;
     defaultKeyRotationDuration := defaultKeyRotationDuration w;
     existingRotatorTimerObject := existingRotatorTimerObject w;
     heap := heap w; next_loc := next_loc w; data := data w;
     temp := temp w; isPaused := isPaused w |}.

Definition upd_fideliusCharm (f : option (list Byte.byte) → option (list Byte.byte)) (w : world) : world :=
  {| now := now w; timers := timers w; next_timer := next_timer w;
     cells := cells w; microtasks := microtasks w; draws := draws w;
     console := console w; emitted := emitted w; settled := settled w;
     next_promise := next_promise w;
     CACHE_HASH_KEY_INITALIZER := CACHE_HASH_KEY_INITALIZER w;
     fideliusCharm := f (fideliusCharm w);
     defaultKeyRotationDuration := defaultKeyRotationDuration w;
     existingRotatorTimerObject := existingRotatorTimerObject w;
     heap := heap w; next_loc := next_loc w; data := data w;
     temp := temp w; isPaused := isPaused w |}.

Definition upd_defaultKeyRotationDuration (f : Duration → Duration) (w : world) : world :=
  {| now := now w; timers := timers w; next_timer := next_timer w;
     cells := cells w; microtasks := microtasks w; draws := draws w;
     console := console w; emitted := emitted w; settled := settled w;
     next_promise := next_promise w;
     CACHE_HASH_KEY_INITALIZER := CACHE_HASH_KEY_INITALIZER w;
     fideliusCharm := fideliusCharm w;
     defaultKeyRotationDuration := f (defaultKeyRotationDuration w);
     existingRotatorTimerObject := existingRotatorTimerObject w;
     heap := heap w; next_loc := next_loc w; data := data w;
     temp := temp w; isPaused := isPaused w |}.

Definition upd_existingRotatorTimerObject (f : option canceller → option canceller) (w : world) : world :=
  {| now := now w; timers := timers w; next_timer := next_timer w;
     cells := cells w; microtasks := microtasks w; draws := draws w;
     console := console w; emitted := emitted w; settled := settled w;
     next_promise := next_promise w;
     CACHE_HASH_KEY_INITALIZER := CACHE_HASH_KEY_INITALIZER w;
     fideliusCharm := fideliusCharm w;
     defaultKeyRotationDuration := defaultKeyRotationDuration w;
     existingRotatorTimerObject := f (existingRotatorTimerObject w);
     heap := heap w; next_loc := next_loc w; data := data w;
     temp := temp w; isPaused := isPaused w |}.

Definition upd_heap (f : gmap nat entry → gmap nat entry) (w : world) : world :=
  {| now := now w; timers := timers w; next_timer := next_timer w;
     cells := cells w; microtasks := microtasks w; draws := draws w;
     console := console w; emitted := emitted w; settled := settled w;
     next_promise := next_promise w;
     CACHE_HASH_KEY_INITALIZER := CACHE_HASH_KEY_INITALIZER w;
     fideliusCharm := fideliusCharm w;
     defaultKeyRotationDuration := defaultKeyRotationDuration w;
     existingRotatorTimerObject := existingRotatorTimerObject w;
     heap := f (heap w); next_loc := next_loc w; data := data w;
     temp := temp w; isPaused := isPaused w |}.

Definition upd_next_loc (f : nat → nat) (w : world) : world :=
  {| now := now w; timers := timers w; next_timer := next_timer w;
     cells := cells w; microtasks := microtasks w; draws := draws w;
     console := console w; emitted := emitted w; settled := settled w;
     next_promise := next_promise w;
     CACHE_HASH_KEY_INITALIZER := CACHE_HASH_KEY_INITALIZER w;
     fideliusCharm := fideliusCharm w;
     defaultKeyRotationDuration := defaultKeyRotationDuration w;
     existingRotatorTimerObject := existingRotatorTimerObject w;
     heap := heap w; next_loc := f (next_loc w); data := data w;
     temp := temp w; isPaused := isPaused w |}.

Definition upd_data (f : list (Z * nat) → list (Z * nat)) (w : world) : world :=
  {| now := now w; timers := timers w; next_timer := next_timer w;
     cells := cells w; microtasks := microtasks w; draws := draws w;
     console := console w; emitted := emitted w; settled := settled w;
     next_promise := next_promise w;
     CACHE_HASH_KEY_INITALIZER := CACHE_HASH_KEY_INITALIZER w;
     fideliusCharm := fideliusCharm w;
     defaultKeyRotationDuration := defaultKeyRotationDuration w;
     existingRotatorTimerObject := existingRotatorTimerObject w;
     heap := heap w; next_loc := next_loc w; data := f (data w);
     temp := temp w; isPaused := isPaused w |}.

Definition upd_temp (f : option (list (Z * nat)) → option (list (Z * nat))) (w : world) : world :=
  {| now := now w; timers := timers w; next_timer := next_timer w;
     cells := cells w; microtasks := microtasks w; draws := draws w;
     console := console w; emitted := emitted w; settled := settled w;
     next_promise := next_promise w;
     CACHE_HASH_KEY_INITALIZER := CACHE_HASH_KEY_INITALIZER w;
     fideliusCharm := fideliusCharm w;
     defaultKeyRotationDuration := defaultKeyRotationDuration w;
     existingRotatorTimerObject := existingRotatorTimerObject w;
     heap := heap w; next_loc := next_loc w; data := data w;
     temp := f (temp w); isPaused := isPaused w |}.

Definition upd_isPaused (f : bool → bool) (w : world) : world :=
  {| now := now w; timers := timers w; next_timer := next_timer w;
     cells := cells w; microtasks := microtasks w; draws := draws w;
     console := console w; emitted := emitted w; settled := settled w;
     next_promise := next_promise w;
     CACHE_HASH_KEY_INITALIZER := CACHE_HASH_KEY_INITALIZER w;
     fideliusCharm := fideliusCharm w;
     defaultKeyRotationDuration := defaultKeyRotationDuration w;
     existingRotatorTimerObject := existingRotatorTimerObject w;
     heap := heap w; next_loc := next_loc w; data := data w;
     temp := temp w; isPaused := f (isPaused w) |}.

(** *** State and exceptions *)

Definition M (X : Type) : Type := world → result X * world.

Definition ret {X} (x : X) : M X := λ w, (Ok x, w).

Definition throw {X} (e : exn) : M X := λ w, (Throw e, w).

Definition bind {X Y} (m : M X) (k : X → M Y) : M Y :=
  λ w, match m w with
       | (Ok x, w') => k x w'
       | (Throw e, w') => (Throw e, w')
       end.

Definition try_catch {X} (m : M X) (handler : exn → M X) : M X :=
  λ w, match m w with
       | (Ok x, w') => (Ok x, w')
       | (Throw e, w') => handler e w'
       end.

Definition get {X} (f : world → X) : M X := λ w, (Ok (f w), w).

Definition modify (f : world → world) : M unit := λ w, (Ok (), f w).

Definition lift {X} (r : result X) : M X := λ w, (r, w).

Notation "'do' x <- m ; k" := (bind m (λ x, k))
  (at level 10, x name, m at level 100, k at level 200).

Fixpoint forEach {X} (f : X → M unit) (l : list X) : M unit :=
  match l with
  | [] => ret ()
  | x :: l' => do _ <- f x; forEach f l'
  end.

Definition console_info (msg : string) : M unit :=
  modify (upd_console (λ l, l ++ [LogInfo msg])).

Definition console_warn (msg : string) : M unit :=
  modify (upd_console (λ l, l ++ [LogWarn msg])).

Definition console_error (msg : string) (e : exn) : M unit :=
  modify (upd_console (λ l, l ++ [LogError msg e])).

Definition queueMicrotask (t : task) : M unit :=
  modify (upd_microtasks (λ l, l ++ [t])).

(** *** Timers: [setTimeout], [clearTimeout], [setUnboundedTimeout] *)

Definition TIMEOUT_MAX : Z := 2147483647.

(** [setTimeout(callback, delay)]; Node runs a delay outside
    [1, 2^31 - 1] after one millisecond. *)
Definition setTimeout (callback : timer_callback) (delay : Z) : M nat :=
  do id <- get next_timer;
  do t <- get now;
  let after := if (1 <=? delay) && (delay <=? TIMEOUT_MAX) then delay else 1 in
  do _ <- modify (upd_timers (λ l, l ++ [{| tid := id; due := t + after; tcallback := callback |}]));
  do _ <- modify (upd_next_timer S);
  ret id.

(** [clearTimeout(timer)]: a timeout object is cancelled; for a function,
    which has no [_onTimeout] and is no timer id, Node does nothing. *)
Definition clearTimeout (r : timer_ref) : M unit :=
  match r with
  | TimeoutObject id =>
      modify (upd_timers (filter (λ t, tid t ≠ id)))
  | CancelFunction _ => ret ()
  end.

Definition maxDelay : Z := 2147483647.
Definition maxTotalDelay : Z := 10 ^ 12.

Definition setUnboundedTimeout (callback : unbounded_callback) (delay : Z) : M canceller :=
  if delay >? maxTotalDelay then
    throw (Error "Whoa there, time traveler! Consider a shorter delay (under 1 trillion milliseconds).")
  else
    do cell <- get (λ w, length (cells w));
    do _ <- modify (upd_cells (λ l, l ++ [None]));
    do timeoutId <-
      (if delay >? maxDelay then setTimeout (Chain callback delay cell) maxDelay
       else setTimeout (CallAsync callback) delay);
    ret {| ctimer := timeoutId; ccell := cell |}.

(** The function returned by [setUnboundedTimeout], when it is called:
    [clearTimeout(timeoutId); if (clearNextTimeout) clearNextTimeout()]. *)
Fixpoint call_canceller (fuel : nat) (c : canceller) : M unit :=
  do _ <- clearTimeout (TimeoutObject (ctimer c));
  do next <- get (λ w, cells w !! ccell c);
  match next, fuel with
  | Some (Some c'), S fuel' => call_canceller fuel' c'
  | _, _ => ret ()
  end.

(** *** [class Obfuscator] *)

Definition random_bytes (k : nat) : M (list Byte.byte) :=
  do n <- get draws;
  do _ <- modify (upd_draws S);
  ret (randomBytes n k).

(** The handlers of one event: those registered with [before], the
    listeners registered with [on], those registered with [after]. *)
Record handlers : Type := {
  beforeHandlers : list (M unit);
  listeners : list (M unit);
  afterHandlers : list (M unit)
}.

Definition no_handlers : handlers :=
  {| beforeHandlers := []; listeners := []; afterHandlers := [] |}.

(** [handlers.forEach(handler => { try { handler() } catch (error) {
    console.error(...) } })] *)
Definition run_hooks (msg : string) (hs : list (M unit)) : M unit :=
  forEach (λ handler, try_catch handler (console_error msg)) hs.

(** [super.emit(event)]: the listeners run in order; what one throws
    leaves [emit]. *)
Definition emit (ev : event) (hs : handlers) : M unit :=
  do _ <- modify (upd_emitted (λ l, l ++ [ev]));
  forEach (λ listener, listener) (listeners hs).

(** [emitter] after its [await callback()]: the event and the after
    handlers. It runs inside an [async] function, so what it throws
    rejects a promise that nobody holds. *)
Definition emitter_rest (ev : event) (hs : handlers) : M unit :=
  try_catch
    (do _ <- emit ev hs;
     run_hooks "[OBFUSCATOR][ERROR]Error in after handler for event" (afterHandlers hs))
    (λ _, ret ()).

(** [async emitter(event, callback)] up to its [await]. When [callback]
    returns, the function is suspended and the rest runs as a micro-task;
    when it throws, the [await] is never reached and the rest runs at
    once. The result is what [callback] computed, if it did. *)
Definition emitter {X} (hs : handlers) (ev : event) (callback : M X) : M (option X) :=
  do _ <- run_hooks "[OBFUSCATOR][ERROR]Error in before handler for event" (beforeHandlers hs);
  try_catch
    (do x <- callback;
     do _ <- queueMicrotask (EmitterResume ev);
     ret (Some x))
    (λ error,
     do _ <- console_error "[OBFUSCATOR][ERROR]Error in callback for event" error;
     do _ <- emitter_rest ev hs;
     ret None).

(** [Array.isArray(value) ? "array" : typeof value] *)
Definition type_of (v : value) : jsstring :=
  match v with
  | VUndefined => js "undefined"
  | VNull => js "object"
  | VBoolean _ => js "boolean"
  | VNumber _ => js "number"
  | VBigInt _ => js "bigint"
  | VString _ => js "string"
  | VObject _ => js "object"
  | VArray _ => js "array"
  | VFunction => js "function"
  | VSymbol => js "symbol"
  end.

(** [value.toString()] on a number: the decimal digits of a safe
    integer, ["0"] for both zeros. *)
Definition number_toString (n : number) : jsstring :=
  match n with
  | Int z => if isSafeInteger z then decimal z else Number_toString z
  | NegZero => js "0"
  | NaN => js "NaN"
  | Infinity => js "Infinity"
  | NegInfinity => js "-Infinity"
  | Finite s => s
  end.

(** [Number(string)]. The strings ["NaN"], ["Infinity"] and
    ["-Infinity"] and the decimal digits of a safe integer, with a minus
    sign or without, are read here, ["-0"] as the negative zero; every
    other string is left to the platform. *)
Definition Number (s : jsstring) : number :=
  if str_eqb s (js "NaN") then NaN
  else if str_eqb s (js "Infinity") then Infinity
  else if str_eqb s (js "-Infinity") then NegInfinity
  else
    match parse_decimal s with
    | Some z =>
        if isSafeInteger z then
          if (z =? 0) && match s with c :: _ => c =? 45 | [] => false end
          then NegZero else Int z
        else StringToNumber s
    | None => StringToNumber s
    end.

(** [BigInt(string)] on decimal integers, the strings that [toString]
    writes. *)

Definition BigInt (s : jsstring) : result Z :=
  match parse_decimal s with
  | Some z => Ok z
  | None => Throw (Error "SyntaxError: Cannot convert to a BigInt")
  end.

(** [converttostring(value)]: the pair [{ value: stringValue, type }];
    in the default case [stringValue] is the value itself. *)
Definition converttostring (v : value) : result (value * jsstring) :=
  let type := type_of v in
  match v with
  | VNumber n => Ok (VString (number_toString n), type)
  | VBoolean b => Ok (VString (js (if b then "true" else "false")), type)
  | VBigInt z => Ok (VString (decimal z), type)
  | VNull | VObject _ | VArray _ =>
      match JSON_stringify v with
      | Ok s => Ok (VString s, type)
      | Throw e => Throw e
      end
  | _ => Ok (v, type)
  end.

(** [toType(string, type)]. The case ["bigint"] has no [break]: after
    [BigInt(string)] control falls into the case ["boolean"]. *)
Definition toType (string : jsstring) (type : jsstring) : result value :=
  if str_eqb type (js "number") then Ok (VNumber (Number string))
  else if str_eqb type (js "bigint") then
    match BigInt string with
    | Ok _ => Ok (VBoolean (str_eqb (toLowerCase string) (js "true")))
    | Throw e => Throw e
    end
  else if str_eqb type (js "boolean") then
    Ok (VBoolean (str_eqb (toLowerCase string) (js "true")))
  else if str_eqb type (js "object") || str_eqb type (js "array") then
    JSON_parse string
  else Ok (VString string).

(** [encode(value)]: the callback runs inside [emitter], synchronously;
    [encoded] stays [undefined] when it throws. *)
Definition encode (v : value) : M value :=
  do encoded <-
    emitter no_handlers obfuscated
      (do stringValue <- lift (converttostring v);
       do iv <- random_bytes 16;
       do key <- get fideliusCharm;
       match key, stringValue.1 with
       | Some key, VString s =>
           do encrypted <- lift (cipher key iv s);
           ret (to_hex iv ++ [colon] ++ to_hex encrypted ++ [colon] ++ stringValue.2)
       | None, _ => throw (TypeError "The key argument must be of type string or Buffer")
       | _, _ => throw (TypeError "The data argument must be of type string or Buffer")
       end);
  ret (match encoded with Some s => VString s | None => VUndefined end).

(** [decode(string)] *)
Definition decode (string : value) : M value :=
  match string with
  | VString s =>
      match split colon s with
      | [p1; p2; p3] =>
          let iv := from_hex p1 in
          let encryptedText := from_hex p2 in
          do key <- get fideliusCharm;
          match key with
          | Some key =>
              do decrypted <- lift (decipher key iv encryptedText);
              lift (toType decrypted p3)
          | None => throw (TypeError "The key argument must be of type string or Buffer")
          end
      | _ => throw (Error "Invalid string to decode.")
      end
  | _ => throw (TypeError "string.split is not a function")
  end.

(** *** The JavaScript [Map] of the cache: hashed key to entry object, in
    insertion order *)

Definition map_get (k : Z) (m : list (Z * nat)) : option nat :=
  snd <$> List.find (λ p, p.1 =? k) m.

Definition map_has (k : Z) (m : list (Z * nat)) : bool :=
  match map_get k m with Some _ => true | None => false end.

Definition map_set (k : Z) (l : nat) (m : list (Z * nat)) : list (Z * nat) :=
  if map_has k m then (λ p, if p.1 =? k then (k, l) else p) <$> m
  else m ++ [(k, l)].

Definition map_delete (k : Z) (m : list (Z * nat)) : list (Z * nat) :=
  List.filter (λ p, negb (p.1 =? k)) m.

(** [new Object] for an entry. *)
Definition alloc (e : entry) : M nat :=
  do l <- get next_loc;
  do _ <- modify (upd_heap (insert l e));
  do _ <- modify (upd_next_loc S);
  ret l.

(** [object.value = v] on the entry object at [l]. *)
Definition set_value (l : nat) (v : value) : M unit :=
  modify (upd_heap (alter (λ e, {| value_of := v; expiresOn := expiresOn e;
                                   isObfusacated := isObfusacated e;
                                   type := type e; checksum := checksum e |}) l)).

Definition deref (l : nat) : M entry :=
  do o <- get (λ w, heap w !! l);
  match o with
  | Some e => ret e
  | None => throw (TypeError "Cannot read properties of undefined")
  end.

(** *** [class Cache] *)

(** [hash << 5] on a number: [ToInt32], then the shift within 32 bits. *)
Definition ToInt32 (x : Z) : Z := (x + 2 ^ 31) mod 2 ^ 32 - 2 ^ 31.

Definition shl32 (x n : Z) : Z := ToInt32 (ToInt32 x * 2 ^ n).

(** The double nearest to the integer [z], the one with the even
    mantissa when two are as near: [z] itself below 2^53, a multiple of
    a power of two above. This is what [+] makes of the exact sum of two
    integers. *)
Definition round_to_double (z : Z) : Z :=
  let a := Z.abs z in
  if a <? 2 ^ 53 then z
  else
    let e := Z.log2 a - 52 in
    let q := a / 2 ^ e in
    let r := a mod 2 ^ e in
    let q' := if r <? 2 ^ (e - 1) then q
              else if 2 ^ (e - 1) <? r then q + 1
              else if Z.even q then q else q + 1 in
    Z.sgn z * (q' * 2 ^ e).

(** [#createHashKey(key)]; [CACHE_HASH_KEY_INITALIZER] holds
    [parseInt(process.env?.CACHE_HASH_KEY_INITALIZER)], a finite number,
    [None] for [NaN]. [hash_loop] is the [for] loop over the code units
    of the key, [(hash << 5) + hash + key.charCodeAt(i)] with its two
    sums. *)
Definition hash_loop (hash : Z) (key : jsstring) : Z :=
  foldl (λ hash c, round_to_double (round_to_double (shl32 hash 5 + hash) + c))
    hash key.

Definition createHashKey (key : jsstring) : M Z :=
  do hash <- get CACHE_HASH_KEY_INITALIZER;
  let key := remove_whitespace key in
  match hash with
  | None | Some 0 => throw (Error "Cache hash key is not set.")
  | Some hash => ret (hash_loop hash key)
  end.

(** [#createCheckSum(key)] *)
Definition createCheckSum (key : jsstring) : jsstring :=
  SHA256.hexdigest (utf8 key).

(** [#validateKeyCheckSum(key, current_checksum)] *)
Definition validateKeyCheckSum (key : Z) (current_checksum : jsstring) : M bool :=
  do d <- get data;
  match map_get key d with
  | None => ret true
  | Some l =>
      do e <- deref l;
      ret (str_eqb (checksum e) current_checksum)
  end.

(** [#runCacheCleanup(key, expiration)] for a [Duration], for which
    [if (expiration)] holds. The closure refers to [_timer], the function
    that the call returns. *)
Definition runCacheCleanup (key : Z) (d : Duration) : M unit :=
  do id <- get next_timer;
  do cell <- get (λ w, length (cells w));
  let _timer := {| ctimer := id; ccell := cell |} in
  do _ <- setUnboundedTimeout (ExpireEntry key d _timer) (toMilliseconds d);
  ret ().

(** [has(key)], [delete(key)], [destroy()] *)
Definition has (key : jsstring) : M bool :=
  do hKey <- createHashKey key;
  do d <- get data;
  ret (map_has hKey d).

Definition delete (key : jsstring) : M bool :=
  do hKey <- createHashKey key;
  do d <- get data;
  do _ <- modify (upd_data (map_delete hKey));
  ret (map_has hKey d).

Definition destroy : M unit :=
  do _ <- modify (upd_isPaused (λ _, true));
  do _ <- modify (upd_data (λ _, []));
  modify (upd_isPaused (λ _, false)).

(** The function that [write] hands to the queue. The cleanup is
    scheduled unless the expiration is ["never"]; for [null] the test
    [if (expiration)] of [#runCacheCleanup] fails and nothing happens. *)
Definition write_job (key : jsstring) (hKey : Z) (_value : value)
    (exp : expiration) (obfuscate : bool) (typeOfValue : jsstring) : M unit :=
  let keyCheckSum := createCheckSum key in
  do valid <- validateKeyCheckSum hKey keyCheckSum;
  if valid then
    do l <- alloc {| value_of := _value; expiresOn := exp;
                     isObfusacated := obfuscate; type := typeOfValue;
                     checksum := keyCheckSum |};
    do _ <- modify (upd_data (map_set hKey l));
    match exp with
    | ExpNever => ret ()
    | ExpNull => ret ()
    | ExpAfter d => runCacheCleanup hKey d
    end
  else
    do _ <- console_warn "[WARNING] Key collision detected. The existing cache will be deleted and the new cache will not be stored.";
    do _ <- delete key;
    ret ().

(** [#handleBeforeKeyRotated]: [new Map(this.#data)] copies the map, not
    the entry objects; the loop assigns to the entries themselves. *)
Definition handleBeforeKeyRotated : M unit :=
  do d <- get data;
  do _ <- modify (upd_temp (λ _, Some d));
  forEach (λ p, do e <- deref p.2;
                do v <- decode (value_of e);
                set_value p.2 v) d.

(** [#handleKeyRotated] *)
Definition handleKeyRotated : M unit :=
  do _ <- modify (upd_isPaused (λ _, true));
  do _ <- destroy;
  do t <- get temp;
  match t with
  | None => throw (TypeError "Cannot read properties of undefined (reading 'forEach')")
  | Some t =>
      do _ <- forEach (λ p, do e <- deref p.2;
                            do v <- encode (value_of e);
                            set_value p.2 v) t;
      do _ <- modify (upd_data (λ _, t));
      do _ <- modify (upd_isPaused (λ _, false));
      modify (upd_temp (λ _, Some []))
  end.

(** The handlers that the constructor of [Cache] registers:
    [before(key_rotated, #handleBeforeKeyRotated)] and
    [on(key_rotated, #handleKeyRotated)]. The model has no others. *)
Definition handlers_of (ev : event) : handlers :=
  match ev with
  | key_rotated =>
      {| beforeHandlers := [handleBeforeKeyRotated];
         listeners := [handleKeyRotated];
         afterHandlers := [] |}
  | _ => no_handlers
  end.

(** [rotateKey()] *)
Definition rotateKey : M unit :=
  do _ <- emitter (handlers_of key_rotated) key_rotated
            (do k <- random_bytes 32;
             modify (upd_fideliusCharm (λ _, Some k)));
  ret ().

(** [#rotator()] *)
Definition rotator : M unit :=
  do duration <- get defaultKeyRotationDuration;
  do charm <- get fideliusCharm;
  do _ <- match charm with
          | Some _ => ret ()
          | None => do k <- random_bytes 32;
                    modify (upd_fideliusCharm (λ _, Some k))
          end;
  do c <- setUnboundedTimeout RotateKey (toMilliseconds duration);
  modify (upd_existingRotatorTimerObject (λ _, Some c)).

(** [set defaultKeyRotationDuration(duration)] *)
Definition set_defaultKeyRotationDuration (duration : Duration) : M unit :=
  do _ <- modify (upd_defaultKeyRotationDuration (λ _, duration));
  do _ <- emitter (handlers_of rotation_duration_changed) rotation_duration_changed
            (do existing <- get existingRotatorTimerObject;
             do _ <- match existing with
                     | Some f => clearTimeout (CancelFunction f)
                     | None => ret ()
                     end;
             rotator);
  ret ().

(** The world before the constructors run, with the hash seed of the
    environment. *)
Definition empty_world (seed : option Z) : world :=
  {| now := 0; timers := []; next_timer := 0; cells := []; microtasks := [];
     draws := 0; console := []; emitted := []; settled := []; next_promise := 0;
     CACHE_HASH_KEY_INITALIZER := seed;
     fideliusCharm := None;
     defaultKeyRotationDuration := Duration_days 90;
     existingRotatorTimerObject := None;
     heap := ∅; next_loc := 0; data := []; temp := None; isPaused := false |}.

(** *** The cache with its write queue *)

Abbreviation job_outcome := (ProcessQueue.outcome world).

Record cache : Type := {
  cw : world;
  writeQueue : ProcessQueue.t world value
}.

Definition pq_console_error (msg : string) (e : exn) (w : world) : world :=
  upd_console (λ l, l ++ [LogError msg e]) w.

Definition pq_schedule_resume (w : world) : world :=
  upd_microtasks (λ l, l ++ [DrainResume]) w.

(** A function of the program as a job of the queue. *)
Definition as_job (m : M unit) : world → job_outcome value :=
  λ w, match m w with
       | (Ok _, w') => ProcessQueue.Returns VUndefined w'
       | (Throw e, w') => ProcessQueue.Throws e w'
       end.

(** [new Cache()]: the field initialisers, then the constructor, which
    builds the [Obfuscator] ([#rotator()] in its constructor). *)
Definition new_Cache (seed : option Z) : result cache :=
  match ProcessQueue.new 5000 with
  | Throw e => Throw e
  | Ok q =>
      match rotator (empty_world seed) with
      | (Ok _, w) => Ok {| cw := w; writeQueue := q |}
      | (Throw e, _) => Throw e
      end
  end.

Definition lift_world {X} (m : M X) (c : cache) : result X * cache :=
  let '(r, w) := m (cw c) in (r, {| cw := w; writeQueue := writeQueue c |}).

Definition settle (promise : nat) (r : result value) (w : world) : world :=
  upd_settled (λ l, l ++ [(promise, r)]) w.

Definition new_promise : M nat :=
  do p <- get next_promise;
  do _ <- modify (upd_next_promise S);
  ret p.

(** [#pauseUntilOperationsResumed()] from the test of its [while]: while
    paused it waits on a timer; otherwise it returns and the caller's
    [await] resumes the caller in a micro-task. *)
Definition pauseCheckInterval : Z := 10.

Definition pauseUntilOperationsResumed (k : continuation) : M unit :=
  do paused <- get isPaused;
  if paused then
    do _ <- setTimeout (ResolvePause k) pauseCheckInterval;
    ret ()
  else queueMicrotask (Resume k).

(** [async read(key)] up to its [await]: the promise it returns. *)
Definition read (key : jsstring) : M nat :=
  do p <- new_promise;
  do _ <- pauseUntilOperationsResumed (ContRead p key);
  ret p.

(** [read] after the [await]. *)
Definition read_body (key : jsstring) : M value :=
  do hKey <- createHashKey key;
  do d <- get data;
  match map_get hKey d with
  | None => ret VNull
  | Some l =>
      do cacheItem <- deref l;
      if isObfusacated cacheItem then decode (value_of cacheItem)
      else ret (value_of cacheItem)
  end.

Definition read_resume (p : nat) (key : jsstring) (w : world) : world :=
  let '(r, w') := read_body key w in settle p r w'.

Definition non_cachable (typeOfValue : jsstring) : bool :=
  str_eqb typeOfValue (js "function") || str_eqb typeOfValue (js "undefined")
  || str_eqb typeOfValue (js "symbol").

(** [async write(key, value, expiration, obfuscate)] up to its [await]:
    a [Throw] is the rejection of the promise before anything else
    happened; otherwise the promise it returns. *)
Definition write (key : jsstring) (v : value) (exp : expiration) (obfuscate : bool)
    : M nat :=
  let typeOfValue := type_of v in
  do hKey <- createHashKey key;
  if non_cachable typeOfValue then
    throw (CacheException "NON_CACHABLE_VALUE"
             "Invalid value. Functions, undefined, and symbols cannot be stored in cache."
             (Error "cannot be stored as cache."))
  else
    do p <- new_promise;
    do _ <- pauseUntilOperationsResumed (ContWrite p key v exp obfuscate typeOfValue hKey);
    ret p.

(** [write] after the [await]: the value is encoded, the job enqueued. *)
Definition write_resume (p : nat) (key : jsstring) (v : value) (exp : expiration)
    (obfuscate : bool) (typeOfValue : jsstring) (hKey : Z) (c : cache) : cache :=
  let encoded :=
    if obfuscate then
      try_catch (encode v)
        (λ err, throw (CacheException "UNABLE_TO_OBFUSCATE" "Failed to obfuscate value." err))
    else ret v in
  match encoded (cw c) with
  | (Throw e, w) => {| cw := settle p (Throw e) w; writeQueue := writeQueue c |}
  | (Ok _value, w) =>
      match ProcessQueue.enqueue pq_console_error pq_schedule_resume
              (as_job (write_job key hKey _value exp obfuscate typeOfValue))
              None (writeQueue c) w with
      | Throw e => {| cw := settle p (Throw e) w; writeQueue := writeQueue c |}
      | Ok (q, w') => {| cw := settle p (Ok VUndefined) w'; writeQueue := q |}
      end
  end.

(** *** The event loop *)

Definition run_continuation (k : continuation) (c : cache) : cache :=
  match k with
  | ContRead p key => {| cw := read_resume p key (cw c); writeQueue := writeQueue c |}
  | ContWrite p key v exp obfuscate typeOfValue hKey =>
      write_resume p key v exp obfuscate typeOfValue hKey c
  end.

Definition run_task (t : task) (c : cache) : cache :=
  match t with
  | EmitterResume ev => (lift_world (emitter_rest ev (handlers_of ev)) c).2
  | PauseLoop k => (lift_world (pauseUntilOperationsResumed k) c).2
  | Resume k => run_continuation k c
  | DrainResume =>
      let '(q, w) := ProcessQueue.resume pq_console_error pq_schedule_resume
                       (writeQueue c) (cw c) in
      {| cw := w; writeQueue := q |}
  | AfterAwait => c
  end.

(** One job of the micro-task queue. *)
Definition tick (c : cache) : option cache :=
  match microtasks (cw c) with
  | [] => None
  | t :: ts =>
      Some (run_task t {| cw := upd_microtasks (λ _, ts) (cw c);
                          writeQueue := writeQueue c |})
  end.

(** The micro-task queue is run until it is empty. *)
Fixpoint run_microtasks (fuel : nat) (c : cache) : cache :=
  match fuel with
  | O => c
  | S fuel' =>
      match tick c with
      | None => c
      | Some c' => run_microtasks fuel' c'
      end
  end.

(** The callback of a timer that fires. *)
Definition run_unbounded_callback (cb : unbounded_callback) : M unit :=
  match cb with
  | RotateKey => rotateKey
  | ExpireEntry hKey exp _timer =>
      do _ <- modify (upd_data (map_delete hKey));
      do _ <- clearTimeout (CancelFunction _timer);
      console_info "[INFO] Cache has been expired as per set duration."
  end.

Definition run_timer_callback (cb : timer_callback) : M unit :=
  match cb with
  | CallAsync callback =>
      do _ <- run_unbounded_callback callback;
      queueMicrotask AfterAwait
  | Chain callback delay cell =>
      do c <- setUnboundedTimeout callback (delay - maxDelay);
      modify (upd_cells (λ l, <[cell := Some c]> l))
  | ResolvePause k => queueMicrotask (PauseLoop k)
  end.

(** The timer that is due first, the oldest one among equals. *)
Fixpoint next_timer_due (l : list timer) : option timer :=
  match l with
  | [] => None
  | t :: l' =>
      match next_timer_due l' with
      | Some t' => if due t' <? due t then Some t' else Some t
      | None => Some t
      end
  end.

(** The clock advances to the next timer, which fires. *)
Definition fire_next_timer (c : cache) : option cache :=
  match next_timer_due (timers (cw c)) with
  | None => None
  | Some t =>
      let w := upd_now (λ n, Z.max n (due t)) (cw c) in
      let w := upd_timers (filter (λ t', tid t' ≠ tid t)) w in
      Some {| cw := (run_timer_callback (tcallback t) w).2; writeQueue := writeQueue c |}
  end.

(** The program runs on until no timer is left: each timer that fires is
    followed by the micro-tasks it queued. *)
Fixpoint run_timers (fuel : nat) (c : cache) : cache :=
  match fuel with
  | O => c
  | S fuel' =>
      match fire_next_timer c with
      | None => c
      | Some c' => run_timers fuel' (run_microtasks fuel c')
      end
  end.

(** *** The program as a transition system

    A call of the public interface, made by the code that uses the cache
    while it runs. *)
Inductive api_call : Type :=
| CallHas (key : jsstring)
| CallDelete (key : jsstring)
| CallDestroy
| CallWrite (key : jsstring) (v : value) (exp : expiration) (obfuscate : bool)
| CallRead (key : jsstring)
| CallRotateKey
| CallSetRotationDuration (d : Duration).

Definition run_call (op : api_call) (c : cache) : cache :=
  match op with
  | CallHas key => (lift_world (has key) c).2
  | CallDelete key => (lift_world (delete key) c).2
  | CallDestroy => (lift_world destroy c).2
  | CallWrite key v exp obfuscate => (lift_world (write key v exp obfuscate) c).2
  | CallRead key => (lift_world (read key) c).2
  | CallRotateKey => (lift_world rotateKey c).2
  | CallSetRotationDuration d => (lift_world (set_defaultKeyRotationDuration d) c).2
  end.

(** One move: a call, the next micro-task, or the next timer. *)
Inductive step : cache → cache → Prop :=
| step_call op c : step c (run_call op c)
| step_tick c c' : tick c = Some c' → step c c'
| step_timer c c' : fire_next_timer c = Some c' → step c c'.

(** The states that a cache built by [new Cache()] can come to. *)
Definition reachable (seed : option Z) (c : cache) : Prop :=
  ∃ c0, new_Cache seed = Ok c0 ∧ rtc step c0 c.

(** Nothing is pending: no micro-task, no suspended drain loop, no job
    waiting in the queue. *)
Definition quiescent (c : cache) : Prop :=
  microtasks (cw c) = [] ∧ ProcessQueue.suspended (writeQueue c) = None
  ∧ ProcessQueue.isExecuting (writeQueue c) = false
  ∧ Queue.size (ProcessQueue.queue (writeQueue c)) = 0.

End Program.

(** ** The predicates of the statements *)

Abbreviation drain_error :=
  "[PROCESS_QUEUE][ERROR] Error during completing current process queue:"%string.

Abbreviation collision_warning :=
  "[WARNING] Key collision detected. The existing cache will be deleted and the new cache will not be stored."%string.

Abbreviation expired_info := "[INFO] Cache has been expired as per set duration."%string.

Abbreviation time_traveler :=
  (Error "Whoa there, time traveler! Consider a shorter delay (under 1 trillion milliseconds).").

(** The decimal digits. *)
Definition is_digit (c : Z) : Prop := 48 <= c <= 57.

(** The number of colons of a string. *)
Definition colons (s : jsstring) : nat := length (filter (λ c, c = colon) s).

Section QueuePredicates.
Context {A : Type} (undefined : A).

(** The buffer [q] of capacity [C] holds the list [l]. *)
Definition holds (C : Z) (q : Queue.t A) (l : list A) : Prop :=
  Queue.wf q ∧ Queue.contents undefined q = l ∧ Queue.capacity q = C.

(** Slot [i] of the array is one of the [size] slots that start at
    [front]. *)
Definition in_window (q : Queue.t A) (i : Z) : Prop :=
  ∃ k, 0 <= k < Queue.size q ∧ i = (Queue.front q + k) mod Queue.capacity q.

(** Every slot of the array outside the window reads [undefined]. *)
Definition clean (q : Queue.t A) : Prop :=
  ∀ i, 0 <= i < Queue.capacity q → ¬ in_window q i →
       Queue.array_get undefined (Queue.items q) i = undefined.
End QueuePredicates.

Section ProcessQueuePredicates.
Context {W R : Type}.

(** No loop is running and no job is waiting. *)
Definition idle (s : ProcessQueue.t W R) : Prop :=
  ProcessQueue.isExecuting s = false ∧ ProcessQueue.suspended s = None
  ∧ Queue.wf (ProcessQueue.queue s) ∧ Queue.size (ProcessQueue.queue s) = 0
  ∧ 0 < Queue.capacity (ProcessQueue.queue s).




End ProcessQueuePredicates.

Section Predicates.
Context `{Platform}.
Implicit Types (w : world) (c : cache) (key : jsstring) (v : value object).

(** The hash seed of the environment is set: [parseInt] gave a number
    other than zero. *)
Definition seeded (seed : Z) w : Prop :=
  CACHE_HASH_KEY_INITALIZER w = Some seed ∧ seed ≠ 0.

(** What [encode] leaves alone: everything but the random draws, the
    console, the trace of events and the micro-task queue. *)
Definition same_but_encoding w w' : Prop :=
  CACHE_HASH_KEY_INITALIZER w' = CACHE_HASH_KEY_INITALIZER w
  ∧ isPaused w' = isPaused w
  ∧ settled w' = settled w
  ∧ next_promise w' = next_promise w
  ∧ fideliusCharm w' = fideliusCharm w
  ∧ data w' = data w
  ∧ heap w' = heap w
  ∧ next_loc w' = next_loc w
  ∧ timers w' = timers w.

(** What a job of the write queue leaves alone. *)
Definition same_loop_state w w' : Prop :=
  microtasks w' = microtasks w
  ∧ CACHE_HASH_KEY_INITALIZER w' = CACHE_HASH_KEY_INITALIZER w
  ∧ isPaused w' = isPaused w
  ∧ settled w' = settled w
  ∧ next_promise w' = next_promise w
  ∧ fideliusCharm w' = fideliusCharm w.

(** The cache is at rest: the seed is set, the gate is open, no micro-task
    is queued and the write queue is idle. *)
Record ready (seed : Z) c : Prop := {
  ready_seed : seeded seed (cw c);
  ready_tasks : microtasks (cw c) = [];
  ready_gate : isPaused (cw c) = false;
  ready_queue : idle (writeQueue c)
}.

(** The value that [write] hands to its job: the value itself, or what
    [encode] returned for it. *)
Definition handed (obfuscate : bool) v w : value object * world :=
  if obfuscate then
    match encode v w with
    | (Ok val, w') => (val, w')
    | (Throw _, w') => (VUndefined, w')
    end
  else (v, w).

(** The world in which [write] resumes after its [await]. *)
Definition resumed_world w : world :=
  upd_microtasks (λ _, []) (upd_next_promise S w).

(** The bucket [hKey] is free, or holds an entry of the key [key]. *)
Definition accepts (hKey : Z) key w : Prop :=
  match map_get hKey (data w) with
  | None => True
  | Some l => ∃ e, heap w !! l = Some e ∧ checksum e = createCheckSum key
  end.

(** The numbers that [Number] restores from what [toString] wrote: the
    safe integers, [NaN] and the two infinities; not the negative zero,
    whose string is ["0"]; and any other finite number as far as the
    platform reads it back from its string. *)
Definition number_survives (n : number) : Prop :=
  match n with
  | Int z => isSafeInteger z = true
  | NegZero => False
  | NaN | Infinity | NegInfinity => True
  | Finite s => Number s = Finite s
  end.

(** The values that [toType] restores from what [converttostring] wrote:
    strings, booleans and the numbers above; and [null], objects and
    arrays, as far as [JSON.parse] restores what [JSON.stringify]
    wrote. *)
Definition survives v : Prop :=
  match v with
  | VString _ | VBoolean _ => True
  | VNumber n => number_survives n
  | VNull | VObject _ | VArray _ =>
      ∃ s, JSON_stringify v = Ok s ∧ JSON_parse s = Ok v
  | _ => False
  end.

(** The entry object at [l] holds a value that [decode] turns into
    [v], and one on which [decode] throws [err]. *)
Definition decodes_to w (l : nat) v : Prop :=
  ∃ e, heap w !! l = Some e ∧ (decode (value_of e) w).1 = Ok v.

Definition fails_to_decode w (l : nat) (err : exn) : Prop :=
  ∃ e, heap w !! l = Some e ∧ (decode (value_of e) w).1 = Throw err.

(** The entry object [e] after [e.value = v]. *)
Definition with_value (e : entry) v : entry :=
  {| value_of := v; expiresOn := expiresOn e; isObfusacated := isObfusacated e;
     type := type e; checksum := checksum e |}.

(** What [decode] makes of a value, or the value itself where [decode]
    throws: the value of an entry after the loop of
    [#handleBeforeKeyRotated] came to it. *)
Definition decoded_in_place v w : value object :=
  match (decode v w).1 with
  | Ok val => val
  | Throw _ => v
  end.

(** The timer that [setUnboundedTimeout(callback, delay)] sets at once,
    for a delay of at least one millisecond: the callback itself after
    [delay], or the next link of the chain after [maxDelay]. *)
Definition first_timeout (cb : unbounded_callback) (delay : Z) (id cell : nat) w : timer :=
  {| tid := id;
     due := now w + Z.min delay maxDelay;
     tcallback := if delay >? maxDelay then Chain cb delay cell else CallAsync cb |}.

(** The number of timers that a delay takes, one after the other. *)
Definition chunks (delay : Z) : nat := S (Z.to_nat ((delay - 1) / maxDelay)).

(** The world [w] at the time [t], with no timer left, whatever became
    of the cancellation cells and of the timer identifiers. *)
Definition world_at (t : Z) (cs : list (option canceller)) (nt : nat) w : world :=
  upd_cells (λ _, cs) (upd_next_timer (λ _, nt) (upd_timers (λ _, []) (upd_now (λ _, t) w))).

(** The micro-tasks that a rotation of the key queues. *)
Definition rotation_task (t : task) : Prop :=
  t = AfterAwait ∨ ∃ ev, t = EmitterResume ev.

(** A function of the queue that leaves the gate open when it finds it
    open, and a slot of the queue that holds nothing or such a function,
    with no completion callback. *)
Definition gate_safe (f : world → ProcessQueue.outcome world (value object)) : Prop :=
  ∀ w, isPaused w = false →
    isPaused (match f w with
              | ProcessQueue.Returns _ w' => w'
              | ProcessQueue.Throws _ w' => w'
              | ProcessQueue.Rejects _ w' => w'
              end) = false.

Definition slot_ok (slot : option (ProcessQueue.item world (value object))) : Prop :=
  match slot with
  | None => True
  | Some it => ProcessQueue.callback it = None ∧ gate_safe (ProcessQueue.function it)
  end.

(** The invariant of the reachable states: the gate is open, and the
    queue holds such functions only and waits for no callback. *)
Definition queue_ok (s : ProcessQueue.t world (value object)) : Prop :=
  Forall slot_ok (Queue.items (ProcessQueue.queue s))
  ∧ match ProcessQueue.suspended s with
    | Some (ProcessQueue.AwaitItem _ (Some _)) => False
    | _ => True
    end.

Definition gate_open c : Prop :=
  isPaused (cw c) = false ∧ queue_ok (writeQueue c).

(** What the steps of a rotation leave alone: the clock, the timers and
    the key; and they queue rotation tasks only. *)
Definition rotation_step w w' : Prop :=
  now w' = now w ∧ timers w' = timers w ∧ fideliusCharm w' = fideliusCharm w
  ∧ ∃ ts, microtasks w' = microtasks w ++ ts ∧ Forall rotation_task ts.

(** The timer that cleans up after the bucket [hKey], set in the world
    [w] for a duration [d] that one [setTimeout] covers. *)
Definition cleanup_timer (hKey : Z) (d : Duration) w : timer :=
  {| tid := next_timer w;
     due := now w + Z.max 1 (toMilliseconds d);
     tcallback := CallAsync (ExpireEntry hKey d {| ctimer := next_timer w;
                                                   ccell := length (cells w) |}) |}.

End Predicates.

(** ** A small world for running a [ProcessQueue] on its own *)

Module Demo.

(** The jobs append to [trace]; [errors] is what [console.error] got;
    [resumes] counts the micro-tasks that wait to resume the loop. *)
Record world : Type := { trace : list nat; errors : list exn; resumes : nat }.

Definition console_error (msg : string) (e : exn) (w : world) : world :=
  {| trace := trace w; errors := errors w ++ [e]; resumes := resumes w |}.

Definition schedule_resume (w : world) : world :=
  {| trace := trace w; errors := errors w; resumes := S (resumes w) |}.

Definition job (n : nat) (w : world) : ProcessQueue.outcome world unit :=
  ProcessQueue.Returns () {| trace := trace w ++ [n]; errors := errors w;
                             resumes := resumes w |}.

Definition failing_job (w : world) : ProcessQueue.outcome world unit :=
  ProcessQueue.Throws (Error "boom") w.

(** An [async] job that throws: its promise is rejected. *)
Definition rejecting_job (w : world) : ProcessQueue.outcome world unit :=
  ProcessQueue.Rejects (Error "boom") w.

Abbreviation state := (ProcessQueue.t world unit * world)%type.

Definition start (capacity : Z) : result state :=
  match ProcessQueue.new capacity with
  | Ok s => Ok (s, {| trace := []; errors := []; resumes := 0 |})
  | Throw e => Throw e
  end.

(** [queue.enqueue(f)]; a full queue throws to the caller and nothing
    changes. *)
Definition enqueue (f : world → ProcessQueue.outcome world unit) (st : state) : state :=
  match ProcessQueue.enqueue console_error schedule_resume f None st.1 st.2 with
  | Ok st' => st'
  | Throw _ => st
  end.

(** The micro-tasks run until none is left. *)
Fixpoint run_resumes (fuel : nat) (st : state) : state :=
  match fuel, resumes st.2 with
  | S fuel', S k =>
      run_resumes fuel'
        (ProcessQueue.resume console_error schedule_resume st.1
           {| trace := trace st.2; errors := errors st.2; resumes := k |})
  | _, _ => st
  end.

(** The slot of the array that holds [job n]. *)
Definition item (n : nat) : option (ProcessQueue.item world unit) :=
  Some {| ProcessQueue.function := job n; ProcessQueue.callback := None |}.

(** [for (const n of ns) queue.enqueue(job n)] in one synchronous run. *)
Definition enqueue_all (ns : list nat) (st : state) : state :=
  foldl (λ st n, enqueue (job n) st) st ns.

(** [enqueue(job 1); enqueue(failing); enqueue(job 3)] in one synchronous
    run, on a new queue of capacity 3. *)
Definition three_jobs : state :=
  match start 3 with
  | Ok st => enqueue (job 3) (enqueue failing_job (enqueue (job 1) st))
  | Throw _ => (ProcessQueue.mk (Queue.mk 0 [] 0 0 0) false None,
                {| trace := []; errors := []; resumes := 0 |})
  end.

(** [enqueue(rejecting); enqueue(job 2)] in one synchronous run, on a new
    queue of capacity 1: the first job is taken at once, and the second
    fills the queue while the loop waits for the first. *)
Definition full_behind_a_failure : state :=
  match start 1 with
  | Ok st => enqueue (job 2) (enqueue rejecting_job st)
  | Throw _ => (ProcessQueue.mk (Queue.mk 0 [] 0 0 0) false None,
                {| trace := []; errors := []; resumes := 0 |})
  end.

End Demo.

(** ** A platform to run the program on

    The theorems hold for every platform. To run the program on concrete
    inputs this one takes a byte-wise XOR with the first bytes of the key
    and of the initialization vector in place of AES, a counter in place of
    the random source, and one object, [{}]. *)

Module Toy.

Definition byte_of_Z (z : Z) : Byte.byte :=
  default Byte.x00 (Byte.of_N (Z.to_N (z mod 256))).

Definition Z_of_byte (b : Byte.byte) : Z := Z.of_N (Byte.to_N b).

Definition first_byte (bs : list Byte.byte) : Z :=
  Z_of_byte (default Byte.x00 (head bs)).

Definition mask (key iv : list Byte.byte) : Z :=
  Z.lxor (first_byte key) (first_byte iv).

(** The first byte of the ciphertext tells the key, so that the wrong
    key fails to decrypt; then two bytes for each code unit. *)
Definition xor_cipher (key iv : list Byte.byte) (s : jsstring) : result (list Byte.byte) :=
  let m := mask key iv in
  Ok (byte_of_Z (first_byte key)
      :: flat_map (λ c, [byte_of_Z (Z.lxor (c / 256) m);
                         byte_of_Z (Z.lxor (c mod 256) m)]) s).

Fixpoint plain (m : Z) (bs : list Byte.byte) : jsstring :=
  match bs with
  | h :: l :: bs' =>
      (Z.lxor (Z_of_byte h) m * 256 + Z.lxor (Z_of_byte l) m) :: plain m bs'
  | _ => []
  end.

Definition xor_decipher (key iv bs : list Byte.byte) : result jsstring :=
  match bs with
  | k :: bs' =>
      if Z_of_byte k =? first_byte key then Ok (plain (mask key iv) bs')
      else Throw (Error "bad decrypt")
  | [] => Throw (Error "bad decrypt")
  end.

#[export] Instance platform : Platform := {|
  object := unit;
  JSON_stringify := λ _, Ok (js "{}");
  JSON_parse := λ _, Ok (VObject ());
  StringToNumber := λ s, Finite s;
  Number_toString := decimal;
  randomBytes := λ n k, replicate k (byte_of_Z (Z.of_nat n + 17));
  cipher := xor_cipher;
  decipher := xor_decipher
|}.

(** [new Cache()] with [CACHE_HASH_KEY_INITALIZER=5381]. *)
Definition fresh : cache :=
  match new_Cache (Some 5381) with
  | Ok c => c
  | Throw _ => {| cw := empty_world None;
                  writeQueue := ProcessQueue.mk (Queue.mk 0 [] 0 0 0) false None |}
  end.

(** A call of the program on the cache, its result dropped, and the
    micro-tasks that it leaves, run until none is queued. *)
Definition call {X} (m : M X) (c : cache) : cache := (lift_world m c).2.

Definition drained {X} (m : M X) (c : cache) : cache :=
  run_microtasks 3 (call m c).

(** Two keys of one bucket: they differ by a space, which the hash
    skips. *)
Definition key_A : jsstring := js "a b".
Definition key_B : jsstring := js "ab".

(** [await cache.write("a b", 1)], then [await cache.write("ab", 2)]. *)
Definition wrote_A : cache :=
  drained (write key_A (VNumber (Int 1)) ExpNever false) fresh.

Definition wrote_A_then_B : cache :=
  drained (write key_B (VNumber (Int 2)) ExpNever false) wrote_A.

(** The key of the new cache, the first 32 bytes drawn, and what the
    cipher makes of a string under that key and the next 16 bytes drawn
    as initialization vector. *)
Definition first_key : list Byte.byte := randomBytes 0 32.

Definition encrypted (s : jsstring) : list Byte.byte :=
  match xor_cipher first_key (randomBytes 1 16) s with
  | Ok ct => ct
  | Throw _ => []
  end.

(** The entry that [wrote_A] holds. *)
Definition entry_A : entry :=
  {| value_of := VNumber (Int 1); expiresOn := ExpNever; isObfusacated := false;
     type := js "number"; checksum := createCheckSum key_A |}.

(** A cache in the middle of a drain pass, with as many jobs waiting as
    the queue takes, on which [write("k", 1)] was just called. *)
Definition idle_job : ProcessQueue.item world (value object) :=
  {| ProcessQueue.function := λ w, ProcessQueue.Returns VUndefined w;
     ProcessQueue.callback := None |}.

Definition crowded : cache :=
  {| cw := cw (call (write (js "k") (VNumber (Int 1)) ExpNever false) fresh);
     writeQueue :=
       ProcessQueue.mk (Queue.mk 5000 (replicate 5000 (Some idle_job)) 0 4999 5000)
         true (Some (ProcessQueue.AwaitItem (inl VUndefined) None)) |}.

(** [new Cache()] in a process whose environment has no
    [CACHE_HASH_KEY_INITALIZER]. *)
Definition unseeded : cache :=
  match new_Cache None with
  | Ok c => c
  | Throw _ => fresh
  end.

End Toy.

(** ** A platform with an object that cannot be serialized

    The platform above, with two objects: [false] is [{}], and [true] is an
    object that refers to itself, for which [JSON.stringify] throws. *)

Module Circular.

Definition platform : Platform := {|
  object := bool;
  JSON_stringify := λ v,
    match v with
    | VObject true => Throw (TypeError "Converting circular structure to JSON")
    | _ => Ok (js "{}")
    end;
  JSON_parse := λ _, Ok (VObject false);
  StringToNumber := λ s, Finite s;
  Number_toString := decimal;
  randomBytes := λ n k, replicate k (Toy.byte_of_Z (Z.of_nat n + 17));
  cipher := Toy.xor_cipher;
  decipher := Toy.xor_decipher
|}.


(** [new Cache()] with [CACHE_HASH_KEY_INITALIZER=5381]. *)
Definition fresh : @cache platform :=
  match @new_Cache platform (Some 5381) with
  | Ok c => c
  | Throw _ => {| cw := empty_world None;
                  writeQueue := ProcessQueue.mk (Queue.mk 0 [] 0 0 0) false None |}
  end.

End Circular.

(** ** Business days: [calcBusinessDaysInBetween] and
    [calcBusinessDaydueDate] of [util/common.js]

    A [Date] object holds a time value: the milliseconds since the epoch,
    an integer of absolute value at most 8.64e15, or NaN for an invalid
    date. The methods that the two functions call are those of ECMAScript:
    [Day(t)] is the floor of [t / msPerDay], the day of the week of [t] is
    [(Day(t) + 4) mod 7] with 0 for Sunday, [TimeClip] turns a time value
    out of range into NaN, [setUTCHours(0, 0, 0, 0)] keeps the day and
    clears the time within it, and [setUTCDate(getUTCDate() + 1)] moves to
    the same time of the next day, the day of the month overflowing into
    the next month. The two loops take fuel: the number of turns they are
    allowed. *)

Module BusinessDays.

Definition msPerDay : Z := 86400000.

Definition maxTime : Z := 8640000000000000.

(** The time value of a [Date]; [None] is NaN. *)
Definition date : Type := option Z.

Definition TimeClip (t : Z) : date :=
  if Z.abs t <=? maxTime then Some t else None.

Definition Day (t : Z) : Z := t / msPerDay.

(** [d.setUTCHours(0, 0, 0, 0)] *)
Definition setUTCHours_midnight (d : date) : date :=
  match d with
  | Some t => TimeClip (Day t * msPerDay)
  | None => None
  end.

(** [d.getUTCDay()]; [None] is NaN. *)
Definition getUTCDay (d : date) : option Z :=
  match d with
  | Some t => Some ((Day t + 4) mod 7)
  | None => None
  end.

(** [d.setUTCDate(d.getUTCDate() + 1)] *)
Definition setUTCDate_next (d : date) : date :=
  match d with
  | Some t => TimeClip (t + msPerDay)
  | None => None
  end.

(** [dayOfWeek !== 0 && dayOfWeek !== 6]: NaN differs from both. *)
Definition not_weekend (dayOfWeek : option Z) : bool :=
  match dayOfWeek with
  | Some k => negb (k =? 0) && negb (k =? 6)
  | None => true
  end.

(** [a < b] on two dates: false as soon as one of them is invalid. *)
Definition date_lt (a b : date) : bool :=
  match a, b with
  | Some x, Some y => x <? y
  | _, _ => false
  end.

(** The loop of [calcBusinessDaysInBetween]. *)
Fixpoint between_loop (fuel : nat) (currDate endDate : date) (_bDays : Z)
  : option Z :=
  if date_lt currDate endDate then
    match fuel with
    | O => None
    | S fuel' =>
        let _bDays' :=
          if not_weekend (getUTCDay currDate) then _bDays + 1 else _bDays in
        between_loop fuel' (setUTCDate_next currDate) endDate _bDays'
    end
  else Some _bDays.

(** [calcBusinessDaysInBetween(startDate, endDate)]: what it returns or
    throws, and the time value of the caller's [endDate] afterwards.
    [toISOString] throws a RangeError on an invalid date; on a valid one
    [new Date(startDate.toISOString())] is a copy with the same time
    value. *)
Definition calcBusinessDaysInBetween (fuel : nat) (startDate endDate : date)
  : option (result Z * date) :=
  match startDate with
  | None => Some (Throw (RangeError "Invalid time value"), endDate)
  | Some _ =>
      let currDate := setUTCHours_midnight startDate in
      let endDate' := setUTCHours_midnight endDate in
      match between_loop fuel currDate endDate' 0 with
      | Some _bDays => Some (Ok _bDays, endDate')
      | None => None
      end
  end.

(** The loop of [calcBusinessDaydueDate]; [while (numberOfDays)] goes on
    as long as the number is not zero. *)
Fixpoint due_loop (fuel : nat) (dueDate : date) (numberOfDays : Z)
  : option date :=
  if numberOfDays =? 0 then Some dueDate
  else
    match fuel with
    | O => None
    | S fuel' =>
        let dueDate' := setUTCDate_next dueDate in
        let numberOfDays' :=
          if not_weekend (getUTCDay dueDate') then numberOfDays - 1
          else numberOfDays in
        due_loop fuel' dueDate' numberOfDays'
    end.

(** [calcBusinessDaydueDate(startDate, numberOfDays)] for a [Date] and an
    integer: [new Date(startDate)] is a copy with the same time value. *)
Definition calcBusinessDaydueDate (fuel : nat) (startDate : date)
    (numberOfDays : Z) : option date :=
  due_loop fuel (setUTCHours_midnight startDate) numberOfDays.

(** *** Days *)

(** Day [d], counted from the epoch, is none of Saturday and Sunday. *)
Definition business (d : Z) : bool := not_weekend (Some ((d + 4) mod 7)).

(** The number of business days among the days [a], ..., [b - 1]. *)
Definition business_days (a b : Z) : Z :=
  Z.of_nat (length (filter (λ d, business d = true) (seqZ a (b - a)))).

(** UTC midnight of day [d]. *)
Definition midnight (d : Z) : date := Some (d * msPerDay).

(** The time value [t] is one that a [Date] can hold. *)
Definition valid (t : Z) : Prop := Z.abs t <= maxTime.

(** The last day that a [Date] can hold. *)
Definition maxDay : Z := 100000000.

End BusinessDays.

(** * Properties

    ** The bounded queue *)

Section QueueFacts.
Context {A : Type} (undefined : A).
Implicit Types (q : Queue.t A) (x : A) (l : list A).

Abbreviation array_get := (Queue.array_get undefined).
Abbreviation array_set := (Queue.array_set undefined).
Abbreviation contents := (Queue.contents undefined).
Abbreviation enqueue := (@Queue.enqueue A undefined).
Abbreviation dequeue := (@Queue.dequeue A undefined).
Abbreviation peek := (@Queue.peek A undefined).

Lemma mod_window_inj C a b :
  0 < C → 0 <= a - b < C → a mod C = b mod C → a = b.
Proof.
  intros HC Hab Hmod.
  pose proof (Z.div_mod a C ltac:(lia)) as Ha.
  pose proof (Z.div_mod b C ltac:(lia)) as Hb.
  assert (a - b = C * (a / C - b / C)) as Hd by lia.
  assert (a / C - b / C = 0) by nia. lia.
Qed.

Lemma array_get_set_eq l i x :
  0 <= i < Z.of_nat (length l) → array_get (array_set l i x) i = x.
Proof.
  intros Hi. unfold Queue.array_get, Queue.array_set.
  destruct (Z.ltb_spec i 0) as [|_]; [lia|].
  destruct (Nat.ltb_spec (Z.to_nat i) (length l)) as [Hlt|]; [|lia].
  by rewrite list_lookup_insert_eq.
Qed.

Lemma array_get_set_ne l i j x :
  0 <= i < Z.of_nat (length l) → i ≠ j →
  array_get (array_set l i x) j = array_get l j.
Proof.
  intros Hi Hne. unfold Queue.array_get, Queue.array_set.
  destruct (Z.ltb_spec i 0) as [|_]; [lia|].
  destruct (Nat.ltb_spec (Z.to_nat i) (length l)) as [Hlt|]; [|lia].
  destruct (Z.ltb_spec j 0) as [|Hj]; [done|].
  rewrite list_lookup_insert_ne; [done|lia].
Qed.

Lemma array_set_length l i x :
  0 <= i < Z.of_nat (length l) → length (array_set l i x) = length l.
Proof.
  intros Hi. unfold Queue.array_set.
  destruct (Z.ltb_spec i 0) as [|_]; [lia|].
  destruct (Nat.ltb_spec (Z.to_nat i) (length l)) as [Hlt|]; [|lia].
  apply length_insert.
Qed.

Lemma contents_length q : 0 <= Queue.size q → Z.of_nat (length (contents q)) = Queue.size q.
Proof.
  intros. unfold Queue.contents. rewrite length_fmap, length_seqZ. lia.
Qed.

Lemma new_ok C :
  0 <= C < 2 ^ 32 →
  ∃ q, Queue.new undefined C = Ok q ∧ Queue.wf q ∧ contents q = []
       ∧ Queue.capacity q = C ∧ Queue.size q = 0.
Proof.
  intros HC. unfold Queue.new.
  destruct (Z.leb_spec 0 C); [|lia]. destruct (Z.ltb_spec C (2 ^ 32)); [|lia].
  simpl. eexists; split; [done|]. split; [|done].
  constructor; simpl.
  - rewrite length_replicate. lia.
  - lia.
  - lia.
  - intros HC0. replace (0 + 0 - 1) with (-1) by lia.
    apply Z.mod_unique with (q := -1); lia.
Qed.

Lemma new_fails C : ¬ (0 <= C < 2 ^ 32) → is_ok (Queue.new undefined C) = false.
Proof.
  intros HC. unfold Queue.new.
  destruct (Z.leb_spec 0 C); destruct (Z.ltb_spec C (2 ^ 32)); simpl; try done; lia.
Qed.

Lemma enqueue_full q x :
  Queue.size q = Queue.capacity q → enqueue x q = Throw (Error "Queue is full").
Proof.
  intros H. unfold Queue.enqueue, Queue.isFull. by rewrite H, Z.eqb_refl.
Qed.

Lemma enqueue_ok q x :
  Queue.wf q → Queue.size q ≠ Queue.capacity q →
  ∃ q', enqueue x q = Ok q' ∧ Queue.wf q' ∧ contents q' = contents q ++ [x]
        ∧ Queue.size q' = Queue.size q + 1 ∧ Queue.capacity q' = Queue.capacity q.
Proof.
  intros [Hlen Hsz Hfr Hre] Hne.
  unfold Queue.enqueue, Queue.isFull.
  destruct (Z.eqb_spec (Queue.size q) (Queue.capacity q)) as [|_]; [done|].
  set (C := Queue.capacity q) in *.
  assert (0 < C) as HC by lia.
  destruct Hfr as [Hfr|[? _]]; [|lia].
  specialize (Hre HC).
  assert (Z.rem (Queue.rear q + 1) C = (Queue.front q + Queue.size q) mod C) as Hrear.
  { rewrite Z.rem_mod_nonneg; [|rewrite Hre; pose proof (Z.mod_pos_bound (Queue.front q + Queue.size q - 1) C HC); lia|done].
    rewrite Hre, Zplus_mod_idemp_l. f_equal. lia. }
  pose proof (Z.mod_pos_bound (Queue.front q + Queue.size q) C HC) as Hb.
  eexists; split; [done|]. split; [|split; [|done]].
  - constructor; simpl; fold C.
    + rewrite array_set_length; [done|lia].
    + lia.
    + by left.
    + intros _. rewrite Hrear. f_equal. lia.
  - unfold Queue.contents; simpl; fold C. rewrite Hrear.
    rewrite seqZ_app by lia. rewrite fmap_app. f_equal.
    + apply Forall_fmap_ext, Forall_seqZ. intros k Hk.
      apply array_get_set_ne; [lia|].
      intros Heq. apply mod_window_inj in Heq; lia.
    + rewrite seqZ_cons, seqZ_nil by lia. simpl.
      f_equal. rewrite Z.add_0_l. apply array_get_set_eq. lia.
Qed.

Lemma dequeue_empty q :
  Queue.size q = 0 → dequeue q = Throw (Error "Queue is empty").
Proof.
  intros H. unfold Queue.dequeue, Queue.isEmpty. by rewrite H.
Qed.

Lemma peek_empty q :
  Queue.size q = 0 → peek q = Throw (Error "Queue is empty").
Proof.
  intros H. unfold Queue.peek, Queue.isEmpty. by rewrite H.
Qed.

Lemma contents_head q :
  Queue.wf q → Queue.size q ≠ 0 →
  ∃ l', contents q = array_get (Queue.items q) (Queue.front q) :: l'.
Proof.
  intros [Hlen Hsz Hfr Hre] Hne. unfold Queue.contents.
  rewrite seqZ_cons by lia. simpl. eexists. f_equal.
  rewrite Z.add_0_r. f_equal. apply Z.mod_small. lia.
Qed.

Lemma peek_ok q :
  Queue.wf q → Queue.size q ≠ 0 →
  ∃ x l', peek q = Ok x ∧ contents q = x :: l'.
Proof.
  intros Hwf Hne. destruct (contents_head q Hwf Hne) as [l' Hl'].
  unfold Queue.peek, Queue.isEmpty.
  destruct (Z.eqb_spec (Queue.size q) 0) as [|_]; [done|]. eauto.
Qed.

Lemma dequeue_ok q :
  Queue.wf q → Queue.size q ≠ 0 →
  ∃ x q', dequeue q = Ok (x, q') ∧ Queue.wf q' ∧ contents q = x :: contents q'
          ∧ Queue.size q' = Queue.size q - 1 ∧ Queue.capacity q' = Queue.capacity q.
Proof.
  intros [Hlen Hsz Hfr Hre] Hne.
  unfold Queue.dequeue, Queue.isEmpty.
  destruct (Z.eqb_spec (Queue.size q) 0) as [|_]; [done|].
  set (C := Queue.capacity q) in *.
  assert (0 < C) as HC by lia.
  destruct Hfr as [Hfr|[? _]]; [|lia].
  specialize (Hre HC).
  assert (Z.rem (Queue.front q + 1) C = (Queue.front q + 1) mod C) as Hfront
    by (apply Z.rem_mod_nonneg; lia).
  pose proof (Z.mod_pos_bound (Queue.front q + 1) C HC) as Hb.
  do 2 eexists; split; [done|]. split; [|split; [|done]].
  - constructor; simpl; fold C.
    + rewrite array_set_length; [done|lia].
    + lia.
    + left. lia.
    + intros _. rewrite Hre, Hfront.
      replace ((Queue.front q + 1) mod C + (Queue.size q - 1) - 1)
        with ((Queue.front q + 1) mod C + (Queue.size q - 2)) by lia.
      rewrite Zplus_mod_idemp_l. f_equal. lia.
  - unfold Queue.contents; simpl; fold C. rewrite Hfront.
    rewrite (seqZ_cons 0 (Queue.size q)) by lia. simpl. f_equal.
    + rewrite Z.add_0_r. f_equal. apply Z.mod_small. lia.
    + rewrite <- (fmap_add_seqZ 1 0), <- list_fmap_compose.
      replace (Z.pred (Queue.size q)) with (Queue.size q - 1) by lia.
      apply Forall_fmap_ext, Forall_seqZ. intros k Hk. simpl.
      rewrite Zplus_mod_idemp_l.
      replace (Queue.front q + 1 + k) with (Queue.front q + (1 + k)) by lia.
      symmetry. apply array_get_set_ne; [lia|].
      intros Heq. rewrite <- (Z.mod_small (Queue.front q) C) in Heq at 1 by lia.
      symmetry in Heq. apply mod_window_inj in Heq; lia.
Qed.


Lemma holds_size C q l : holds undefined C q l → Queue.size q = Z.of_nat (length l).
Proof.
  intros (Hwf & <- & _). symmetry. apply contents_length. apply Hwf.
Qed.

Lemma run_refines C ops :
  ∀ q l, holds undefined C q l →
    (Queue.run undefined ops q).1 = (Queue.spec_run C ops l).1
    ∧ holds undefined C (Queue.run undefined ops q).2 (Queue.spec_run C ops l).2.
Proof.
  induction ops as [|o ops IH]; intros q l Hq; [done|].
  pose proof (holds_size _ _ _ Hq) as Hsz.
  destruct Hq as (Hwf & Hc & HC).
  destruct o as [x| |]; simpl.
  - unfold Queue.spec_enqueue. rewrite <- Hsz.
    destruct (Z.eqb_spec (Queue.size q) C) as [Hfull|Hnf].
    + rewrite enqueue_full by congruence.
      destruct (IH q l) as [IH1 IH2]; [done|].
      destruct (Queue.run undefined ops q), (Queue.spec_run C ops l).
      simpl in *. by subst.
    + destruct (enqueue_ok q x Hwf) as (q' & -> & Hwf' & Hc' & Hs' & HC');
        [congruence|].
      destruct (IH q' (l ++ [x])) as [IH1 IH2].
      { split; [done|]. split; congruence. }
      destruct (Queue.run undefined ops q'), (Queue.spec_run C ops (l ++ [x])).
      simpl in *. subst. split; [|done]. f_equal. f_equal.
      rewrite Hs', Hsz, length_app. simpl. lia.
  - destruct (Z.eqb_spec (Queue.size q) 0) as [Hemp|Hne].
    + rewrite dequeue_empty by done.
      assert (l = []) as -> by (destruct l; [done|simpl in Hsz; lia]). simpl.
      destruct (IH q []) as [IH1 IH2]; [done|].
      destruct (Queue.run undefined ops q), (Queue.spec_run C ops []).
      simpl in *. by subst.
    + destruct (dequeue_ok q Hwf Hne) as (x & q' & -> & Hwf' & Hc' & Hs' & HC').
      rewrite Hc' in Hc. subst l. simpl.
      destruct (IH q' (contents q')) as [IH1 IH2].
      { split; [done|]. split; congruence. }
      destruct (Queue.run undefined ops q'), (Queue.spec_run C ops (contents q')).
      simpl in *. subst. split; [|done]. f_equal. f_equal.
      symmetry. apply contents_length. apply Hwf'.
  - destruct (Z.eqb_spec (Queue.size q) 0) as [Hemp|Hne].
    + rewrite peek_empty by done.
      assert (l = []) as -> by (destruct l; [done|simpl in Hsz; lia]). simpl.
      destruct (IH q []) as [IH1 IH2]; [done|].
      destruct (Queue.run undefined ops q), (Queue.spec_run C ops []).
      simpl in *. by subst.
    + destruct (peek_ok q Hwf Hne) as (x & l' & -> & Hl').
      rewrite Hl' in Hc. subst l. simpl.
      destruct (IH q (x :: l')) as [IH1 IH2]; [done|].
      destruct (Queue.run undefined ops q), (Queue.spec_run C ops (x :: l')).
      simpl in *. subst. split; [|done]. f_equal. f_equal. done.
Qed.

Lemma spec_run_fill C xs l :
  Z.of_nat (length l + length xs) <= C →
  (Queue.spec_run C (Queue.Enqueue <$> xs) l).2 = l ++ xs
  ∧ Forall (λ o, ∃ n, o = Queue.Enqueued n) (Queue.spec_run C (Queue.Enqueue <$> xs) l).1.
Proof.
  revert l. induction xs as [|x xs IH]; intros l Hlen.
  - simpl. by rewrite app_nil_r.
  - rewrite fmap_cons. cbn [Queue.spec_run]. unfold Queue.spec_enqueue.
    simpl in Hlen.
    destruct (Z.eqb_spec (Z.of_nat (length l)) C) as [|_]; [lia|].
    destruct (IH (l ++ [x])) as [IH1 IH2]; [rewrite length_app; simpl; lia|].
    destruct (Queue.spec_run C (Queue.Enqueue <$> xs) (l ++ [x])). simpl in *.
    subst. split; [by rewrite <- app_assoc|]. constructor; eauto.
Qed.

End QueueFacts.

(** C8. A queue built with capacity [C] is a bounded FIFO. Every state [q]
    reached from [new Queue(C)] holds a list [contents q] of [size q] items,
    oldest first, and there: [enqueue] throws "Queue is full" when
    [size q = C] and otherwise appends the item and adds one to the size;
    [dequeue] and [peek] throw "Queue is empty" when [size q = 0], and
    otherwise [peek] returns the oldest item and [dequeue] returns it,
    removes it and takes one from the size. What a client observes of any
    sequence of operations is what the bounded list of the specification
    shows; and after [C] enqueues without a dequeue, all accepted, one more
    enqueue throws "Queue is full". *)
Theorem bounded_fifo_queue_contract {A : Type} (undefined : A) (C : Z) :
  0 <= C < 2 ^ 32 →
  ∃ q0, Queue.new undefined C = Ok q0 ∧ Queue.contents undefined q0 = [] ∧
    (∀ ops, (Queue.run undefined ops q0).1 = (Queue.spec_run C ops []).1) ∧
    (∀ ops q, q = (Queue.run undefined ops q0).2 →
       Queue.capacity q = C
       ∧ Z.of_nat (length (Queue.contents undefined q)) = Queue.size q
       ∧ (∀ x, if Queue.size q =? C
               then Queue.enqueue undefined x q = Throw (Error "Queue is full")
               else ∃ q', Queue.enqueue undefined x q = Ok q'
                      ∧ Queue.contents undefined q' = Queue.contents undefined q ++ [x]
                      ∧ Queue.size q' = Queue.size q + 1)
       ∧ (if Queue.size q =? 0
          then Queue.dequeue undefined q = Throw (Error "Queue is empty")
               ∧ Queue.peek undefined q = Throw (Error "Queue is empty")
          else ∃ x q', Queue.dequeue undefined q = Ok (x, q')
                 ∧ Queue.peek undefined q = Ok x
                 ∧ Queue.contents undefined q = x :: Queue.contents undefined q'
                 ∧ Queue.size q' = Queue.size q - 1)) ∧
    (∀ xs y, Z.of_nat (length xs) = C →
       Forall (λ o, ∃ n, o = Queue.Enqueued n)
              (Queue.run undefined (Queue.Enqueue <$> xs) q0).1
       ∧ Queue.enqueue undefined y (Queue.run undefined (Queue.Enqueue <$> xs) q0).2
         = Throw (Error "Queue is full")).
Proof.
  intros HC.
  destruct (new_ok undefined C HC) as (q0 & Hnew & Hwf & Hc & Hcap & Hsz).
  assert (holds undefined C q0 []) as H0 by done.
  exists q0. split; [done|]. split; [done|]. split; [|split].
  - intros ops. apply (run_refines undefined C ops q0 [] H0).
  - intros ops q ->.
    destruct (run_refines undefined C ops q0 [] H0) as [_ Hq].
    set (q := (Queue.run undefined ops q0).2) in *.
    pose proof (holds_size _ _ _ _ Hq) as Hsize.
    destruct Hq as (Hwfq & Hcq & HCq).
    split; [done|]. split; [rewrite Hcq; lia|]. split.
    + intros x. destruct (Z.eqb_spec (Queue.size q) C) as [Hfull|Hnf].
      * apply enqueue_full. congruence.
      * destruct (enqueue_ok undefined q x Hwfq) as (q' & ? & _ & ? & ? & _);
          [congruence|]. eauto.
    + destruct (Z.eqb_spec (Queue.size q) 0) as [Hemp|Hne].
      * split; [by apply dequeue_empty|by apply peek_empty].
      * destruct (dequeue_ok undefined q Hwfq Hne) as (x & q' & Hd & _ & Hcs & Hs & _).
        destruct (peek_ok undefined q Hwfq Hne) as (x' & l' & Hp & Hl').
        exists x, q'. rewrite Hcs in Hl'. injection Hl' as -> _. done.
  - intros xs y Hlen.
    destruct (run_refines undefined C (Queue.Enqueue <$> xs) q0 [] H0) as [Hobs Hq].
    destruct (spec_run_fill C xs []) as [Hfin Hall]; [simpl; lia|].
    split; [by rewrite Hobs|].
    apply enqueue_full.
    rewrite (holds_size _ _ _ _ Hq), Hfin. simpl.
    destruct Hq as (_ & _ & ->). done.
Qed.

Lemma bounded_fifo_queue_contract_witness :
  0 <= 3 < 2 ^ 32 ∧
  ∃ q0, Queue.new 0%nat 3 = Ok q0 ∧
    (Queue.run 0%nat [Queue.Enqueue 7%nat; Queue.Enqueue 8%nat; Queue.Dequeue;
                      Queue.Enqueue 9%nat; Queue.Enqueue 10%nat; Queue.Enqueue 11%nat;
                      Queue.Peek; Queue.Dequeue] q0).1
    = [Queue.Enqueued 1; Queue.Enqueued 2; Queue.Got 7%nat 1; Queue.Enqueued 2;
       Queue.Enqueued 3; Queue.Failed (Error "Queue is full");
       Queue.Got 8%nat 3; Queue.Got 8%nat 2].
Proof.
  split; [lia|].
  destruct (bounded_fifo_queue_contract 0%nat 3 ltac:(lia)) as (q0 & Hnew & _ & Hobs & _).
  exists q0. split; [exact Hnew|]. rewrite Hobs. reflexivity.
Defined.

(** ** The write serializer *)

Section ProcessQueueFacts.
Context {W R : Type}.
Context (console_error : string → exn → W → W) (schedule_resume : W → W).
Implicit Types (s : ProcessQueue.t W R) (w : W).

Abbreviation loop := (ProcessQueue.loop console_error schedule_resume).

End ProcessQueueFacts.

Section ProcessQueueIdle.
Context {W R : Type}.
Context (console_error : string → exn → W → W) (schedule_resume : W → W).
Implicit Types (s : ProcessQueue.t W R) (w : W).


(** [enqueue] on an idle queue runs the job at once, inside the call. *)
Lemma enqueue_idle s w f :
  idle s →
  ∃ q', Queue.wf q' ∧ Queue.size q' = 0
    ∧ Queue.capacity q' = Queue.capacity (ProcessQueue.queue s)
    ∧ ProcessQueue.enqueue console_error schedule_resume f None s w =
        Ok (match f w with
            | ProcessQueue.Returns r w' =>
                (ProcessQueue.mk q' true (Some (ProcessQueue.AwaitItem (inl r) None)),
                 schedule_resume w')
            | ProcessQueue.Throws e w' =>
                (ProcessQueue.mk q' false None,
                 console_error "[PROCESS_QUEUE][ERROR] Error during completing current process queue:" e w')
            | ProcessQueue.Rejects e w' =>
                (ProcessQueue.mk q' true (Some (ProcessQueue.AwaitItem (inr e) None)),
                 schedule_resume w')
            end).
Proof.
  intros (Hex & Hsus & Hwf & Hsz & Hcap).
  set (it := Some {| ProcessQueue.function := f; ProcessQueue.callback := None |}).
  destruct (enqueue_ok None (ProcessQueue.queue s) it Hwf) as (q1 & Hen & Hwf1 & Hc1 & Hs1 & Hcap1);
    [lia|].
  assert (Queue.size q1 ≠ 0) as Hne1 by lia.
  destruct (dequeue_ok None q1 Hwf1 Hne1) as (x & q2 & Hde & Hwf2 & Hc2 & Hs2 & Hcap2).
  assert (Queue.contents None (ProcessQueue.queue s) = []) as Hnil.
  { unfold Queue.contents. by rewrite Hsz. }
  rewrite Hc1, Hnil in Hc2. simpl in Hc2. injection Hc2 as <- Hrest.
  exists q2. split; [done|]. split; [lia|]. split; [congruence|].
  unfold ProcessQueue.enqueue. fold it. rewrite Hen. simpl. rewrite Hex.
  unfold ProcessQueue.execute. simpl. rewrite Hex.
  unfold Queue.isEmpty at 1.
  destruct (Z.eqb_spec (Queue.size q1) 0) as [|_]; [done|]. simpl.
  unfold ProcessQueue.loop. simpl. unfold Queue.isEmpty.
  destruct (Z.eqb_spec (Queue.size q1) 0) as [|_]; [done|].
  rewrite Hde. simpl. by destruct (f w).
Qed.

(** The loop resumes on an empty queue: the pass is over. *)
Lemma resume_empty q r w :
  Queue.size q = 0 →
  ProcessQueue.resume console_error schedule_resume
    (ProcessQueue.mk q true (Some (ProcessQueue.AwaitItem (inl r) None))) w
  = (ProcessQueue.mk (W:=W) (R:=R) q false None, w).
Proof.
  intros Hsz. unfold ProcessQueue.resume, ProcessQueue.loop, Queue.isEmpty. simpl.
  by rewrite Hsz.
Qed.
End ProcessQueueIdle.

Section ProcessQueuePass.
Context {W R : Type}.
Context (console_error : string → exn → W → W) (schedule_resume : W → W).
Implicit Types (s : ProcessQueue.t W R) (w : W).

(** The loop takes the job at the front, which returns. *)
Lemma loop_returns s w it rest r w' :
  Queue.wf (ProcessQueue.queue s) →
  ProcessQueue.pending s = Some it :: rest →
  ProcessQueue.function it w = ProcessQueue.Returns r w' →
  ∃ q', ProcessQueue.loop console_error schedule_resume s w =
          (ProcessQueue.mk q' (ProcessQueue.isExecuting s)
             (Some (ProcessQueue.AwaitItem (inl r) (ProcessQueue.callback it))),
           schedule_resume w')
    ∧ Queue.wf q'
    ∧ Queue.contents None q' = rest
    ∧ Queue.size q' = Queue.size (ProcessQueue.queue s) - 1
    ∧ Queue.capacity q' = Queue.capacity (ProcessQueue.queue s).
Proof.
  intros Hwf Hpend Hret. unfold ProcessQueue.pending in Hpend.
  assert (Queue.size (ProcessQueue.queue s) ≠ 0) as Hne.
  { intros Hz. unfold Queue.contents in Hpend. rewrite Hz in Hpend. done. }
  destruct (dequeue_ok None _ Hwf Hne) as (x & q' & Hd & Hwf' & Hc & Hsz & Hcap).
  rewrite Hpend in Hc. injection Hc as <- Hrest.
  unfold ProcessQueue.loop, Queue.isEmpty.
  destruct (Z.eqb_spec (Queue.size (ProcessQueue.queue s)) 0) as [|_]; [done|].
  rewrite Hd, Hret. exists q'. done.
Qed.

(** The loop finds the queue empty. *)
Lemma loop_empty s w :
  Queue.size (ProcessQueue.queue s) = 0 →
  ProcessQueue.loop console_error schedule_resume s w
  = (ProcessQueue.mk (ProcessQueue.queue s) false None, w).
Proof.
  intros Hz. unfold ProcessQueue.loop, Queue.isEmpty. by rewrite Hz.
Qed.




End ProcessQueuePass.

(** ** Strings, buffers and the functions of the cache *)

Lemma str_eqb_spec (a b : jsstring) : str_eqb a b = true ↔ a = b.
Proof.
  revert b. induction a as [|x a IH]; intros [|y b]; simpl; try done.
  rewrite andb_true_iff, Z.eqb_eq, IH. split; [intros [-> ->]; done|].
  intros [= -> ->]. done.
Qed.

Lemma str_eqb_false (a b : jsstring) : str_eqb a b = false ↔ a ≠ b.
Proof.
  rewrite <- str_eqb_spec. destruct (str_eqb a b); split; congruence.
Qed.

Section MapFacts.
Implicit Types (m : list (Z * nat)) (k : Z) (l : nat).

Lemma map_get_delete_eq k m : map_get k (map_delete k m) = None.
Proof.
  unfold map_get, map_delete. induction m as [|[k' l'] m IH]; [done|].
  simpl. destruct (Z.eqb_spec k' k) as [->|Hne]; simpl; [done|].
  destruct (Z.eqb_spec k' k); [done|]. done.
Qed.

Lemma map_has_delete_eq k m : map_has k (map_delete k m) = false.
Proof. unfold map_has. by rewrite map_get_delete_eq. Qed.

Lemma map_get_set_eq k l m : map_get k (map_set k l m) = Some l.
Proof.
  unfold map_set, map_has.
  destruct (map_get k m) as [l0|] eqn:Hg.
  - unfold map_get in *. induction m as [|[k' l'] m IH]; [done|].
    simpl in *. destruct (Z.eqb_spec k' k) as [->|Hne]; simpl.
    + by rewrite Z.eqb_refl.
    + destruct (Z.eqb_spec k' k); [done|]. auto.
  - unfold map_get in *. induction m as [|[k' l'] m IH]; simpl.
    + by rewrite Z.eqb_refl.
    + simpl in Hg. destruct (Z.eqb_spec k' k); [done|]. auto.
Qed.

Lemma map_has_set_eq k l m : map_has k (map_set k l m) = true.
Proof. unfold map_has. by rewrite map_get_set_eq. Qed.
End MapFacts.

Section StringFacts.
Implicit Types (s a b : jsstring).

Lemma split_no_sep sep a : sep ∉ a → split sep a = [a].
Proof.
  induction a as [|c a IH]; intros Hin; [done|]. simpl.
  apply not_elem_of_cons in Hin as [Hc Ha].
  destruct (Z.eqb_spec c sep); [congruence|]. by rewrite IH.
Qed.

Lemma split_app_sep sep a rest :
  sep ∉ a → split sep (a ++ sep :: rest) = a :: split sep rest.
Proof.
  induction a as [|c a IH]; intros Hin; simpl.
  - by rewrite Z.eqb_refl.
  - apply not_elem_of_cons in Hin as [Hc Ha].
    destruct (Z.eqb_spec c sep); [congruence|]. by rewrite IH.
Qed.

Lemma hex_digit_spec n :
  0 <= n < 16 → hex_digit n ≠ colon ∧ hex_value (hex_digit n) = Some n.
Proof.
  intros Hn. unfold hex_digit, hex_value, colon.
  destruct (Z.ltb_spec n 10).
  - destruct (Z.leb_spec 48 (48 + n)); [|lia].
    destruct (Z.leb_spec (48 + n) 57); [|lia]. simpl.
    split; [lia|]. f_equal. lia.
  - destruct (Z.leb_spec 48 (87 + n)); [|lia].
    destruct (Z.leb_spec (87 + n) 57); [lia|]. simpl.
    destruct (Z.leb_spec 97 (87 + n)); [|lia].
    destruct (Z.leb_spec (87 + n) 102); [|lia]. simpl.
    split; [lia|]. f_equal. lia.
Qed.

Lemma byte_to_hex_spec (x : Byte.byte) :
  ∃ h l hv lv, byte_to_hex x = [h; l] ∧ h ≠ colon ∧ l ≠ colon
    ∧ hex_value h = Some hv ∧ hex_value l = Some lv
    ∧ Byte.of_N (Z.to_N (16 * hv + lv)) = Some x.
Proof.
  unfold byte_to_hex.
  pose proof (Byte.to_N_bounded x) as Hb.
  set (n := Z.of_N (Byte.to_N x)).
  assert (0 <= n < 256) as Hn by (unfold n; lia).
  pose proof (Z.div_pos n 16 ltac:(lia) ltac:(lia)).
  pose proof (Z.div_lt_upper_bound n 16 16 ltac:(lia) ltac:(lia)).
  pose proof (Z.mod_pos_bound n 16 ltac:(lia)).
  destruct (hex_digit_spec (n / 16)) as [Hh1 Hh2]; [lia|].
  destruct (hex_digit_spec (n mod 16)) as [Hl1 Hl2]; [lia|].
  exists (hex_digit (n / 16)), (hex_digit (n mod 16)), (n / 16), (n mod 16).
  repeat split; try done.
  rewrite <- Z.div_mod by lia. unfold n. rewrite N2Z.id. apply Byte.of_to_N.
Qed.

Lemma to_hex_cons (x : Byte.byte) bs : to_hex (x :: bs) = byte_to_hex x ++ to_hex bs.
Proof. done. Qed.

Lemma to_hex_no_colon bs : colon ∉ to_hex bs.
Proof.
  induction bs as [|x bs IH]; [apply not_elem_of_nil|].
  rewrite to_hex_cons.
  destruct (byte_to_hex_spec x) as (h & l & hv & lv & -> & Hh & Hl & _).
  simpl. rewrite !not_elem_of_cons. done.
Qed.

Lemma from_hex_to_hex bs : from_hex (to_hex bs) = bs.
Proof.
  induction bs as [|x bs IH]; [done|].
  rewrite to_hex_cons.
  destruct (byte_to_hex_spec x) as (h & l & hv & lv & -> & _ & _ & Hh & Hl & Hb).
  simpl. rewrite Hh, Hl, Hb. f_equal. apply IH.
Qed.

(** The encoded form [iv:ciphertext:type] splits into its three parts. *)
Lemma split_encoded iv ct ty :
  colon ∉ ty →
  split colon (to_hex iv ++ [colon] ++ to_hex ct ++ [colon] ++ ty)
  = [to_hex iv; to_hex ct; ty].
Proof.
  intros Hty. simpl.
  rewrite split_app_sep by apply to_hex_no_colon.
  rewrite split_app_sep by apply to_hex_no_colon.
  by rewrite split_no_sep.
Qed.


Lemma digits_of_digits fuel n acc :
  ∃ ds, digits_of (S fuel) n acc = ds ++ acc ∧ ds ≠ [] ∧ Forall is_digit ds.
Proof.
  revert n acc. induction fuel as [|fuel IH]; intros n acc.
  - exists [48 + n mod 10]. simpl. split; [by destruct (n <? 10)|]. split; [done|].
    constructor; [|done]. unfold is_digit.
    pose proof (Z.mod_pos_bound n 10 ltac:(lia)). lia.
  - change (digits_of (S (S fuel)) n acc)
      with (if n <? 10 then (48 + n mod 10) :: acc
            else digits_of (S fuel) (n / 10) ((48 + n mod 10) :: acc)).
    assert (is_digit (48 + n mod 10)) as Hd.
    { unfold is_digit. pose proof (Z.mod_pos_bound n 10 ltac:(lia)). lia. }
    destruct (n <? 10).
    + exists [48 + n mod 10]. split; [done|]. split; [done|]. by constructor.
    + destruct (IH (n / 10) ((48 + n mod 10) :: acc)) as (ds & -> & Hne & Hall).
      exists (ds ++ [48 + n mod 10]). rewrite <- app_assoc. split; [done|].
      split; [by destruct ds|]. apply Forall_app. split; [done|]. by constructor.
Qed.

Lemma parse_digits_digits ds acc :
  Forall is_digit ds → ∃ z, parse_digits ds acc = Some z.
Proof.
  revert acc. induction ds as [|c ds IH]; intros acc Hall; simpl; [eauto|].
  apply Forall_cons in Hall as [Hc Hall]. unfold is_digit in Hc.
  destruct (Z.leb_spec 48 c); [|lia]. destruct (Z.leb_spec c 57); [|lia]. simpl.
  by apply IH.
Qed.

Lemma decimal_shape z :
  ∃ ds, ds ≠ [] ∧ Forall is_digit ds
    ∧ decimal z = (if z <? 0 then 45 :: ds else ds).
Proof.
  unfold decimal. destruct (z <? 0).
  - destruct (digits_of_digits (Z.to_nat (Z.log2 (- z))) (- z) [])
      as (ds & -> & Hne & Hall). rewrite app_nil_r. eauto.
  - destruct (digits_of_digits (Z.to_nat (Z.log2 z)) z [])
      as (ds & -> & Hne & Hall). rewrite app_nil_r. eauto.
Qed.

Lemma parse_decimal_decimal z : ∃ z', parse_decimal (decimal z) = Some z'.
Proof.
  destruct (decimal_shape z) as (ds & Hne & Hall & ->).
  destruct (parse_digits_digits ds 0 Hall) as [z' Hz'].
  destruct (z <? 0).
  - simpl. destruct ds; [done|]. rewrite Hz'. simpl. eauto.
  - destruct ds as [|c ds]; [done|]. unfold parse_decimal.
    apply Forall_cons in Hall as [Hc _]. unfold is_digit in Hc.
    destruct (Z.eqb_spec c 45); [lia|]. eauto.
Qed.

Lemma decimal_is_not_true z : str_eqb (toLowerCase (decimal z)) (js "true") = false.
Proof.
  destruct (decimal_shape z) as (ds & Hne & Hall & ->).
  destruct (z <? 0); [done|].
  destruct ds as [|c ds]; [done|].
  apply Forall_cons in Hall as [Hc _]. unfold is_digit in Hc.
  change (js "true") with [116; 114; 117; 101].
  unfold toLowerCase. rewrite fmap_cons.
  destruct (Z.leb_spec 65 c); [lia|]. cbn [andb str_eqb].
  destruct (Z.eqb_spec c 116); [lia|]. done.
Qed.
End StringFacts.

Section ProgramFacts.
Context `{Platform}.
Implicit Types (w : world) (key : jsstring) (v : value object).


Lemma createHashKey_ok seed w key :
  seeded seed w →
  createHashKey key w = (Ok (hash_loop seed (remove_whitespace key)), w).
Proof.
  intros [Hs Hne]. unfold createHashKey, bind, get. rewrite Hs.
  destruct seed; done.
Qed.

Lemma createHashKey_unset w key :
  CACHE_HASH_KEY_INITALIZER w = None ∨ CACHE_HASH_KEY_INITALIZER w = Some 0 →
  createHashKey key w = (Throw (Error "Cache hash key is not set."), w).
Proof.
  intros [Hs|Hs]; unfold createHashKey, bind, get; by rewrite Hs.
Qed.

Lemma has_ok seed w key :
  seeded seed w →
  has key w = (Ok (map_has (hash_loop seed (remove_whitespace key)) (data w)), w).
Proof.
  intros Hs. unfold has, bind. by rewrite (createHashKey_ok seed).
Qed.

Lemma delete_ok seed w key :
  seeded seed w →
  delete key w =
    (Ok (map_has (hash_loop seed (remove_whitespace key)) (data w)),
     upd_data (map_delete (hash_loop seed (remove_whitespace key))) w).
Proof.
  intros Hs. unfold delete, bind. by rewrite (createHashKey_ok seed).
Qed.

(** The job of a write that meets an entry of another key. *)
Lemma write_job_collision seed w key hKey _value exp obfuscate typeOfValue l e :
  seeded seed w →
  hKey = hash_loop seed (remove_whitespace key) →
  map_get hKey (data w) = Some l →
  heap w !! l = Some e →
  checksum e ≠ createCheckSum key →
  write_job key hKey _value exp obfuscate typeOfValue w =
    (Ok (),
     upd_data (map_delete hKey)
       (upd_console (λ c, c ++ [LogWarn "[WARNING] Key collision detected. The existing cache will be deleted and the new cache will not be stored."]) w)).
Proof.
  intros Hs -> Hget Hheap Hne.
  unfold write_job, bind, validateKeyCheckSum, get, deref, bind, get.
  rewrite Hget, Hheap. simpl.
  apply str_eqb_false in Hne. rewrite Hne.
  unfold console_warn, modify.
  rewrite (delete_ok seed); [done|]. apply Hs.
Qed.


Lemma type_of_no_colon v : colon ∉ type_of v.
Proof.
  destruct v; vm_compute; intros Hin;
    repeat (apply elem_of_cons in Hin as [Hin|Hin]; [discriminate|]);
    by apply elem_of_nil in Hin.
Qed.

(** [encode] when the serialization and the cipher succeed. *)
Lemma encode_ok w v (k : list Byte.byte) s ty ct :
  fideliusCharm w = Some k →
  converttostring v = Ok (VString s, ty) →
  cipher k (randomBytes (draws w) 16) s = Ok ct →
  encode v w =
    (Ok (VString (to_hex (randomBytes (draws w) 16) ++ [colon] ++ to_hex ct ++ [colon] ++ ty)),
     upd_microtasks (λ l, l ++ [EmitterResume obfuscated]) (upd_draws S w)).
Proof.
  intros Hkey Hconv Hciph.
  unfold encode, emitter, bind, run_hooks, try_catch, lift, random_bytes, bind, get, modify, ret.
  simpl. rewrite Hconv. simpl. rewrite Hkey, Hciph. done.
Qed.

(** [decode] of an encoded string, in a world with the key [key]. *)
Lemma decode_encoded w (k : list Byte.byte) iv ct ty :
  fideliusCharm w = Some k →
  colon ∉ ty →
  decode (VString (to_hex iv ++ [colon] ++ to_hex ct ++ [colon] ++ ty)) w =
    (match decipher k iv ct with
     | Ok decrypted => toType decrypted ty
     | Throw e => Throw e
     end, w).
Proof.
  intros Hkey Hty. unfold decode. rewrite split_encoded by done.
  unfold bind, get, lift. rewrite Hkey, !from_hex_to_hex.
  by destruct (decipher k iv ct).
Qed.


(** [toType] of the decimal form of an integer, with the tag ["bigint"]:
    [BigInt] accepts the string, and control falls into the case
    ["boolean"], where the string is not ["true"]. *)
Lemma toType_bigint z : toType (decimal z) (js "bigint") = Ok (VBoolean false).
Proof.
  unfold toType, BigInt.
  change (str_eqb (js "bigint") (js "number")) with false.
  change (str_eqb (js "bigint") (js "bigint")) with true. cbv iota.
  destruct (parse_decimal_decimal z) as [z' ->].
  by rewrite decimal_is_not_true.
Qed.

End ProgramFacts.

(** ** The cache as a machine: writes and reads on a cache at rest *)

Section MicroTasks.
Context `{Platform}.
Implicit Types (c : cache).

Lemma tick_cons c t ts :
  microtasks (cw c) = t :: ts →
  tick c = Some (run_task t {| cw := upd_microtasks (λ _, ts) (cw c);
                               writeQueue := writeQueue c |}).
Proof. intros Hm. unfold tick. by rewrite Hm. Qed.

Lemma run_microtasks_cons fuel c t ts :
  microtasks (cw c) = t :: ts →
  run_microtasks (S fuel) c =
    run_microtasks fuel (run_task t {| cw := upd_microtasks (λ _, ts) (cw c);
                                      writeQueue := writeQueue c |}).
Proof. intros Hm. simpl. by rewrite (tick_cons c t ts). Qed.

Lemma run_microtasks_nil fuel c :
  microtasks (cw c) = [] → run_microtasks fuel c = c.
Proof. intros Hm. destruct fuel; [done|]. simpl. unfold tick. by rewrite Hm. Qed.

End MicroTasks.

#[local] Arguments run_microtasks : simpl never.
#[local] Arguments write_job : simpl never.
#[local] Arguments encode : simpl never.
#[local] Arguments createCheckSum : simpl never.

Section Machine.
Context `{Platform}.
Implicit Types (w : world) (c : cache) (key : jsstring) (v : value object).


(** [encode] never throws: its callback runs inside [emitter]. It queues
    the rest of [emitter] as a micro-task, unless the callback threw. *)
Lemma encode_total v w :
  ∃ val w' ts, encode v w = (Ok val, w')
    ∧ microtasks w' = microtasks w ++ ts
    ∧ (ts = [] ∨ ts = [EmitterResume obfuscated])
    ∧ same_but_encoding w w'.
Proof.
  unfold encode, emitter, bind, run_hooks, try_catch, lift, random_bytes, bind, get,
    modify, ret, throw, emitter_rest, try_catch, emit, bind, modify, run_hooks,
    console_error, queueMicrotask, modify.
  simpl.
  destruct (converttostring v) as [[sv ty]|e]; simpl.
  - destruct (fideliusCharm w) as [k|]; simpl.
    + destruct sv; simpl;
        try (do 3 eexists; split; [done|]; split; [symmetry; apply app_nil_r|];
             split; [by left|done]).
      destruct (cipher k (randomBytes (draws w) 16) s) as [ct|e]; simpl.
      * do 3 eexists. split; [done|]. split; [done|]. split; [by right|done].
      * do 3 eexists. split; [done|]. split; [symmetry; apply app_nil_r|].
        split; [by left|done].
    + do 3 eexists. split; [done|]. split; [symmetry; apply app_nil_r|].
      split; [by left|done].
  - do 3 eexists. split; [done|]. split; [symmetry; apply app_nil_r|].
    split; [by left|done].
Qed.


Lemma setUnboundedTimeout_frame cb delay w :
  same_loop_state w (setUnboundedTimeout cb delay w).2.
Proof.
  unfold same_loop_state, setUnboundedTimeout, bind, get, modify, setTimeout, bind, get, modify, ret, throw.
  repeat case_match; simplify_eq; simpl; try done.

Qed.

Lemma same_loop_state_trans w1 w2 w3 :
  same_loop_state w1 w2 → same_loop_state w2 w3 → same_loop_state w1 w3.
Proof.
  unfold same_loop_state. intros (?&?&?&?&?&?) (?&?&?&?&?&?).
  repeat split; congruence.
Qed.

Lemma runCacheCleanup_frame hKey d w :
  same_loop_state w (runCacheCleanup hKey d w).2.
Proof.
  unfold runCacheCleanup, bind, get. simpl.
  match goal with |- context [setUnboundedTimeout ?cb ?dl ?w0] =>
    pose proof (setUnboundedTimeout_frame cb dl w0) as Hf;
    destruct (setUnboundedTimeout cb dl w0) as [[?|?] ?] end; simpl in *; done.
Qed.

Lemma delete_frame key w : same_loop_state w (delete key w).2.
Proof.
  unfold delete, bind, createHashKey, bind, get, throw, ret, modify.
  destruct (CACHE_HASH_KEY_INITALIZER w) as [[| |]|]; simpl; done.
Qed.

Lemma write_job_frame key hKey _value exp obfuscate typeOfValue w :
  same_loop_state w (write_job key hKey _value exp obfuscate typeOfValue w).2.
Proof.
  unfold write_job, bind, validateKeyCheckSum, bind, get, deref, bind, get, ret, throw.
  assert (∀ w0, same_loop_state w w0 →
    same_loop_state w
      (match exp with
       | ExpNever => ret ()
       | ExpNull => ret ()
       | ExpAfter d => runCacheCleanup hKey d
       end w0).2) as Hexp.
  { intros w0 Hw0. destruct exp; try done.
    eapply same_loop_state_trans; [done|apply runCacheCleanup_frame]. }
  assert (∀ w0 (m : M unit), same_loop_state w (m w0).2 →
    same_loop_state w
      (match m w0 with (Ok x, w') => (Ok x, w') | (Throw e, w') => (Throw e, w') end).2)
    as Hid.
  { intros w0 m. by destruct (m w0) as [[?|?] ?]. }
  destruct (map_get hKey (data w)) as [l|]; [destruct (heap w !! l) as [e|]|]; simpl;
    try done.
  - destruct (str_eqb (checksum e) (createCheckSum key)); simpl.
    + unfold alloc, bind, get, modify, ret. simpl.
      match goal with |- context [match exp with _ => _ end ?w0] =>
        specialize (Hexp w0 ltac:(done)) end.
      exact Hexp.
    + unfold console_warn, modify. simpl.
      match goal with |- context [delete key ?w0] =>
        pose proof (delete_frame key w0) as Hd;
        destruct (delete key w0) as [[?|?] ?] end; simpl in *;
        (eapply same_loop_state_trans; [|exact Hd]); done.
  - unfold alloc, bind, get, modify, ret. simpl.
    match goal with |- context [match exp with _ => _ end ?w0] =>
      specialize (Hexp w0 ltac:(done)) end.
    exact Hexp.
Qed.



(** The synchronous prefix of [write] for a cachable value. *)
Lemma write_prefix seed w key v exp obfuscate :
  seeded seed w → isPaused w = false → non_cachable (type_of v) = false →
  write key v exp obfuscate w =
    (Ok (next_promise w),
     upd_microtasks
       (λ l, l ++ [Resume (ContWrite (next_promise w) key v exp obfuscate (type_of v)
                             (hash_loop seed (remove_whitespace key)))])
       (upd_next_promise S w)).
Proof.
  intros Hs Hp Hc. unfold write, bind. rewrite (createHashKey_ok seed) by done.
  rewrite Hc. unfold new_promise, bind, get, modify, ret, pauseUntilOperationsResumed,
    bind, get. simpl. rewrite Hp. done.
Qed.

(** The synchronous prefix of [read]. *)
Lemma read_prefix w key :
  isPaused w = false →
  read key w =
    (Ok (next_promise w),
     upd_microtasks (λ l, l ++ [Resume (ContRead (next_promise w) key)])
       (upd_next_promise S w)).
Proof.
  intros Hp. unfold read, new_promise, bind, get, modify, ret,
    pauseUntilOperationsResumed, bind, get. simpl. by rewrite Hp.
Qed.




(** A write on a cache at rest, followed by the micro-tasks it queued:
    the job has run, on the world that [encode] left, and the cache is at
    rest again. *)
Lemma write_drained seed c key v exp obfuscate :
  ready seed c → non_cachable (type_of v) = false →
  ∃ c',
    run_microtasks 3 (lift_world (write key v exp obfuscate) c).2 = c'
    ∧ ready seed c'
    ∧ let hKey := hash_loop seed (remove_whitespace key) in
      let h := handed obfuscate v (resumed_world (cw c)) in
      let j := write_job key hKey h.1 exp obfuscate (type_of v) h.2 in
      data (cw c') = data j.2
      ∧ heap (cw c') = heap j.2
      ∧ next_loc (cw c') = next_loc j.2
      ∧ timers (cw c') = timers j.2
      ∧ fideliusCharm (cw c') = fideliusCharm (cw c)
      ∧ settled (cw c') = settled (cw c) ++ [(next_promise (cw c), Ok VUndefined)]
      ∧ console (cw c') =
          console j.2 ++ match j.1 with
                         | Ok _ => []
                         | Throw e => [LogError drain_error e]
                         end.
Proof.
  intros [Hseed Htasks Hgate Hidle] Hcach.
  destruct c as [w q]. simpl in *.
  unfold lift_world. simpl. rewrite (write_prefix seed) by done. simpl.
  set (p := next_promise w).
  set (hKey := hash_loop seed (remove_whitespace key)).
  erewrite run_microtasks_cons; [|simpl; rewrite Htasks; done].
  simpl. unfold write_resume. simpl.
  match goal with |- context [upd_microtasks (λ _, []) ?w0] =>
    change (upd_microtasks (λ _, []) w0) with (resumed_world w) end.
  assert (∃ val w2 ts,
    (if obfuscate
     then try_catch (encode v)
            (λ err, throw (CacheException "UNABLE_TO_OBFUSCATE" "Failed to obfuscate value." err))
     else ret v) (resumed_world w) = (Ok val, w2)
    ∧ handed obfuscate v (resumed_world w) = (val, w2)
    ∧ microtasks w2 = ts ∧ (ts = [] ∨ ts = [EmitterResume obfuscated])
    ∧ same_but_encoding (resumed_world w) w2) as (val & w2 & ts & -> & -> & Hts & Hcase & Hsame).
  { unfold handed. destruct obfuscate.
    - destruct (encode_total v (resumed_world w)) as (val & w' & ts & He & Hm & Hc & Hs).
      exists val, w', ts. unfold try_catch. rewrite He. simpl in Hm. done.
    - exists v, (resumed_world w), []. repeat split; auto. }
  simpl.
  destruct (enqueue_idle pq_console_error pq_schedule_resume q w2
              (as_job (write_job key hKey val exp obfuscate (type_of v))) Hidle)
    as (q' & Hwf' & Hsz' & Hcap' & ->).
  pose proof (write_job_frame key hKey val exp obfuscate (type_of v) w2) as Hframe.
  unfold as_job.
  destruct (write_job key hKey val exp obfuscate (type_of v) w2) as [[[]|e] w3] eqn:Hjob;
    simpl in *.
  all: destruct Hframe as (Hf1 & Hf2 & Hf3 & Hf4 & Hf5 & Hf6).
  all: destruct Hsame as (Hs1 & Hs2 & Hs3 & Hs4 & Hs5 & Hs6 & Hs7 & Hs8 & Hs9).
  all: destruct Hidle as (_ & _ & _ & _ & Hcap).
  all: destruct Hcase as [->| ->].
  - (* the job returned; no emitter is waiting *)
    erewrite run_microtasks_cons; [|simpl; rewrite Hf1, Hts; done].
    simpl. rewrite resume_empty by done.
    rewrite run_microtasks_nil by done.
    eexists. split; [done|]. split.
    + constructor; simpl; [|done| |].
      * unfold seeded in *. simpl. by rewrite Hf2, Hs1.
      * by rewrite Hf3, Hs2.
      * unfold idle; simpl; split_and!; [done|done|done|done|lia].
    + simpl. rewrite Hf4, Hs3, Hf6, Hs5, app_nil_r. done.
  - (* the job returned; the rest of [emitter] runs first *)
    erewrite run_microtasks_cons; [|simpl; rewrite Hf1, Hts; done].
    simpl.
    erewrite run_microtasks_cons; [|simpl; done].
    simpl. rewrite resume_empty by done.
    rewrite run_microtasks_nil by done.
    eexists. split; [done|]. split.
    + constructor; simpl; [|done| |].
      * unfold seeded in *. simpl. by rewrite Hf2, Hs1.
      * by rewrite Hf3, Hs2.
      * unfold idle; simpl; split_and!; [done|done|done|done|lia].
    + simpl. rewrite Hf4, Hs3, Hf6, Hs5, app_nil_r. done.
  - (* the job threw; the drain loop caught it *)
    rewrite run_microtasks_nil by (simpl; rewrite Hf1, Hts; done).
    eexists. split; [done|]. split.
    + constructor; simpl.
      * unfold seeded in *. simpl. by rewrite Hf2, Hs1.
      * by rewrite Hf1, Hts.
      * by rewrite Hf3, Hs2.
      * unfold idle; simpl; split_and!; [done|done|done|done|lia].
    + simpl. rewrite Hf4, Hs3, Hf6, Hs5. done.
  - erewrite run_microtasks_cons; [|simpl; rewrite Hf1, Hts; done].
    simpl. rewrite run_microtasks_nil by done.
    eexists. split; [done|]. split.
    + constructor; simpl; [|done| |].
      * unfold seeded in *. simpl. by rewrite Hf2, Hs1.
      * by rewrite Hf3, Hs2.
      * unfold idle; simpl; split_and!; [done|done|done|done|lia].
    + simpl. rewrite Hf4, Hs3, Hf6, Hs5. done.
Qed.



Lemma accepts_validates hKey key w :
  accepts hKey key w → validateKeyCheckSum hKey (createCheckSum key) w = (Ok true, w).
Proof.
  unfold accepts, validateKeyCheckSum, bind, get, deref, bind, get, ret.
  destruct (map_get hKey (data w)) as [l|]; [|done].
  intros (e & -> & ->). simpl. f_equal. f_equal. by apply str_eqb_spec.
Qed.

Lemma setUnboundedTimeout_store cb delay w :
  let w' := (setUnboundedTimeout cb delay w).2 in
  data w' = data w ∧ heap w' = heap w ∧ next_loc w' = next_loc w
  ∧ console w' = console w.
Proof.
  unfold setUnboundedTimeout, bind, get, modify, setTimeout, bind, get, modify, ret, throw.
  repeat case_match; simplify_eq; simpl; done.
Qed.

(** The job of a write that the bucket accepts stores a new entry object
    with the value it was handed, whatever the scheduling of the cleanup
    does afterwards. *)
Lemma write_job_store key hKey _value exp obfuscate typeOfValue w :
  accepts hKey key w →
  let w' := (write_job key hKey _value exp obfuscate typeOfValue w).2 in
  data w' = map_set hKey (next_loc w) (data w)
  ∧ heap w' = <[next_loc w := {| value_of := _value; expiresOn := exp;
                                 isObfusacated := obfuscate; type := typeOfValue;
                                 checksum := createCheckSum key |}]> (heap w)
  ∧ next_loc w' = S (next_loc w)
  ∧ console w' = console w.
Proof.
  intros Hacc. unfold write_job, bind.
  rewrite accepts_validates by done.
  unfold alloc, bind, get, modify, ret. simpl.
  destruct exp as [| |d]; simpl; try done.
  unfold runCacheCleanup, bind, get. simpl.
  match goal with |- context [setUnboundedTimeout ?cb ?dl ?w0] =>
    pose proof (setUnboundedTimeout_store cb dl w0) as Hf;
    destruct (setUnboundedTimeout cb dl w0) as [[?|?] ?] end; simpl in *; done.
Qed.

(** [read] after its [await], on an entry that is not obfuscated: the
    value of the entry, whatever key it was written under. *)
Lemma read_body_plain seed w key l e :
  seeded seed w →
  map_get (hash_loop seed (remove_whitespace key)) (data w) = Some l →
  heap w !! l = Some e →
  isObfusacated e = false →
  read_body key w = (Ok (value_of e), w).
Proof.
  intros Hs Hget Hheap Hobf. unfold read_body, bind.
  rewrite (createHashKey_ok seed) by done.
  unfold get, deref, bind, get, ret. rewrite Hget, Hheap. simpl. by rewrite Hobf.
Qed.

Lemma read_body_absent seed w key :
  seeded seed w →
  map_get (hash_loop seed (remove_whitespace key)) (data w) = None →
  read_body key w = (Ok VNull, w).
Proof.
  intros Hs Hget. unfold read_body, bind.
  rewrite (createHashKey_ok seed) by done.
  unfold get, ret. by rewrite Hget.
Qed.

(** [read] after its [await], on an obfuscated entry: [decode]. *)
Lemma read_body_obfuscated seed w key l e :
  seeded seed w →
  map_get (hash_loop seed (remove_whitespace key)) (data w) = Some l →
  heap w !! l = Some e →
  isObfusacated e = true →
  read_body key w = decode (value_of e) w.
Proof.
  intros Hs Hget Hheap Hobf. unfold read_body, bind.
  rewrite (createHashKey_ok seed) by done.
  unfold get, deref, bind, get, ret. rewrite Hget, Hheap. simpl. by rewrite Hobf.
Qed.

(** [decode], [read] after its [await], [has] read the world only. *)
Lemma decode_pure string w : (decode string w).2 = w.
Proof.
  unfold decode, bind, get, lift, throw.
  repeat case_match; simplify_eq; simpl; done.
Qed.

Lemma read_body_pure key w : (read_body key w).2 = w.
Proof.
  unfold read_body, bind, createHashKey, bind, get, deref, bind, get, ret, throw.
  destruct (CACHE_HASH_KEY_INITALIZER w) as [[| |]|]; simpl; try done.
  all: destruct (map_get _ (data w)) as [l|]; simpl; try done.
  all: destruct (heap w !! l) as [e|]; simpl; try done.
  all: destruct (isObfusacated e); simpl; try done.
  all: apply decode_pure.
Qed.

Lemma has_pure key w : (has key w).2 = w.
Proof.
  unfold has, bind, createHashKey, bind, get, ret, throw.
  destruct (CACHE_HASH_KEY_INITALIZER w) as [[| |]|]; simpl; done.
Qed.

Lemma read_resume_settles p key w :
  read_resume p key w = settle p (read_body key w).1 w.
Proof.
  unfold read_resume. pose proof (read_body_pure key w) as Hp.
  destruct (read_body key w) as [r w']. simpl in *. by subst.
Qed.

(** A read on a cache at rest and the micro-task it queued: the promise
    is settled with what the rest of [read] returns or throws, and the
    cache is at rest again, with the same map and the same entries. *)
Lemma read_drained seed c key :
  ready seed c →
  (lift_world (read key) c).1 = Ok (next_promise (cw c))
  ∧ run_microtasks 1 (lift_world (read key) c).2 =
      {| cw := settle (next_promise (cw c)) (read_body key (resumed_world (cw c))).1
                 (resumed_world (cw c));
         writeQueue := writeQueue c |}.
Proof.
  intros [Hseed Htasks Hgate Hidle]. destruct c as [w q]. simpl in *.
  unfold lift_world. simpl. rewrite read_prefix by done. simpl. split; [done|].
  erewrite run_microtasks_cons; [|simpl; rewrite Htasks; done].
  simpl.
  match goal with |- context [upd_microtasks (λ _, []) ?w0] =>
    change (upd_microtasks (λ _, []) w0) with (resumed_world w) end.
  rewrite read_resume_settles. by rewrite run_microtasks_nil.
Qed.

End Machine.

(** ** The claims *)

Section Fresh.
Context `{Platform}.

(** A cache that [new Cache()] just built is at rest, and empty. *)
Lemma fresh_ready seed c :
  new_Cache (Some seed) = Ok c → seed ≠ 0 → ready seed c ∧ data (cw c) = [].
Proof.
  unfold new_Cache, ProcessQueue.new. intros Hnew Hseed.
  destruct (new_ok (None : option (ProcessQueue.item world (value object))) 5000)
    as (q & Hq & Hwf & _ & Hcap & Hsz); [lia|].
  rewrite Hq in Hnew. vm_compute in Hnew. injection Hnew as <-.
  split; [|done]. constructor; simpl; try done.
  unfold idle. simpl. split_and!; try done. lia.
Qed.
End Fresh.

Lemma toy_fresh_ready : ready 5381 Toy.fresh ∧ data (cw Toy.fresh) = [].
Proof. apply fresh_ready; [reflexivity|lia]. Qed.


(** C4. Collision policy. When the job of a write finds, at the hashed key
    of its key, an entry whose checksum is not the checksum of the key,
    the job returns without throwing; it deletes the entry of the bucket,
    which then holds no entry, and leaves the other buckets; it creates no
    entry object and schedules no cleanup, so the new value is not stored;
    and it logs one warning. *)
Theorem collision_deletes_and_discards `{Platform} seed w key hKey _value exp
    obfuscate typeOfValue l e :
  seeded seed w →
  (createHashKey key w).1 = Ok hKey →
  map_get hKey (data w) = Some l →
  heap w !! l = Some e →
  checksum e ≠ createCheckSum key →
  ∃ w',
    write_job key hKey _value exp obfuscate typeOfValue w = (Ok (), w')
    ∧ as_job (write_job key hKey _value exp obfuscate typeOfValue) w
      = ProcessQueue.Returns VUndefined w'
    ∧ map_has hKey (data w') = false
    ∧ data w' = map_delete hKey (data w)
    ∧ heap w' = heap w
    ∧ next_loc w' = next_loc w
    ∧ timers w' = timers w
    ∧ console w' = console w ++ [LogWarn collision_warning].
Proof.
  intros Hseed Hhash Hget Hheap Hne.
  rewrite (createHashKey_ok seed) in Hhash by done. simpl in Hhash.
  injection Hhash as Hh.
  pose proof (write_job_collision seed w key hKey _value exp obfuscate typeOfValue l e
                Hseed (eq_sym Hh) Hget Hheap Hne) as Hjob.
  eexists. split; [exact Hjob|]. unfold as_job. rewrite Hjob. simpl.
  split; [done|]. split; [apply map_has_delete_eq|]. done.
Qed.

(** C9. With the hash seed set, [write] of a function, of [undefined] or of
    a symbol throws the cache exception NON_CACHABLE_VALUE in its
    synchronous prefix, and the cache is what it was: nothing was enqueued
    and the map is untouched. *)
Theorem non_cachable_write_rejected `{Platform} seed c key (v : value object) exp obfuscate :
  seeded seed (cw c) →
  v = VFunction ∨ v = VUndefined ∨ v = VSymbol →
  lift_world (write key v exp obfuscate) c =
    (Throw (CacheException "NON_CACHABLE_VALUE"
              "Invalid value. Functions, undefined, and symbols cannot be stored in cache."
              (Error "cannot be stored as cache.")), c).
Proof.
  intros Hseed Hv. destruct c as [w q]. unfold lift_world, write, bind. simpl in *.
  rewrite (createHashKey_ok seed) by done.
  by destruct Hv as [-> | [-> | ->]].
Qed.

Section Claims.
Context `{Platform}.
Implicit Types (c : cache) (w : world) (v : value object).

Lemma handed_frame obfuscate v w :
  same_but_encoding w (handed obfuscate v w).2.
Proof.
  unfold handed. destruct obfuscate; [|done].
  destruct (encode_total v w) as (val & w' & ts & -> & _ & _ & Hs). done.
Qed.

Lemma accepts_frame hKey key w w' :
  data w' = data w → heap w' = heap w → accepts hKey key w → accepts hKey key w'.
Proof. unfold accepts. by intros -> ->. Qed.

(** What a write on a cache at rest leaves when the bucket accepts it. *)
Lemma write_stored seed c key v exp obfuscate :
  ready seed c → non_cachable (type_of v) = false →
  accepts (hash_loop seed (remove_whitespace key)) key (cw c) →
  let c' := run_microtasks 3 (lift_world (write key v exp obfuscate) c).2 in
  ready seed c'
  ∧ data (cw c') = map_set (hash_loop seed (remove_whitespace key)) (next_loc (cw c)) (data (cw c))
  ∧ heap (cw c') =
      <[next_loc (cw c) :=
          {| value_of := (handed obfuscate v (resumed_world (cw c))).1;
             expiresOn := exp; isObfusacated := obfuscate; type := type_of v;
             checksum := createCheckSum key |}]> (heap (cw c))
  ∧ fideliusCharm (cw c') = fideliusCharm (cw c)
  ∧ settled (cw c') = settled (cw c) ++ [(next_promise (cw c), Ok VUndefined)].
Proof.
  intros Hready Hcach Hacc.
  destruct (write_drained seed c key v exp obfuscate Hready Hcach)
    as (c' & -> & Hready' & Hd & Hh & _ & _ & Hk & Hs & _).
  pose proof (handed_frame obfuscate v (resumed_world (cw c)))
    as (_ & _ & _ & _ & _ & Hhd & Hhh & Hhl & _).
  destruct (write_job_store key (hash_loop seed (remove_whitespace key))
              (handed obfuscate v (resumed_world (cw c))).1 exp obfuscate (type_of v)
              (handed obfuscate v (resumed_world (cw c))).2) as (Hjd & Hjh & _).
  { eapply accepts_frame; [..|exact Hacc]; by rewrite ?Hhd, ?Hhh. }
  simpl. split; [done|].
  rewrite Hd, Hjd, Hh, Hjh, Hhd, Hhh, Hhl. done.
Qed.

End Claims.

(** C10, what holds. Reads never check the checksum. Let two keys have
    the same hashed key, as any two keys that are equal once their
    whitespace is removed have, and let a write of the first key, not
    obfuscated, drain on a cache at rest. When the bucket accepted the
    write, being free or holding an entry of the first key, [has] of the
    second key is true, [read] of the second key settles with the value
    written under the first, and [delete] of the second key returns true
    and empties the bucket. When the bucket held an entry of another
    checksum, the write was dropped as a collision and the bucket emptied:
    [has] of either key is false and [read] of the second key settles with
    [null], while the write was fulfilled all the same. *)
Theorem reads_never_check_the_checksum `{Platform} seed c k1 k2 (v : value object) exp :
  ready seed c →
  non_cachable (type_of v) = false →
  hash_loop seed (remove_whitespace k1) = hash_loop seed (remove_whitespace k2) →
  let hKey := hash_loop seed (remove_whitespace k1) in
  let c1 := run_microtasks 3 (lift_world (write k1 v exp false) c).2 in
  (accepts hKey k1 (cw c) →
     (has k2 (cw c1)).1 = Ok true
     ∧ (lift_world (read k2) c1).1 = Ok (next_promise (cw c1))
     ∧ settled (cw (run_microtasks 1 (lift_world (read k2) c1).2))
       = settled (cw c1) ++ [(next_promise (cw c1), Ok v)]
     ∧ (delete k2 (cw c1)).1 = Ok true
     ∧ (has k2 (delete k2 (cw c1)).2).1 = Ok false)
  ∧ (∀ l e,
       map_get hKey (data (cw c)) = Some l →
       heap (cw c) !! l = Some e →
       checksum e ≠ createCheckSum k1 →
       (has k2 (cw c1)).1 = Ok false
       ∧ (has k1 (cw c1)).1 = Ok false
       ∧ settled (cw (run_microtasks 1 (lift_world (read k2) c1).2))
         = settled (cw c1) ++ [(next_promise (cw c1), Ok VNull)]
       ∧ settled (cw c1) = settled (cw c) ++ [(next_promise (cw c), Ok VUndefined)]).
Proof.
  intros Hready Hcach Hhash hKey c1. split.
  - intros Hacc.
    destruct (write_stored seed c k1 v exp false Hready Hcach Hacc)
      as (Hready' & Hd & Hh & _ & _).
    fold c1 in Hready', Hd, Hh. simpl in Hh.
    pose proof (ready_seed _ _ Hready') as Hseed.
    assert (map_get (hash_loop seed (remove_whitespace k2)) (data (cw c1))
            = Some (next_loc (cw c))) as Hget.
    { rewrite Hd, <- Hhash. apply map_get_set_eq. }
    split; [|split; [|split; [|split]]].
    + rewrite (has_ok seed) by done. simpl. unfold map_has. by rewrite Hget.
    + by destruct (read_drained seed c1 k2 Hready').
    + destruct (read_drained seed c1 k2 Hready') as [_ ->]. simpl.
      rewrite (read_body_plain seed (resumed_world (cw c1)) k2 (next_loc (cw c))
                 {| value_of := v; expiresOn := exp; isObfusacated := false;
                    type := type_of v; checksum := createCheckSum k1 |});
        [done|exact Hseed|exact Hget| |done].
      simpl. rewrite Hh. apply lookup_insert_eq.
    + rewrite (delete_ok seed) by done. simpl. unfold map_has. by rewrite Hget.
    + rewrite (delete_ok seed) by done. simpl.
      rewrite (has_ok seed) by done. simpl. by rewrite map_has_delete_eq.
  - intros l e Hget0 Hheap0 Hsum.
    destruct (write_drained seed c k1 v exp false Hready Hcach)
      as (c1' & Hc1 & Hready' & Hd & _ & _ & _ & _ & Hs & _).
    fold c1 in Hc1. subst c1'.
    pose proof (ready_seed _ _ Hready) as Hseed0.
    pose proof (ready_seed _ _ Hready') as Hseed.
    assert (write_job k1 hKey v exp false (type_of v) (resumed_world (cw c))
            = (Ok (),
               upd_data (map_delete hKey)
                 (upd_console (λ l, l ++ [LogWarn collision_warning])
                    (resumed_world (cw c))))) as Hjob.
    { by apply (write_job_collision seed (resumed_world (cw c)) k1 hKey v exp false
                  (type_of v) l e). }
    unfold handed in Hd. cbn [fst snd] in Hd. fold hKey in Hd.
    rewrite Hjob in Hd. simpl in Hd.
    assert (map_get hKey (data (cw c1)) = None) as Hnone.
    { rewrite Hd. apply map_get_delete_eq. }
    split; [|split; [|split]].
    + rewrite (has_ok seed) by done. simpl. unfold map_has.
      fold hKey in Hhash. by rewrite <- Hhash, Hnone.
    + rewrite (has_ok seed) by done. simpl. unfold map_has.
      fold hKey. by rewrite Hnone.
    + destruct (read_drained seed c1 k2 Hready') as [_ ->]. simpl.
      rewrite (read_body_absent seed); [done|exact Hseed|].
      fold hKey in Hhash. rewrite <- Hhash. exact Hnone.
    + exact Hs.
Qed.

(** C10, counterexample. The keys ["ab"] and ["a b"] are distinct and have
    the same hashed key. On the cache that holds the entry written under
    ["a b"], after

      await cache.write("ab", 2)

    [has("a b")] is false and [read("a b")] gives [null], not 2: the
    bucket held the entry of another key, and the write was dropped. *)
Lemma dropped_write_is_not_read_back :
  Toy.key_B ≠ Toy.key_A
  ∧ hash_loop 5381 (remove_whitespace Toy.key_B)
    = hash_loop 5381 (remove_whitespace Toy.key_A)
  ∧ Toy.wrote_A_then_B
    = run_microtasks 3
        (lift_world (write Toy.key_B (VNumber (Int 2)) ExpNever false) Toy.wrote_A).2
  ∧ (has Toy.key_A (cw Toy.wrote_A_then_B)).1 = Ok false
  ∧ (has Toy.key_A (cw Toy.wrote_A_then_B)).1 ≠ Ok true
  ∧ settled (cw (run_microtasks 1 (lift_world (read Toy.key_A) Toy.wrote_A_then_B).2))
    = settled (cw Toy.wrote_A_then_B)
      ++ [(next_promise (cw Toy.wrote_A_then_B), Ok VNull)].
Proof.
  split; [discriminate|]. split; [vm_compute; reflexivity|].
  split; [reflexivity|]. split; [vm_compute; reflexivity|].
  split; [vm_compute; discriminate|]. vm_compute. reflexivity.
Qed.

(** C5, what holds. Let two keys have the same hashed key and different
    checksums. After a write of the first and then a write of the second
    have drained, on a cache at rest whose bucket accepted the first:
    [has] of the first key was true in between and is false in the end,
    [has] of the second key is false too, as the bucket is empty; the last
    line of the console is the collision warning, and both writes were
    fulfilled, none rejected. *)
Theorem colliding_writes_empty_the_bucket `{Platform} seed c kA kB
    (vA vB : value object) expA expB oA oB :
  ready seed c →
  non_cachable (type_of vA) = false →
  non_cachable (type_of vB) = false →
  hash_loop seed (remove_whitespace kA) = hash_loop seed (remove_whitespace kB) →
  createCheckSum kA ≠ createCheckSum kB →
  accepts (hash_loop seed (remove_whitespace kA)) kA (cw c) →
  let c1 := run_microtasks 3 (lift_world (write kA vA expA oA) c).2 in
  let c2 := run_microtasks 3 (lift_world (write kB vB expB oB) c1).2 in
  (has kA (cw c1)).1 = Ok true
  ∧ (has kA (cw c2)).1 = Ok false
  ∧ (has kB (cw c2)).1 = Ok false
  ∧ last (console (cw c2)) = Some (LogWarn collision_warning)
  ∧ settled (cw c1) = settled (cw c) ++ [(next_promise (cw c), Ok VUndefined)]
  ∧ settled (cw c2) = settled (cw c1) ++ [(next_promise (cw c1), Ok VUndefined)].
Proof.
  intros Hready HcA HcB Hhash Hsum Hacc.
  destruct (write_stored seed c kA vA expA oA Hready HcA Hacc)
    as (Hready1 & Hd1 & Hh1 & _ & Hs1).
  set (c1 := run_microtasks 3 (lift_world (write kA vA expA oA) c).2) in *.
  simpl in Hh1. cbv zeta.
  destruct (write_drained seed c1 kB vB expB oB Hready1 HcB)
    as (c2 & -> & Hready2 & Hd2 & _ & _ & _ & _ & Hs2 & Hc2).
  set (hB := handed oB vB (resumed_world (cw c1))) in *.
  pose proof (handed_frame oB vB (resumed_world (cw c1)))
    as (Hseed' & _ & _ & _ & _ & Hhd & Hhh & _ & _).
  fold hB in Hseed', Hhd, Hhh. simpl in Hseed', Hhd, Hhh.
  pose proof (ready_seed _ _ Hready1) as Hseed1.
  pose proof (ready_seed _ _ Hready2) as Hseed2.
  assert (seeded seed hB.2) as HseedB.
  { destruct Hseed1 as [Hs Hne]. split; [by rewrite Hseed'|done]. }
  set (e := {| value_of := (handed oA vA (resumed_world (cw c))).1; expiresOn := expA;
               isObfusacated := oA; type := type_of vA;
               checksum := createCheckSum kA |}) in *.
  assert (write_job kB (hash_loop seed (remove_whitespace kB)) hB.1 expB oB (type_of vB) hB.2
          = (Ok (),
             upd_data (map_delete (hash_loop seed (remove_whitespace kB)))
               (upd_console (λ l, l ++ [LogWarn collision_warning]) hB.2))) as Hjob.
  { apply (write_job_collision seed hB.2 kB _ hB.1 expB oB (type_of vB)
             (next_loc (cw c)) e); try done.
    - rewrite Hhd, Hd1, <- Hhash. apply map_get_set_eq.
    - rewrite Hhh, Hh1. apply lookup_insert_eq. }
  rewrite Hjob in Hd2, Hc2. simpl in Hd2, Hc2. rewrite app_nil_r in Hc2.
  split; [|split; [|split; [|split; [|split]]]]; try done.
  - rewrite (has_ok seed) by done. simpl. rewrite Hd1. by rewrite map_has_set_eq.
  - rewrite (has_ok seed) by done. simpl. rewrite Hd2, Hhash.
    by rewrite map_has_delete_eq.
  - rewrite (has_ok seed) by done. simpl. rewrite Hd2.
    by rewrite map_has_delete_eq.
  - rewrite Hc2. apply last_snoc.
Qed.

(** C5, counterexample. The keys ["a b"] and ["ab"] are distinct, have the
    same hashed key and different checksums; after

      await cache.write("a b", 1); await cache.write("ab", 2)

    on a new cache, [has("ab")] is false, not true. *)
Lemma second_colliding_key_is_absent :
  Toy.key_A ≠ Toy.key_B
  ∧ (createHashKey Toy.key_A (cw Toy.fresh)).1 = (createHashKey Toy.key_B (cw Toy.fresh)).1
  ∧ createCheckSum Toy.key_A ≠ createCheckSum Toy.key_B
  ∧ (has Toy.key_A (cw Toy.wrote_A_then_B)).1 = Ok false
  ∧ (has Toy.key_B (cw Toy.wrote_A_then_B)).1 = Ok false
  ∧ (has Toy.key_B (cw Toy.wrote_A_then_B)).1 ≠ Ok true.
Proof.
  split; [discriminate|]. split; [vm_compute; reflexivity|].
  split; [vm_compute; discriminate|].
  split; [vm_compute; reflexivity|]. split; [vm_compute; reflexivity|].
  vm_compute. discriminate.
Qed.

Lemma colliding_writes_empty_the_bucket_witness :
  (has Toy.key_A (cw Toy.wrote_A)).1 = Ok true
  ∧ (has Toy.key_A (cw Toy.wrote_A_then_B)).1 = Ok false
  ∧ (has Toy.key_B (cw Toy.wrote_A_then_B)).1 = Ok false
  ∧ last (console (cw Toy.wrote_A_then_B)) = Some (LogWarn collision_warning).
Proof.
  destruct (colliding_writes_empty_the_bucket 5381 Toy.fresh Toy.key_A Toy.key_B
              (VNumber (Int 1)) (VNumber (Int 2)) ExpNever ExpNever false false)
    as (H1 & H2 & H3 & H4 & _).
  - apply toy_fresh_ready.
  - reflexivity.
  - reflexivity.
  - reflexivity.
  - vm_compute. discriminate.
  - exact I.
  - exact (conj H1 (conj H2 (conj H3 H4))).
Defined.

(** C7, what holds. After a write has drained, on a cache at rest whose
    bucket accepted it, the entry of the bucket carries the flag and the
    type tag of the write, and its value field holds what [write] handed
    to its job: with [obfuscate] false the caller's value itself, not
    serialized, a string only when that value is one; with [obfuscate] true
    the string [iv:ciphertext:type], in hexadecimal, whenever the
    serialization and the cipher succeed. [read], [has], [delete] and
    [destroy] change no entry object. *)
Theorem entry_holds_what_write_handed_over `{Platform} seed c key (v : value object)
    exp obfuscate :
  ready seed c →
  non_cachable (type_of v) = false →
  accepts (hash_loop seed (remove_whitespace key)) key (cw c) →
  let c1 := run_microtasks 3 (lift_world (write key v exp obfuscate) c).2 in
  let iv := randomBytes (draws (cw c)) 16 in
  (∃ l e,
     map_get (hash_loop seed (remove_whitespace key)) (data (cw c1)) = Some l
     ∧ heap (cw c1) !! l = Some e
     ∧ isObfusacated e = obfuscate
     ∧ type e = type_of v
     ∧ (obfuscate = false → value_of e = v)
     ∧ (obfuscate = true → ∀ k s ct,
          fideliusCharm (cw c) = Some k →
          converttostring v = Ok (VString s, type_of v) →
          cipher k iv s = Ok ct →
          value_of e = VString (to_hex iv ++ [colon] ++ to_hex ct ++ [colon] ++ type_of v)))
  ∧ (∀ key' w,
       heap (read_body key' w).2 = heap w ∧ heap (has key' w).2 = heap w
       ∧ heap (delete key' w).2 = heap w ∧ heap (destroy w).2 = heap w).
Proof.
  intros Hready Hcach Hacc.
  destruct (write_stored seed c key v exp obfuscate Hready Hcach Hacc)
    as (_ & Hd & Hh & _ & _).
  cbv zeta. split.
  - eexists _, _. split; [rewrite Hd; apply map_get_set_eq|].
    split; [rewrite Hh; apply lookup_insert_eq|]. simpl.
    split; [done|]. split; [done|]. split.
    + by intros ->.
    + intros -> k s ct Hk Hconv Hciph. unfold handed.
      by rewrite (encode_ok _ v k s (type_of v) ct).
  - intros key' w. rewrite read_body_pure, has_pure. split; [done|]. split; [done|].
    split; [|done].
    unfold delete, bind, createHashKey, bind, get, throw, ret, modify.
    destruct (CACHE_HASH_KEY_INITALIZER w) as [[| |]|]; simpl; done.
Qed.

(** C7, counterexample. After [await cache.write("a b", 1)] on a new cache
    the entry of the bucket is not obfuscated and its value field holds the
    number 1, which is no string. *)
Lemma plain_entry_holds_a_number :
  ∃ l e,
    map_get 5863208 (data (cw Toy.wrote_A)) = Some l
    ∧ heap (cw Toy.wrote_A) !! l = Some e
    ∧ isObfusacated e = false
    ∧ value_of e = VNumber (Int 1)
    ∧ ∀ s, value_of e ≠ VString s.
Proof.
  exists 0%nat.
  exists {| value_of := VNumber (Int 1); expiresOn := ExpNever; isObfusacated := false;
            type := js "number"; checksum := createCheckSum Toy.key_A |}.
  split; [vm_compute; reflexivity|]. split; [vm_compute; reflexivity|].
  split; [reflexivity|]. split; [reflexivity|]. discriminate.
Qed.

Lemma entry_holds_what_write_handed_over_witness :
  ∃ l e,
    map_get 5863208 (data (cw Toy.wrote_A)) = Some l
    ∧ heap (cw Toy.wrote_A) !! l = Some e
    ∧ isObfusacated e = false
    ∧ value_of e = VNumber (Int 1).
Proof.
  destruct (entry_holds_what_write_handed_over 5381 Toy.fresh Toy.key_A
              (VNumber (Int 1)) ExpNever false)
    as [(l & e & Hget & Hheap & Hobf & _ & Hplain & _) _].
  - apply toy_fresh_ready.
  - reflexivity.
  - exact I.
  - exists l, e. split; [exact Hget|]. split; [exact Hheap|]. split; [exact Hobf|].
    apply Hplain. reflexivity.
Defined.

(** C3, at the input on which the code fails. A bigint written with
    [obfuscate] true is read back as the boolean [false]: [decode] restores
    the decimal string, [toType] calls [BigInt] on it and falls through
    into the case ["boolean"], where the string is not ["true"]. The cipher
    is any that encrypts the string to some [ct] and decrypts [ct] back. *)
Theorem obfuscated_bigint_reads_back_false `{Platform} seed c key z exp k ct :
  ready seed c →
  accepts (hash_loop seed (remove_whitespace key)) key (cw c) →
  fideliusCharm (cw c) = Some k →
  cipher k (randomBytes (draws (cw c)) 16) (decimal z) = Ok ct →
  decipher k (randomBytes (draws (cw c)) 16) ct = Ok (decimal z) →
  let c1 := run_microtasks 3 (lift_world (write key (VBigInt z) exp true) c).2 in
  let c2 := run_microtasks 1 (lift_world (read key) c1).2 in
  (lift_world (read key) c1).1 = Ok (next_promise (cw c1))
  ∧ settled (cw c2) = settled (cw c1) ++ [(next_promise (cw c1), Ok (VBoolean false))].
Proof.
  intros Hready Hacc Hkey Hciph Hdeciph.
  destruct (write_stored seed c key (VBigInt z) exp true Hready ltac:(done) Hacc)
    as (Hready1 & Hd & Hh & Hk1 & _).
  set (c1 := run_microtasks 3 (lift_world (write key (VBigInt z) exp true) c).2) in *.
  cbv zeta.
  destruct (read_drained seed c1 key Hready1) as [Hp ->].
  split; [done|]. simpl.
  unfold handed in Hh.
  rewrite (encode_ok _ (VBigInt z) k (decimal z) (js "bigint") ct) in Hh by done.
  cbv beta iota in Hh. cbn [fst] in Hh.
  erewrite (read_body_obfuscated seed (resumed_world (cw c1)) key (next_loc (cw c)));
    [|apply Hready1|simpl; rewrite Hd; apply map_get_set_eq
     |simpl; rewrite Hh; apply lookup_insert_eq|done].
  cbn [value_of].
  rewrite (decode_encoded _ k) by (simpl; congruence || apply (type_of_no_colon (VBigInt z))).
  change (draws (resumed_world (cw c))) with (draws (cw c)).
  rewrite Hdeciph, toType_bigint. done.
Qed.

Lemma obfuscated_bigint_reads_back_false_witness :
  let c1 := run_microtasks 3 (lift_world (write (js "b") (VBigInt 5) ExpNever true) Toy.fresh).2 in
  let c2 := run_microtasks 1 (lift_world (read (js "b")) c1).2 in
  (lift_world (read (js "b")) c1).1 = Ok (next_promise (cw c1))
  ∧ settled (cw c2) = settled (cw c1) ++ [(next_promise (cw c1), Ok (VBoolean false))].
Proof.
  apply (obfuscated_bigint_reads_back_false 5381 Toy.fresh (js "b") 5 ExpNever
           Toy.first_key (Toy.encrypted (decimal 5))).
  - apply toy_fresh_ready.
  - exact I.
  - vm_compute. reflexivity.
  - vm_compute. reflexivity.
  - vm_compute. reflexivity.
Defined.

Section Rotation.
Context `{Platform}.
Implicit Types (c : cache) (w : world) (v : value object).

Lemma decode_malformed s w :
  colon ∉ s → decode (VString s) w = (Throw (Error "Invalid string to decode."), w).
Proof. intros Hs. unfold decode. by rewrite split_no_sep. Qed.

(** [rotateKey()] up to the [await] of [emitter], on a map of one entry
    that decodes: the before handler has replaced the value of the entry
    object, which the live map shares, by the decoded value; the key is
    replaced; the rest of [emitter] waits in the micro-task queue; the
    gate was never closed. *)
Lemma rotateKey_one_entry w hKey l e k iv ct ty val :
  data w = [(hKey, l)] →
  heap w !! l = Some e →
  value_of e = VString (to_hex iv ++ [colon] ++ to_hex ct ++ [colon] ++ ty) →
  colon ∉ ty →
  fideliusCharm w = Some k →
  decipher k iv ct = Ok (val.1) →
  toType val.1 ty = Ok val.2 →
  ∃ w', rotateKey w = (Ok (), w')
    ∧ data w' = data w
    ∧ heap w' !! l = Some {| value_of := val.2; expiresOn := expiresOn e;
                             isObfusacated := isObfusacated e; type := type e;
                             checksum := checksum e |}
    ∧ isPaused w' = isPaused w
    ∧ microtasks w' = microtasks w ++ [EmitterResume key_rotated]
    ∧ CACHE_HASH_KEY_INITALIZER w' = CACHE_HASH_KEY_INITALIZER w
    ∧ settled w' = settled w
    ∧ fideliusCharm w' = Some (randomBytes (draws w) 32).
Proof.
  intros Hdata Hheap Hval Hty Hkey Hdec Htype.
  unfold rotateKey, emitter, bind. simpl.
  unfold run_hooks, forEach, bind, try_catch, handleBeforeKeyRotated, bind, get, modify.
  rewrite Hdata. simpl. unfold deref, bind, get. simpl. rewrite Hheap.
  unfold ret. cbv beta iota. rewrite Hval.
  rewrite (decode_encoded _ k) by done. rewrite Hdec, Htype.
  unfold set_value, modify, console_error, modify. cbv beta iota.
  eexists. split; [done|]. simpl. rewrite Hdata.
  split; [done|]. split; [|done].
  rewrite lookup_alter_eq, Hheap. done.
Qed.
End Rotation.

(** C1, at the input on which the code fails. A string without a colon is
    written with [obfuscate] true on an empty cache at rest, and the write
    drains. Then, in one synchronous run, [read(key)] is called and
    [rotateKey()] is called. When [rotateKey()] returns, the gate is open,
    and the entry of the live map, still marked obfuscated, holds the
    plaintext that the before handler decoded in place. The next micro-task
    is the rest of [read]: it runs before the rest of the rotation, takes
    the plaintext for ciphertext, and the promise of [read] is rejected. *)
Theorem read_meets_entry_decoded_in_place `{Platform} seed c key s exp k ct :
  ready seed c →
  data (cw c) = [] →
  fideliusCharm (cw c) = Some k →
  colon ∉ s →
  cipher k (randomBytes (draws (cw c)) 16) s = Ok ct →
  decipher k (randomBytes (draws (cw c)) 16) ct = Ok s →
  let hKey := hash_loop seed (remove_whitespace key) in
  let c1 := run_microtasks 3 (lift_world (write key (VString s) exp true) c).2 in
  let c2 := (lift_world (read key) c1).2 in
  let c3 := (lift_world rotateKey c2).2 in
  (lift_world (read key) c1).1 = Ok (next_promise (cw c1))
  ∧ isPaused (cw c3) = false
  ∧ (∃ l e, map_get hKey (data (cw c3)) = Some l ∧ heap (cw c3) !! l = Some e
        ∧ isObfusacated e = true ∧ value_of e = VString s)
  ∧ microtasks (cw c3) = [Resume (ContRead (next_promise (cw c1)) key);
                          EmitterResume key_rotated]
  ∧ ∃ c4, tick c3 = Some c4
      ∧ isPaused (cw c4) = false
      ∧ settled (cw c4) = settled (cw c1)
          ++ [(next_promise (cw c1), Throw (Error "Invalid string to decode."))].
Proof.
  intros Hready Hempty Hkey Hs Hciph Hdeciph.
  assert (accepts (hash_loop seed (remove_whitespace key)) key (cw c)) as Hacc.
  { unfold accepts. by rewrite Hempty. }
  destruct (write_stored seed c key (VString s) exp true Hready ltac:(done) Hacc)
    as (Hready1 & Hd & Hh & Hk1 & _).
  set (c1 := run_microtasks 3 (lift_world (write key (VString s) exp true) c).2) in *.
  set (hKey := hash_loop seed (remove_whitespace key)) in *.
  cbv zeta.
  unfold handed in Hh.
  rewrite (encode_ok _ (VString s) k s (js "string") ct) in Hh by done.
  cbv beta iota in Hh. cbn [fst] in Hh.
  change (draws (resumed_world (cw c))) with (draws (cw c)) in Hh.
  rewrite Hempty in Hd. change (map_set hKey (next_loc (cw c)) [])
    with [(hKey, next_loc (cw c))] in Hd.
  destruct Hready1 as [Hseed1 Htasks1 Hgate1 Hidle1].
  destruct c1 as [w1 q1]. simpl in *.
  unfold lift_world. simpl. rewrite read_prefix by done. simpl.
  split; [done|].
  set (w2 := upd_microtasks (λ l, l ++ [Resume (ContRead (next_promise w1) key)])
               (upd_next_promise S w1)).
  set (e := {| value_of := VString (to_hex (randomBytes (draws (cw c)) 16) ++ [colon]
                                    ++ to_hex ct ++ [colon] ++ js "string");
               expiresOn := exp; isObfusacated := true; type := type_of (VString s);
               checksum := createCheckSum key |}) in *.
  destruct (rotateKey_one_entry w2 hKey (next_loc (cw c)) e k
              (randomBytes (draws (cw c)) 16) ct (js "string") (s, VString s))
    as (w3 & -> & Hd3 & Hh3 & Hp3 & Hm3 & Hs3 & Hst3 & _); try done.
  { simpl. rewrite Hh. apply lookup_insert_eq. }
  { apply (type_of_no_colon (VString s)). }
  { simpl. congruence. }
  simpl in *. rewrite Htasks1 in Hm3. simpl in Hm3.
  split; [congruence|]. split.
  { eexists _, _. split; [rewrite Hd3, Hd; unfold map_get; simpl; by rewrite Z.eqb_refl|].
    split; [exact Hh3|]. done. }
  split; [done|].
  eexists. split; [by apply tick_cons|]. simpl.
  rewrite read_resume_settles. simpl.
  rewrite (read_body_obfuscated seed _ key (next_loc (cw c))
             {| value_of := VString s; expiresOn := exp; isObfusacated := true;
                type := type_of (VString s); checksum := createCheckSum key |}).
  - cbn [value_of]. rewrite decode_malformed by done. simpl. split; [congruence|].
    by rewrite Hst3.
  - destruct Hseed1 as [Hs1 Hne]. split; [|done]. simpl. by rewrite Hs3.
  - simpl. rewrite Hd3, Hd. unfold map_get. simpl. by rewrite Z.eqb_refl.
  - simpl. exact Hh3.
  - done.
Qed.

Lemma read_meets_entry_decoded_in_place_witness :
  let c1 := run_microtasks 3
              (lift_world (write (js "k") (VString (js "hello")) ExpNever true) Toy.fresh).2 in
  let c3 := (lift_world rotateKey (lift_world (read (js "k")) c1).2).2 in
  isPaused (cw c3) = false
  ∧ ∃ c4, tick c3 = Some c4
      ∧ settled (cw c4) = settled (cw c1)
          ++ [(next_promise (cw c1), Throw (Error "Invalid string to decode."))].
Proof.
  destruct (read_meets_entry_decoded_in_place 5381 Toy.fresh (js "k") (js "hello") ExpNever
              Toy.first_key (Toy.encrypted (js "hello")))
    as (_ & Hgate & _ & _ & c4 & Htick & _ & Hsettled).
  - apply toy_fresh_ready.
  - apply toy_fresh_ready.
  - vm_compute. reflexivity.
  - vm_compute. intros Hin.
    repeat (apply elem_of_cons in Hin as [Hin|Hin]; [discriminate|]).
    by apply elem_of_nil in Hin.
  - vm_compute. reflexivity.
  - vm_compute. reflexivity.
  - split; [exact Hgate|]. exists c4. split; [exact Htick|exact Hsettled].
Defined.

(** C6, at the input on which the code fails. On a new cache, whose
    constructor scheduled the rotation after 90 days, the rotation period
    is set to one day. The timer of the first schedule is still there: the
    setter hands [clearTimeout] the function that [setUnboundedTimeout]
    returned, not a timeout, and nothing is cancelled, where calling that
    function would have removed the timer. As time passes the key is
    rotated twice, after one day and after 90 days. *)
Theorem old_rotation_timer_still_fires `{Platform} seed :
  ∃ c0, new_Cache seed = Ok c0 ∧
    let old := {| tid := 0; due := 2147483647;
                  tcallback := Chain RotateKey 7776000000 0 |} in
    let c1 := run_microtasks 3
                (lift_world (set_defaultKeyRotationDuration (Duration_days 1)) c0).2 in
    let c2 := run_timers 10 c1 in
    timers (cw c0) = [old]
    ∧ existingRotatorTimerObject (cw c0) = Some {| ctimer := 0; ccell := 0 |}
    ∧ timers (call_canceller 1 {| ctimer := 0; ccell := 0 |} (cw c0)).2 = []
    ∧ timers (cw c1) = [old; {| tid := 1; due := 86400000; tcallback := CallAsync RotateKey |}]
    ∧ timers (cw c2) = []
    ∧ now (cw c2) = 7776000000
    ∧ emitted (cw c2) = [rotation_duration_changed; key_rotated; key_rotated].
Proof.
  eexists. split; [reflexivity|]. vm_compute. repeat split; reflexivity.
Qed.



(** A pass that fails on a full queue. On a new queue of capacity 1 a job
    whose promise is rejected is taken at once, and [job 2] fills the queue
    while the loop waits. The rejection ends the pass; from then on
    [enqueue] throws, no pass is started, and [job 2] is never run. *)
Lemma full_queue_strands_its_jobs :
  let st := Demo.run_resumes 10 Demo.full_behind_a_failure in
  Demo.errors st.2 = [Error "boom"]
  ∧ ProcessQueue.isExecuting st.1 = false
  ∧ Queue.size (ProcessQueue.queue st.1) = Queue.capacity (ProcessQueue.queue st.1)
  ∧ ProcessQueue.pending st.1 = [Demo.item 2]
  ∧ is_ok (ProcessQueue.enqueue Demo.console_error Demo.schedule_resume (Demo.job 3)
             None st.1 st.2) = false
  ∧ Demo.trace (Demo.run_resumes 10 (Demo.enqueue (Demo.job 3) st)).2 = [].
Proof. vm_compute. repeat split; reflexivity. Qed.


Lemma collision_deletes_and_discards_witness :
  ∃ w', write_job Toy.key_B 5863208 (VNumber (Int 2)) ExpNever false (js "number")
          (cw Toy.wrote_A) = (Ok (), w')
    ∧ map_has 5863208 (data w') = false
    ∧ heap w' = heap (cw Toy.wrote_A)
    ∧ console w' = console (cw Toy.wrote_A) ++ [LogWarn collision_warning].
Proof.
  destruct (collision_deletes_and_discards 5381 (cw Toy.wrote_A) Toy.key_B 5863208
              (VNumber (Int 2)) ExpNever false (js "number") 0%nat Toy.entry_A)
    as (w' & Hjob & _ & Hhas & _ & Hheap & _ & _ & Hcons).
  - split; [vm_compute; reflexivity|lia].
  - vm_compute. reflexivity.
  - vm_compute. reflexivity.
  - vm_compute. reflexivity.
  - vm_compute. discriminate.
  - exists w'. split; [exact Hjob|]. split; [exact Hhas|]. split; [exact Hheap|exact Hcons].
Defined.

Lemma non_cachable_write_rejected_witness :
  lift_world (write (js "k") VFunction ExpNever false) Toy.fresh =
    (Throw (CacheException "NON_CACHABLE_VALUE"
              "Invalid value. Functions, undefined, and symbols cannot be stored in cache."
              (Error "cannot be stored as cache.")), Toy.fresh).
Proof.
  apply (non_cachable_write_rejected 5381 Toy.fresh (js "k") VFunction ExpNever false).
  - split; [vm_compute; reflexivity|lia].
  - left. reflexivity.
Defined.

Lemma reads_never_check_the_checksum_witness :
  (has Toy.key_B (cw Toy.wrote_A)).1 = Ok true
  ∧ settled (cw (run_microtasks 1 (lift_world (read Toy.key_B) Toy.wrote_A).2))
    = settled (cw Toy.wrote_A) ++ [(next_promise (cw Toy.wrote_A), Ok (VNumber (Int 1)))].
Proof.
  destruct (reads_never_check_the_checksum 5381 Toy.fresh Toy.key_A Toy.key_B
              (VNumber (Int 1)) ExpNever) as [Hstored _].
  - apply toy_fresh_ready.
  - reflexivity.
  - vm_compute. reflexivity.
  - destruct (Hstored I) as (Hhas & _ & Hread & _).
    split; [exact Hhas|exact Hread].
Defined.

(** ** Further properties of the cache *)

Section MoreMapFacts.
Implicit Types (m : list (Z * nat)) (k : Z) (l : nat).

Lemma map_get_delete_ne k k' m : k ≠ k' → map_get k' (map_delete k m) = map_get k' m.
Proof.
  intros Hne. unfold map_get, map_delete. induction m as [|[k0 l0] m IH]; [done|].
  simpl. destruct (Z.eqb_spec k0 k) as [->|Hk]; simpl.
  - destruct (Z.eqb_spec k k'); [done|]. apply IH.
  - destruct (Z.eqb_spec k0 k'); [done|]. apply IH.
Qed.

Lemma map_get_set_ne k k' l m : k ≠ k' → map_get k' (map_set k l m) = map_get k' m.
Proof.
  intros Hne. unfold map_set. destruct (map_has k m).
  - unfold map_get. induction m as [|[k0 l0] m IH]; [done|].
    simpl. destruct (Z.eqb_spec k0 k) as [->|Hk]; simpl.
    + destruct (Z.eqb_spec k k'); [done|]. apply IH.
    + destruct (Z.eqb_spec k0 k'); [done|]. apply IH.
  - unfold map_get. induction m as [|[k0 l0] m IH]; simpl.
    + destruct (Z.eqb_spec k k'); done.
    + destruct (Z.eqb_spec k0 k'); [done|]. apply IH.
Qed.


Lemma map_set_length_new k l m :
  map_has k m = false → length (map_set k l m) = S (length m).
Proof. intros Hh. unfold map_set. rewrite Hh, length_app. simpl. lia. Qed.
End MoreMapFacts.

Section MoreMachine.
Context `{Platform}.
Implicit Types (w : world) (c : cache) (key : jsstring) (v : value object).

(** [decode] reads the key of the world and nothing else. *)
Lemma decode_reads_key string w w' :
  fideliusCharm w' = fideliusCharm w → (decode string w').1 = (decode string w).1.
Proof.
  intros Hk. unfold decode. destruct string; try done.
  destruct (split colon s) as [|p1 [|p2 [|p3 [|]]]]; try done.
  unfold bind, get, lift, throw. rewrite Hk.
  destruct (fideliusCharm w); [|done]. by destruct (decipher _ _ _).
Qed.

(** [read] after its [await] reads the seed, the bucket of the key, the
    entry object there and the key of the obfuscator. *)
Lemma read_body_reads seed key w w' :
  seeded seed w → seeded seed w' →
  map_get (hash_loop seed (remove_whitespace key)) (data w')
    = map_get (hash_loop seed (remove_whitespace key)) (data w) →
  heap w' = heap w → fideliusCharm w' = fideliusCharm w →
  (read_body key w').1 = (read_body key w).1.
Proof.
  intros Hs Hs' Hg Hh Hk. unfold read_body, bind.
  rewrite !(createHashKey_ok seed) by done.
  unfold get, deref, bind, get, ret, throw. rewrite Hg.
  destruct (map_get _ (data w)) as [l|]; [|done]. rewrite Hh.
  destruct (heap w !! l) as [e|]; [|done]. simpl.
  destruct (isObfusacated e); [|done]. by apply decode_reads_key.
Qed.


End MoreMachine.

(** X1. A read of a key whose bucket is empty. On a cache at rest, [read]
    returns a promise, and the micro-task it queued fulfils the promise
    with [null]; the map and the entry objects are what they were and the
    cache is at rest again. *)
Theorem read_of_absent_key_resolves_null `{Platform} seed c key :
  ready seed c →
  map_has (hash_loop seed (remove_whitespace key)) (data (cw c)) = false →
  let c' := run_microtasks 1 (lift_world (read key) c).2 in
  (lift_world (read key) c).1 = Ok (next_promise (cw c))
  ∧ settled (cw c') = settled (cw c) ++ [(next_promise (cw c), Ok VNull)]
  ∧ data (cw c') = data (cw c)
  ∧ heap (cw c') = heap (cw c)
  ∧ ready seed c'.
Proof.
  intros Hready Hhas. cbv zeta.
  destruct (read_drained seed c key Hready) as [Hp ->].
  split; [done|].
  unfold map_has in Hhas.
  destruct (map_get _ (data (cw c))) as [l|] eqn:Hget; [done|].
  rewrite (read_body_absent seed) by (first [apply Hready | done]).
  simpl. split; [done|]. split; [done|]. split; [done|].
  destruct Hready as [Hs Ht Hg Hi]. constructor; simpl; done.
Qed.

Lemma read_of_absent_key_resolves_null_witness :
  settled (cw (run_microtasks 1 (lift_world (read (js "nobody")) Toy.fresh).2))
  = settled (cw Toy.fresh) ++ [(next_promise (cw Toy.fresh), Ok VNull)].
Proof.
  apply (read_of_absent_key_resolves_null 5381 Toy.fresh (js "nobody")).
  - apply toy_fresh_ready.
  - vm_compute. reflexivity.
Defined.

(** X2. [delete(key)] with the seed set returns whether the bucket of the
    key held an entry, and empties that bucket: afterwards [has] of the
    key is false and [read] of the key finds nothing. Every key of another
    bucket is answered as before, the entry objects are untouched, and the
    timers are untouched: the cleanup that was scheduled for the deleted
    entry stays scheduled. *)
Theorem delete_empties_one_bucket `{Platform} seed w key :
  seeded seed w →
  let hKey := hash_loop seed (remove_whitespace key) in
  ∃ w', delete key w = (Ok (map_has hKey (data w)), w')
    ∧ (has key w').1 = Ok false
    ∧ (read_body key w').1 = Ok VNull
    ∧ (∀ key', hash_loop seed (remove_whitespace key') ≠ hKey →
         (has key' w').1 = (has key' w).1
         ∧ (read_body key' w').1 = (read_body key' w).1)
    ∧ heap w' = heap w
    ∧ timers w' = timers w.
Proof.
  intros Hs hKey. eexists. split; [by apply delete_ok|].
  set (w' := upd_data _ w).
  assert (seeded seed w') as Hs' by apply Hs.
  split; [rewrite (has_ok seed) by done; simpl; by rewrite map_has_delete_eq|].
  split; [rewrite (read_body_absent seed); [done|done|apply map_get_delete_eq]|].
  split; [|done].
  intros key' Hne. split.
  - rewrite !(has_ok seed) by done. simpl. unfold map_has.
    by rewrite map_get_delete_ne.
  - apply (read_body_reads seed); try done. simpl. by apply map_get_delete_ne.
Qed.

Lemma delete_empties_one_bucket_witness :
  ∃ w', delete Toy.key_B (cw Toy.wrote_A) = (Ok true, w') ∧ (has Toy.key_B w').1 = Ok false.
Proof.
  destruct (delete_empties_one_bucket 5381 (cw Toy.wrote_A) Toy.key_B)
    as (w' & Hd & Hh & _).
  - vm_compute. split; [reflexivity|discriminate].
  - exists w'. split; [|exact Hh]. rewrite Hd. vm_compute. reflexivity.
Defined.

(** X3. [destroy()] never fails; it leaves an empty map and an open gate,
    whatever the gate was, so that every key is absent afterwards. The
    timers and the micro-task queue are what they were: cleanups that are
    already scheduled stay scheduled, and so does the key rotation. *)
Theorem destroy_empties_the_cache `{Platform} seed w :
  seeded seed w →
  ∃ w', destroy w = (Ok (), w')
    ∧ data w' = []
    ∧ isPaused w' = false
    ∧ timers w' = timers w
    ∧ microtasks w' = microtasks w
    ∧ ∀ key, (has key w').1 = Ok false ∧ (read_body key w').1 = Ok VNull.
Proof.
  intros Hs. eexists. split; [done|]. simpl. split_and!; try done.
  intros key. split.
  - by rewrite (has_ok seed).
  - by rewrite (read_body_absent seed).
Qed.

Lemma destroy_empties_the_cache_witness :
  ∃ w', destroy (cw Toy.wrote_A) = (Ok (), w') ∧ (has Toy.key_A w').1 = Ok false.
Proof.
  destruct (destroy_empties_the_cache 5381 (cw Toy.wrote_A)) as (w' & Hd & _ & _ & _ & _ & Hk).
  - vm_compute. split; [reflexivity|discriminate].
  - exists w'. split; [exact Hd|]. apply Hk.
Defined.

(** X4. Without a hash seed (the variable is missing, is not a number, or
    is zero) no operation on keys works. [has] and [delete] throw, and
    [write] rejects, with the error "Cache hash key is not set.", before
    anything is changed, and [write] does so whatever the value is, a
    function or [undefined] included: the key is hashed before the value is
    looked at. [read] returns a promise, which its micro-task rejects with
    the same error. *)
Theorem unset_seed_fails_every_operation `{Platform} c key (v : value object) exp obfuscate :
  CACHE_HASH_KEY_INITALIZER (cw c) = None ∨ CACHE_HASH_KEY_INITALIZER (cw c) = Some 0 →
  microtasks (cw c) = [] →
  isPaused (cw c) = false →
  let E := Error "Cache hash key is not set." in
  lift_world (has key) c = (Throw E, c)
  ∧ lift_world (delete key) c = (Throw E, c)
  ∧ lift_world (write key v exp obfuscate) c = (Throw E, c)
  ∧ (lift_world (read key) c).1 = Ok (next_promise (cw c))
  ∧ settled (cw (run_microtasks 1 (lift_world (read key) c).2))
      = settled (cw c) ++ [(next_promise (cw c), Throw E)].
Proof.
  intros Hseed Htasks Hgate E. destruct c as [w q]. simpl in *.
  unfold lift_world, has, delete, write, bind. simpl.
  rewrite !createHashKey_unset by done.
  split; [done|]. split; [done|]. split; [done|].
  rewrite read_prefix by done. simpl. split; [done|].
  erewrite run_microtasks_cons; [|simpl; rewrite Htasks; done].
  simpl. rewrite read_resume_settles.
  unfold read_body, bind. rewrite createHashKey_unset by done. done.
Qed.

Lemma unset_seed_fails_every_operation_witness :
  lift_world (write (js "k") VFunction ExpNever false) Toy.unseeded
  = (Throw (Error "Cache hash key is not set."), Toy.unseeded).
Proof.
  apply (unset_seed_fails_every_operation Toy.unseeded (js "k") VFunction ExpNever false).
  - left. vm_compute. reflexivity.
  - vm_compute. reflexivity.
  - vm_compute. reflexivity.
Defined.



(** ** Writes, their promises and their timers *)

Section Timers.
Context `{Platform}.
Implicit Types (w : world) (c : cache) (key : jsstring) (v : value object)
  (t : timer) (l : list timer).

(** A timer that is due before all others fires first. *)
Lemma next_timer_due_last l t :
  Forall (λ t', due t < due t') l → next_timer_due (l ++ [t]) = Some t.
Proof.
  induction l as [|t0 l IH]; intros Hall; [done|].
  apply Forall_cons in Hall as [H0 Hall]. simpl. rewrite IH by done.
  destruct (Z.ltb_spec (due t) (due t0)); [done|lia].
Qed.

(** The timers carry distinct identifiers as long as they are older than
    the next identifier. *)
Lemma filter_newest l t n :
  Forall (λ t', (tid t' < n)%nat) l → tid t = n →
  filter (λ t', tid t' ≠ n) (l ++ [t]) = l.
Proof.
  intros Hall Hn. rewrite filter_app, (filter_singleton _ t []).
  destruct (decide (tid t ≠ n)) as [Hne|_]; [done|].
  rewrite app_nil_r. induction l as [|t0 l IH]; [done|].
  apply Forall_cons in Hall as [H0 Hall].
  rewrite filter_cons_True by lia. by rewrite IH.
Qed.

(** [encode] and the value that [write] hands over leave the clock and
    the timers alone. *)
Lemma encode_clock v w :
  now (encode v w).2 = now w ∧ next_timer (encode v w).2 = next_timer w
  ∧ cells (encode v w).2 = cells w.
Proof.
  unfold encode, emitter, bind, run_hooks, try_catch, lift, random_bytes, bind, get,
    modify, ret, throw, emitter_rest, try_catch, emit, bind, modify, run_hooks,
    console_error, queueMicrotask, modify.
  simpl.
  destruct (converttostring v) as [[sv ty]|e]; simpl; [|done].
  destruct (fideliusCharm w) as [k|]; simpl; [|done].
  destruct sv; simpl; try done.
  destruct (cipher k (randomBytes (draws w) 16) s) as [ct|e]; simpl; done.
Qed.

Lemma handed_clock obfuscate v w :
  now (handed obfuscate v w).2 = now w
  ∧ next_timer (handed obfuscate v w).2 = next_timer w
  ∧ cells (handed obfuscate v w).2 = cells w.
Proof.
  unfold handed. destruct obfuscate; [|done].
  pose proof (encode_clock v w) as Hc.
  destruct (encode v w) as [[val|e] w']; simpl in *; done.
Qed.

(** A write on a cache at rest, followed by the micro-tasks it queued:
    the clock, the timers and the cancellation cells are those that the
    job left. *)
Lemma write_drained_clock seed c key v exp obfuscate :
  ready seed c → non_cachable (type_of v) = false →
  let c' := run_microtasks 3 (lift_world (write key v exp obfuscate) c).2 in
  let hKey := hash_loop seed (remove_whitespace key) in
  let h := handed obfuscate v (resumed_world (cw c)) in
  let j := write_job key hKey h.1 exp obfuscate (type_of v) h.2 in
  (lift_world (write key v exp obfuscate) c).1 = Ok (next_promise (cw c))
  ∧ now (cw c') = now j.2
  ∧ next_timer (cw c') = next_timer j.2
  ∧ cells (cw c') = cells j.2.
Proof.
  intros [Hseed Htasks Hgate Hidle] Hcach.
  destruct c as [w q]. simpl in *.
  unfold lift_world. simpl. rewrite (write_prefix seed) by done. simpl.
  split; [done|].
  set (p := next_promise w).
  set (hKey := hash_loop seed (remove_whitespace key)).
  erewrite run_microtasks_cons; [|simpl; rewrite Htasks; done].
  simpl. unfold write_resume. simpl.
  match goal with |- context [upd_microtasks (λ _, []) ?w0] =>
    change (upd_microtasks (λ _, []) w0) with (resumed_world w) end.
  assert (∃ val w2 ts,
    (if obfuscate
     then try_catch (encode v)
            (λ err, throw (CacheException "UNABLE_TO_OBFUSCATE" "Failed to obfuscate value." err))
     else ret v) (resumed_world w) = (Ok val, w2)
    ∧ handed obfuscate v (resumed_world w) = (val, w2)
    ∧ microtasks w2 = ts ∧ (ts = [] ∨ ts = [EmitterResume obfuscated])
    ∧ same_but_encoding (resumed_world w) w2) as (val & w2 & ts & -> & -> & Hts & Hcase & Hsame).
  { unfold handed. destruct obfuscate.
    - destruct (encode_total v (resumed_world w)) as (val & w' & ts & He & Hm & Hc & Hs).
      exists val, w', ts. unfold try_catch. rewrite He. simpl in Hm. done.
    - exists v, (resumed_world w), []. repeat split; auto. }
  simpl.
  destruct (enqueue_idle pq_console_error pq_schedule_resume q w2
              (as_job (write_job key hKey val exp obfuscate (type_of v))) Hidle)
    as (q' & Hwf' & Hsz' & Hcap' & ->).
  pose proof (write_job_frame key hKey val exp obfuscate (type_of v) w2) as Hframe.
  unfold as_job.
  destruct (write_job key hKey val exp obfuscate (type_of v) w2) as [[[]|e] w3] eqn:Hjob;
    simpl in *.
  all: destruct Hframe as (Hf1 & _).
  all: destruct Hcase as [->| ->].
  - erewrite run_microtasks_cons; [|simpl; rewrite Hf1, Hts; done].
    simpl. rewrite ?resume_empty by done.
    rewrite ?run_microtasks_nil by done. done.
  - erewrite run_microtasks_cons; [|simpl; rewrite Hf1, Hts; done].
    simpl.
    erewrite run_microtasks_cons; [|simpl; done].
    simpl. rewrite ?resume_empty by done.
    rewrite ?run_microtasks_nil by done. done.
  - rewrite run_microtasks_nil by (simpl; rewrite Hf1, Hts; done). done.
  - erewrite run_microtasks_cons; [|simpl; rewrite Hf1, Hts; done].
    simpl. rewrite ?run_microtasks_nil by done. done.
Qed.

(** The job of a write that the bucket accepts: the entry is stored, and
    then the cleanup is scheduled. *)
Lemma write_job_accepted key hKey _value exp obfuscate typeOfValue w :
  accepts hKey key w →
  write_job key hKey _value exp obfuscate typeOfValue w =
    match exp with
    | ExpAfter d => runCacheCleanup hKey d
    | _ => ret ()
    end (upd_data (map_set hKey (next_loc w))
           (upd_next_loc S
              (upd_heap (insert (next_loc w)
                           {| value_of := _value; expiresOn := exp;
                              isObfusacated := obfuscate; type := typeOfValue;
                              checksum := createCheckSum key |}) w))).
Proof.
  intros Hacc. unfold write_job, bind.
  rewrite accepts_validates by done.
  unfold alloc, bind, get, modify, ret. simpl. by destruct exp.
Qed.

(** [#runCacheCleanup] for a duration that one [setTimeout] covers; a
    duration under one millisecond runs after one millisecond. *)
Lemma runCacheCleanup_short hKey d w :
  toMilliseconds d <= maxDelay →
  runCacheCleanup hKey d w =
    (Ok (),
     upd_next_timer S
       (upd_timers
          (λ l, l ++ [{| tid := next_timer w;
                         due := now w + Z.max 1 (toMilliseconds d);
                         tcallback :=
                           CallAsync (ExpireEntry hKey d
                                        {| ctimer := next_timer w;
                                           ccell := length (cells w) |}) |}])
          (upd_cells (λ cs, cs ++ [None]) w))).
Proof.
  intros Hd. unfold runCacheCleanup, bind, get, setUnboundedTimeout.
  unfold maxDelay, maxTotalDelay in *.
  destruct (Z.gtb_spec (toMilliseconds d) (10 ^ 12)); [lia|].
  destruct (Z.gtb_spec (toMilliseconds d) 2147483647); [lia|].
  unfold bind, get, modify, setTimeout, bind, get, modify, ret, TIMEOUT_MAX. simpl.
  replace (if (1 <=? toMilliseconds d) && (toMilliseconds d <=? 2147483647)
           then toMilliseconds d else 1) with (Z.max 1 (toMilliseconds d)); [done|].
  destruct (Z.leb_spec 1 (toMilliseconds d));
    destruct (Z.leb_spec (toMilliseconds d) 2147483647); simpl; lia.
Qed.


(** The job of a write sets a timer only to clean up after a duration. *)
Lemma write_job_no_timer key hKey _value exp obfuscate typeOfValue w :
  exp = ExpNever ∨ exp = ExpNull →
  let w' := (write_job key hKey _value exp obfuscate typeOfValue w).2 in
  timers w' = timers w ∧ now w' = now w ∧ next_timer w' = next_timer w
  ∧ cells w' = cells w.
Proof.
  intros Hexp. unfold write_job, bind, validateKeyCheckSum, bind, get, deref, bind, get,
    ret, throw.
  destruct (map_get hKey (data w)) as [l|]; [destruct (heap w !! l) as [e|]|]; simpl;
    try done.
  - destruct (str_eqb (checksum e) (createCheckSum key)); simpl.
    + unfold alloc, bind, get, modify, ret. simpl. by destruct Hexp as [-> | ->].
    + unfold console_warn, modify, delete, bind, createHashKey, bind, get, throw, ret,
        modify. simpl.
      destruct (CACHE_HASH_KEY_INITALIZER w) as [[| |]|]; simpl; done.
  - unfold alloc, bind, get, modify, ret. simpl. by destruct Hexp as [-> | ->].
Qed.

(** A write without a duration, drained on a cache at rest. *)
Lemma timerless_write seed c key v exp obfuscate :
  ready seed c →
  non_cachable (type_of v) = false →
  exp = ExpNever ∨ exp = ExpNull →
  let c' := run_microtasks 3 (lift_world (write key v exp obfuscate) c).2 in
  timers (cw c') = timers (cw c)
  ∧ now (cw c') = now (cw c)
  ∧ next_timer (cw c') = next_timer (cw c).
Proof.
  intros Hready Hcach Hexp c'.
  destruct (write_drained_clock seed c key v exp obfuscate Hready Hcach)
    as (_ & Hn & Ht & _).
  destruct (write_drained seed c key v exp obfuscate Hready Hcach)
    as (c1 & Hc1 & _ & _ & _ & _ & Htm & _).
  fold c' in Hc1, Hn, Ht. subst c1.
  cbv zeta in Hn, Ht, Htm.
  destruct (write_job_no_timer key (hash_loop seed (remove_whitespace key))
              (handed obfuscate v (resumed_world (cw c))).1 exp obfuscate (type_of v)
              (handed obfuscate v (resumed_world (cw c))).2 Hexp) as (Hj1 & Hj2 & Hj3 & _).
  pose proof (handed_frame obfuscate v (resumed_world (cw c)))
    as (_ & _ & _ & _ & _ & _ & _ & _ & Hht).
  destruct (handed_clock obfuscate v (resumed_world (cw c))) as (Hh1 & Hh2 & _).
  rewrite Htm, Hn, Ht, Hj1, Hj2, Hj3, Hht, Hh1, Hh2. done.
Qed.

End Timers.

(** X6. A write on a cache at rest is always fulfilled. Whatever the value
    (other than a function, [undefined] or a symbol), the expiration and
    the flag, [write] returns a promise and the micro-tasks it queued fulfil
    it with [undefined]; the cache is at rest again and the key of the
    obfuscator is what it was. What the job of the write met, a colliding
    entry, a duration too long to schedule, a value that could not be
    encrypted, is not reported to the caller: at most the console is told,
    by the drain loop, of what the job threw. *)
Theorem write_on_a_cache_at_rest_is_fulfilled `{Platform} seed c key (v : value object)
    exp obfuscate :
  ready seed c →
  non_cachable (type_of v) = false →
  let c' := run_microtasks 3 (lift_world (write key v exp obfuscate) c).2 in
  (lift_world (write key v exp obfuscate) c).1 = Ok (next_promise (cw c))
  ∧ settled (cw c') = settled (cw c) ++ [(next_promise (cw c), Ok VUndefined)]
  ∧ ready seed c'
  ∧ fideliusCharm (cw c') = fideliusCharm (cw c).
Proof.
  intros Hready Hcach c'.
  destruct (write_drained_clock seed c key v exp obfuscate Hready Hcach) as (Hp & _).
  destruct (write_drained seed c key v exp obfuscate Hready Hcach)
    as (c1 & Hc1 & Hready1 & _ & _ & _ & _ & Hk & Hs & _).
  fold c' in Hc1. subst c1. done.
Qed.

Lemma write_on_a_cache_at_rest_is_fulfilled_witness :
  settled (cw Toy.wrote_A_then_B)
  = settled (cw Toy.wrote_A) ++ [(next_promise (cw Toy.wrote_A), Ok VUndefined)].
Proof.
  apply (write_on_a_cache_at_rest_is_fulfilled 5381 Toy.wrote_A Toy.key_B
           (VNumber (Int 2)) ExpNever false).
  - apply (write_on_a_cache_at_rest_is_fulfilled 5381 Toy.fresh Toy.key_A
           (VNumber (Int 1)) ExpNever false); [apply toy_fresh_ready|reflexivity].
  - reflexivity.
Defined.

(** X7. A write whose expiration is ["never"] or [null] sets no timer: once
    it has drained on a cache at rest, the timers, the clock and the next
    timer identifier are what they were, whether the entry was stored or a
    collision was met. *)
Theorem write_without_duration_sets_no_timer `{Platform} seed c key (v : value object)
    exp obfuscate :
  ready seed c →
  non_cachable (type_of v) = false →
  exp = ExpNever ∨ exp = ExpNull →
  let c' := run_microtasks 3 (lift_world (write key v exp obfuscate) c).2 in
  timers (cw c') = timers (cw c)
  ∧ now (cw c') = now (cw c)
  ∧ next_timer (cw c') = next_timer (cw c).
Proof. apply timerless_write. Qed.

Lemma write_without_duration_sets_no_timer_witness :
  timers (cw Toy.wrote_A) = timers (cw Toy.fresh).
Proof.
  apply (write_without_duration_sets_no_timer 5381 Toy.fresh Toy.key_A
           (VNumber (Int 1)) ExpNever false).
  - apply toy_fresh_ready.
  - reflexivity.
  - by left.
Defined.

Section Expiry.
Context `{Platform}.
Implicit Types (w : world) (c : cache) (key : jsstring) (v : value object).

(** A write with a duration that one [setTimeout] covers, drained on a
    cache at rest whose bucket accepts it. *)
Lemma short_lived_write seed c key v d obfuscate :
  ready seed c → non_cachable (type_of v) = false →
  accepts (hash_loop seed (remove_whitespace key)) key (cw c) →
  toMilliseconds d <= maxDelay →
  let hKey := hash_loop seed (remove_whitespace key) in
  let c1 := run_microtasks 3 (lift_world (write key v (ExpAfter d) obfuscate) c).2 in
  ready seed c1
  ∧ data (cw c1) = map_set hKey (next_loc (cw c)) (data (cw c))
  ∧ timers (cw c1) = timers (cw c) ++ [cleanup_timer hKey d (cw c)]
  ∧ now (cw c1) = now (cw c)
  ∧ next_timer (cw c1) = S (next_timer (cw c)).
Proof.
  intros Hready Hcach Hacc Hd hKey c1.
  destruct (write_stored seed c key v (ExpAfter d) obfuscate Hready Hcach Hacc)
    as (Hready1 & Hd1 & _).
  destruct (write_drained_clock seed c key v (ExpAfter d) obfuscate Hready Hcach)
    as (_ & Hn & Ht & Hcl).
  destruct (write_drained seed c key v (ExpAfter d) obfuscate Hready Hcach)
    as (c' & Hc' & _ & _ & _ & _ & Htm & _).
  fold c1 hKey in Hready1, Hd1, Hn, Ht, Hcl, Hc'. subst c'.
  cbv zeta in Hn, Ht, Hcl, Htm. fold hKey in Hn, Ht, Hcl, Htm.
  pose proof (handed_frame obfuscate v (resumed_world (cw c)))
    as (_ & _ & _ & _ & _ & Hhd & Hhh & _ & Hht).
  destruct (handed_clock obfuscate v (resumed_world (cw c))) as (Hh1 & Hh2 & Hh3).
  rewrite write_job_accepted in Hn, Ht, Hcl, Htm
    by (eapply accepts_frame; [..|exact Hacc]; by rewrite ?Hhd, ?Hhh).
  rewrite runCacheCleanup_short in Hn, Ht, Hcl, Htm by done.
  simpl in Hn, Ht, Hcl, Htm.
  rewrite Hh1, Hh2, Hh3, Hht in Htm. rewrite Hh1 in Hn. rewrite Hh2 in Ht.
  split; [done|]. split; [done|]. split; [exact Htm|]. split; [exact Hn|exact Ht].
Qed.

(** The cleanup timer fires: the bucket is emptied, whatever it holds by
    then. *)
Lemma cleanup_fires c hKey d w0 ts :
  timers (cw c) = ts ++ [cleanup_timer hKey d w0] →
  Forall (λ t, due (cleanup_timer hKey d w0) < due t
               ∧ (tid t < tid (cleanup_timer hKey d w0))%nat) ts →
  now (cw c) = now w0 →
  ∃ c', fire_next_timer c = Some c'
    ∧ now (cw c') = now w0 + Z.max 1 (toMilliseconds d)
    ∧ data (cw c') = map_delete hKey (data (cw c))
    ∧ heap (cw c') = heap (cw c)
    ∧ timers (cw c') = ts
    ∧ console (cw c') = console (cw c) ++ [LogInfo expired_info]
    ∧ microtasks (cw c') = microtasks (cw c) ++ [AfterAwait]
    ∧ CACHE_HASH_KEY_INITALIZER (cw c') = CACHE_HASH_KEY_INITALIZER (cw c)
    ∧ fideliusCharm (cw c') = fideliusCharm (cw c)
    ∧ writeQueue c' = writeQueue c.
Proof.
  intros Ht Hall Hnow. unfold fire_next_timer. rewrite Ht.
  rewrite next_timer_due_last by (eapply Forall_impl; [exact Hall|]; by intros ? [? _]).
  eexists. split; [done|]. simpl. rewrite Ht.
  rewrite (filter_newest ts _ (next_timer w0))
    by (first [done | eapply Forall_impl; [exact Hall|]; by intros ? [_ ?]]).
  rewrite Hnow. split_and!; try done. lia.
Qed.

End Expiry.

(** X8. An entry written with a duration expires when its timer fires.
    Let a write with a duration of at most 2147483647 ms drain on a cache
    at rest whose bucket accepts it, and let every other timer be due
    later. After the write [has] of the key is true. The next timer to
    fire is the cleanup: the clock then stands at the time of the write
    plus the duration (plus one millisecond for a duration under one
    millisecond), the bucket is empty, so that [has] is false and [read]
    finds nothing, the other timers are untouched, and the console is
    told. *)
Theorem entry_expires_when_its_timer_fires `{Platform} seed c key (v : value object) d
    obfuscate :
  ready seed c →
  non_cachable (type_of v) = false →
  accepts (hash_loop seed (remove_whitespace key)) key (cw c) →
  toMilliseconds d <= maxDelay →
  Forall (λ t, now (cw c) + Z.max 1 (toMilliseconds d) < due t
               ∧ (tid t < next_timer (cw c))%nat) (timers (cw c)) →
  let c1 := run_microtasks 3 (lift_world (write key v (ExpAfter d) obfuscate) c).2 in
  (has key (cw c1)).1 = Ok true
  ∧ ∃ c2, fire_next_timer c1 = Some c2
      ∧ now (cw c2) = now (cw c) + Z.max 1 (toMilliseconds d)
      ∧ (has key (cw c2)).1 = Ok false
      ∧ (read_body key (cw c2)).1 = Ok VNull
      ∧ timers (cw c2) = timers (cw c)
      ∧ console (cw c2) = console (cw c1) ++ [LogInfo expired_info].
Proof.
  intros Hready Hcach Hacc Hd Hall c1.
  destruct (short_lived_write seed c key v d obfuscate Hready Hcach Hacc Hd)
    as (Hready1 & Hd1 & Ht1 & Hn1 & _).
  fold c1 in Hready1, Hd1, Ht1, Hn1.
  split.
  { rewrite (has_ok seed) by apply Hready1. simpl. by rewrite Hd1, map_has_set_eq. }
  destruct (cleanup_fires c1 _ d (cw c) (timers (cw c)) Ht1 Hall Hn1)
    as (c2 & Hfire & Hn2 & Hd2 & _ & Ht2 & Hc2 & _ & Hs2 & _).
  exists c2. split; [done|]. split; [done|].
  assert (seeded seed (cw c2)) as Hseed2.
  { destruct Hready1 as [[Hs Hne] _ _ _]. split; [congruence|done]. }
  split; [rewrite (has_ok seed) by done; simpl; by rewrite Hd2, map_has_delete_eq|].
  split; [|done].
  rewrite (read_body_absent seed); [done|done|]. rewrite Hd2. apply map_get_delete_eq.
Qed.

Lemma entry_expires_when_its_timer_fires_witness :
  let c1 := run_microtasks 3
              (lift_world (write (js "k") (VNumber (Int 1))
                             (ExpAfter {| toMilliseconds := 1000 |}) false) Toy.fresh).2 in
  (has (js "k") (cw c1)).1 = Ok true
  ∧ ∃ c2, fire_next_timer c1 = Some c2 ∧ now (cw c2) = 1000
          ∧ (has (js "k") (cw c2)).1 = Ok false.
Proof.
  destruct (entry_expires_when_its_timer_fires 5381 Toy.fresh (js "k") (VNumber (Int 1))
              {| toMilliseconds := 1000 |} false)
    as (Hhas & c2 & Hfire & Hnow & Hgone & _).
  - apply toy_fresh_ready.
  - reflexivity.
  - exact I.
  - vm_compute. discriminate.
  - vm_compute. apply Forall_cons_2; [split; [reflexivity|apply le_n]|apply Forall_nil_2].
  - split; [exact Hhas|]. exists c2. split; [exact Hfire|]. split; [exact Hnow|exact Hgone].
Defined.

(** X9. A cleanup outlives the entry it was set for. A key is written with
    a duration, and written again, with the expiration ["never"], before
    the duration is over. The second write replaces the entry and sets no
    timer, but the timer of the first write is still there and deletes by
    bucket: when it fires, the second entry is gone. *)
Theorem cleanup_outlives_its_entry `{Platform} seed c key (v1 v2 : value object) d
    obfuscate :
  ready seed c →
  non_cachable (type_of v1) = false →
  non_cachable (type_of v2) = false →
  accepts (hash_loop seed (remove_whitespace key)) key (cw c) →
  toMilliseconds d <= maxDelay →
  Forall (λ t, now (cw c) + Z.max 1 (toMilliseconds d) < due t
               ∧ (tid t < next_timer (cw c))%nat) (timers (cw c)) →
  let c1 := run_microtasks 3 (lift_world (write key v1 (ExpAfter d) obfuscate) c).2 in
  let c2 := run_microtasks 3 (lift_world (write key v2 ExpNever false) c1).2 in
  (read_body key (cw c2)).1 = Ok v2
  ∧ ∃ c3, fire_next_timer c2 = Some c3
      ∧ now (cw c3) = now (cw c) + Z.max 1 (toMilliseconds d)
      ∧ (has key (cw c3)).1 = Ok false
      ∧ (read_body key (cw c3)).1 = Ok VNull.
Proof.
  intros Hready Hcach1 Hcach2 Hacc Hd Hall c1 c2.
  destruct (short_lived_write seed c key v1 d obfuscate Hready Hcach1 Hacc Hd)
    as (Hready1 & Hd1 & Ht1 & Hn1 & _).
  destruct (write_stored seed c key v1 (ExpAfter d) obfuscate Hready Hcach1 Hacc)
    as (_ & _ & Hh1 & _).
  fold c1 in Hready1, Hd1, Ht1, Hn1, Hh1.
  assert (accepts (hash_loop seed (remove_whitespace key)) key (cw c1)) as Hacc1.
  { unfold accepts. rewrite Hd1, map_get_set_eq.
    eexists. split; [rewrite Hh1; apply lookup_insert_eq|done]. }
  destruct (write_stored seed c1 key v2 ExpNever false Hready1 Hcach2 Hacc1)
    as (Hready2 & Hd2 & Hh2 & _).
  destruct (timerless_write seed c1 key v2 ExpNever false Hready1 Hcach2)
    as (Ht2 & Hn2 & _); [by left|].
  fold c2 in Hready2, Hd2, Hh2, Ht2, Hn2.
  split.
  { erewrite (read_body_plain seed (cw c2) key (next_loc (cw c1)));
      [|apply Hready2|rewrite Hd2; apply map_get_set_eq
       |rewrite Hh2; apply lookup_insert_eq|done].
    done. }
  rewrite Ht1 in Ht2. rewrite Hn1 in Hn2.
  destruct (cleanup_fires c2 _ d (cw c) (timers (cw c)) Ht2 Hall Hn2)
    as (c3 & Hfire & Hn3 & Hd3 & _ & _ & _ & _ & Hs3 & _).
  exists c3. split; [done|]. split; [done|].
  assert (seeded seed (cw c3)) as Hseed3.
  { destruct Hready2 as [[Hs Hne] _ _ _]. split; [congruence|done]. }
  split; [rewrite (has_ok seed) by done; simpl; by rewrite Hd3, map_has_delete_eq|].
  rewrite (read_body_absent seed); [done|done|]. rewrite Hd3. apply map_get_delete_eq.
Qed.

Lemma cleanup_outlives_its_entry_witness :
  let c1 := run_microtasks 3
              (lift_world (write (js "k") (VNumber (Int 1))
                             (ExpAfter {| toMilliseconds := 1000 |}) false) Toy.fresh).2 in
  let c2 := run_microtasks 3
              (lift_world (write (js "k") (VNumber (Int 2)) ExpNever false) c1).2 in
  (read_body (js "k") (cw c2)).1 = Ok (VNumber (Int 2))
  ∧ ∃ c3, fire_next_timer c2 = Some c3 ∧ (has (js "k") (cw c3)).1 = Ok false.
Proof.
  destruct (cleanup_outlives_its_entry 5381 Toy.fresh (js "k") (VNumber (Int 1))
              (VNumber (Int 2)) {| toMilliseconds := 1000 |} false)
    as (Hread & c3 & Hfire & _ & Hgone & _).
  - apply toy_fresh_ready.
  - reflexivity.
  - reflexivity.
  - exact I.
  - vm_compute. discriminate.
  - vm_compute. apply Forall_cons_2; [split; [reflexivity|apply le_n]|apply Forall_nil_2].
  - split; [exact Hread|]. exists c3. split; [exact Hfire|exact Hgone].
Defined.



(** ** Further properties of the write serializer *)

Section Serializer.
Context {W R : Type}.
Context (console_error : string → exn → W → W) (schedule_resume : W → W).
Implicit Types (s : ProcessQueue.t W R) (w : W).

(** [enqueue] while a pass is running. *)
Lemma enqueue_busy s w f cb :
  Queue.wf (ProcessQueue.queue s) →
  ProcessQueue.isExecuting s = true →
  Queue.size (ProcessQueue.queue s) ≠ Queue.capacity (ProcessQueue.queue s) →
  ∃ s', ProcessQueue.enqueue console_error schedule_resume f cb s w = Ok (s', w)
    ∧ ProcessQueue.pending s' =
        ProcessQueue.pending s
        ++ [Some {| ProcessQueue.function := f; ProcessQueue.callback := cb |}]
    ∧ ProcessQueue.isExecuting s' = true
    ∧ ProcessQueue.suspended s' = ProcessQueue.suspended s
    ∧ Queue.wf (ProcessQueue.queue s')
    ∧ Queue.size (ProcessQueue.queue s') = Queue.size (ProcessQueue.queue s) + 1
    ∧ Queue.capacity (ProcessQueue.queue s') = Queue.capacity (ProcessQueue.queue s).
Proof.
  intros Hwf Hex Hroom.
  destruct (enqueue_ok None (ProcessQueue.queue s)
              (Some {| ProcessQueue.function := f; ProcessQueue.callback := cb |}) Hwf Hroom)
    as (q1 & Hen & Hwf1 & Hc1 & Hs1 & Hcap1).
  unfold ProcessQueue.enqueue. rewrite Hen. simpl. rewrite Hex.
  eexists. split; [done|]. unfold ProcessQueue.pending. simpl. done.
Qed.

End Serializer.

(** X11. [enqueue] during a pass only queues. While [execute] is running
    (it is suspended at an [await]), [enqueue] on a queue that is not full
    puts the job behind those that wait and returns: the job is not run,
    the world is what it was, and the suspended loop is untouched. *)
Theorem enqueue_during_a_pass_only_queues {W R : Type}
    (console_error : string → exn → W → W) (schedule_resume : W → W)
    (s : ProcessQueue.t W R) (w : W) f cb :
  Queue.wf (ProcessQueue.queue s) →
  ProcessQueue.isExecuting s = true →
  Queue.size (ProcessQueue.queue s) ≠ Queue.capacity (ProcessQueue.queue s) →
  ∃ s', ProcessQueue.enqueue console_error schedule_resume f cb s w = Ok (s', w)
    ∧ ProcessQueue.pending s' =
        ProcessQueue.pending s
        ++ [Some {| ProcessQueue.function := f; ProcessQueue.callback := cb |}]
    ∧ ProcessQueue.isExecuting s' = true
    ∧ ProcessQueue.suspended s' = ProcessQueue.suspended s
    ∧ Queue.wf (ProcessQueue.queue s').
Proof.
  intros Hwf Hex Hroom.
  destruct (enqueue_busy console_error schedule_resume s w f cb Hwf Hex Hroom)
    as (s' & He & Hp & Hx & Hs & Hwf' & _).
  by exists s'.
Qed.

Lemma enqueue_during_a_pass_only_queues_witness :
  ∃ s', ProcessQueue.enqueue Demo.console_error Demo.schedule_resume (Demo.job 7) None
          Demo.three_jobs.1 Demo.three_jobs.2 = Ok (s', Demo.three_jobs.2)
    ∧ ProcessQueue.isExecuting s' = true.
Proof.
  destruct (enqueue_during_a_pass_only_queues Demo.console_error Demo.schedule_resume
              Demo.three_jobs.1 Demo.three_jobs.2 (Demo.job 7) None)
    as (s' & He & _ & Hx & _).
  - constructor; vm_compute; try reflexivity; try (intros _; reflexivity);
      [split; discriminate|left; split; [discriminate|reflexivity]].
  - reflexivity.
  - vm_compute. discriminate.
  - by exists s'.
Defined.

Section DemoFacts.
Implicit Types (s : ProcessQueue.t Demo.world unit) (w : Demo.world).

Lemma demo_fill ns :
  ∀ s w,
    Queue.wf (ProcessQueue.queue s) →
    ProcessQueue.isExecuting s = true →
    Queue.size (ProcessQueue.queue s) + Z.of_nat (length ns)
      <= Queue.capacity (ProcessQueue.queue s) →
    ∃ s', Demo.enqueue_all ns (s, w) = (s', w)
      ∧ Queue.wf (ProcessQueue.queue s')
      ∧ ProcessQueue.pending s' = ProcessQueue.pending s ++ (Demo.item <$> ns)
      ∧ ProcessQueue.isExecuting s' = true
      ∧ ProcessQueue.suspended s' = ProcessQueue.suspended s
      ∧ Queue.capacity (ProcessQueue.queue s') = Queue.capacity (ProcessQueue.queue s).
Proof.
  induction ns as [|n ns IH]; intros s w Hwf Hex Hroom.
  - exists s. simpl. rewrite app_nil_r. done.
  - simpl in Hroom.
    destruct (enqueue_busy Demo.console_error Demo.schedule_resume s w (Demo.job n) None
                Hwf Hex ltac:(lia)) as (s1 & He & Hp1 & Hx1 & Hs1 & Hwf1 & Hsz1 & Hcap1).
    destruct (IH s1 w Hwf1 Hx1 ltac:(lia)) as (s' & Hf & Hwf' & Hp' & Hx' & Hs' & Hcap').
    exists s'. unfold Demo.enqueue_all in *. simpl.
    unfold Demo.enqueue at 2. simpl. rewrite He. rewrite Hf.
    split; [done|]. split; [done|]. split.
    { rewrite Hp', Hp1, <- app_assoc. done. }
    split; [done|]. split; congruence.
Qed.

Lemma demo_drain ns :
  ∀ s w fuel,
    Queue.wf (ProcessQueue.queue s) →
    ProcessQueue.pending s = Demo.item <$> ns →
    ProcessQueue.isExecuting s = true →
    ProcessQueue.suspended s = Some (ProcessQueue.AwaitItem (inl ()) None) →
    Demo.resumes w = 1%nat →
    (length ns < fuel)%nat →
    ∃ s' w', Demo.run_resumes fuel (s, w) = (s', w')
      ∧ Demo.trace w' = Demo.trace w ++ ns
      ∧ Demo.errors w' = Demo.errors w
      ∧ Demo.resumes w' = 0%nat
      ∧ ProcessQueue.isExecuting s' = false
      ∧ ProcessQueue.suspended s' = None
      ∧ Queue.wf (ProcessQueue.queue s')
      ∧ Queue.size (ProcessQueue.queue s') = 0
      ∧ Queue.capacity (ProcessQueue.queue s') = Queue.capacity (ProcessQueue.queue s).
Proof.
  induction ns as [|n ns IH]; intros s w fuel Hwf Hpend Hex Hsus Hres Hfuel.
  - destruct fuel as [|fuel]; [simpl in Hfuel; lia|].
    simpl. rewrite Hres. unfold ProcessQueue.resume. rewrite Hsus.
    assert (Queue.size (ProcessQueue.queue s) = 0) as Hz.
    { rewrite <- (contents_length None) by apply Hwf.
      unfold ProcessQueue.pending in Hpend. by rewrite Hpend. }
    rewrite loop_empty by done.
    eexists _, _. split; [by destruct fuel|]. simpl. rewrite app_nil_r. done.
  - destruct fuel as [|fuel]; [simpl in Hfuel; lia|].
    simpl. rewrite Hres. unfold ProcessQueue.resume. rewrite Hsus.
    destruct (loop_returns Demo.console_error Demo.schedule_resume s
                {| Demo.trace := Demo.trace w; Demo.errors := Demo.errors w;
                   Demo.resumes := 0 |}
                {| ProcessQueue.function := Demo.job n; ProcessQueue.callback := None |}
                (fmap (M:=list) Demo.item ns) () _ Hwf Hpend eq_refl)
      as (q' & -> & Hwf' & Hc' & Hsz' & Hcap').
    destruct (IH (ProcessQueue.mk q' (ProcessQueue.isExecuting s)
                    (Some (ProcessQueue.AwaitItem (inl ()) None)))
                (Demo.schedule_resume
                   {| Demo.trace := Demo.trace w ++ [n]; Demo.errors := Demo.errors w;
                      Demo.resumes := 0 |}) fuel)
      as (s' & w' & Hrun & Ht & He & Hr & Hx' & Hs' & Hwf'' & Hz' & Hcap'');
      try done; [simpl in Hfuel; lia|].
    exists s', w'. simpl in *. split; [exact Hrun|].
    rewrite Ht, <- app_assoc. split; [done|]. split; [done|]. split; [done|].
    split; [done|]. split; [done|]. split; [done|]. split; [done|]. congruence.
Qed.

End DemoFacts.

(** X12. The jobs run in the order in which they were enqueued. On a new
    queue of capacity [C], the jobs [n :: ns] are enqueued in one
    synchronous run, as many as the queue takes (the first leaves the
    queue at once, so [C] more fit). When the run ends, the first job has
    run and no other. Once the micro-tasks have run, every job has run
    once, in the order of the calls; nothing was logged, no loop is
    running, and the queue is empty. *)
Theorem jobs_run_in_submission_order (C : Z) (n : nat) (ns : list nat) st0 :
  Demo.start C = Ok st0 →
  1 <= C →
  Z.of_nat (length ns) <= C →
  let st := Demo.enqueue_all (n :: ns) st0 in
  let st' := Demo.run_resumes (S (length ns)) st in
  Demo.trace st.2 = [n]
  ∧ Demo.trace st'.2 = n :: ns
  ∧ Demo.errors st'.2 = []
  ∧ Demo.resumes st'.2 = 0%nat
  ∧ idle st'.1.
Proof.
  intros Hstart HC Hlen st st'.
  unfold Demo.start, ProcessQueue.new in Hstart.
  destruct (Queue.new None C) as [q|e] eqn:Hnew; [|done].
  injection Hstart as <-.
  assert (0 <= C < 2 ^ 32) as Hrange.
  { destruct (decide (0 <= C < 2 ^ 32)) as [|Hn]; [done|].
    pose proof (new_fails (None : option (ProcessQueue.item Demo.world unit)) C Hn) as Hf.
    by rewrite Hnew in Hf. }
  destruct (new_ok (None : option (ProcessQueue.item Demo.world unit)) C Hrange)
    as (q0 & Hq0 & Hwf & _ & Hcap & Hsz).
  rewrite Hnew in Hq0. injection Hq0 as <-.
  destruct (enqueue_idle Demo.console_error Demo.schedule_resume
              (ProcessQueue.mk q false None)
              {| Demo.trace := []; Demo.errors := []; Demo.resumes := 0 |} (Demo.job n))
    as (q1 & Hwf1 & Hsz1 & Hcap1 & He1).
  { unfold idle. simpl. split_and!; try done. lia. }
  simpl in He1, Hcap1.
  destruct (demo_fill ns (ProcessQueue.mk q1 true (Some (ProcessQueue.AwaitItem (inl ()) None)))
              {| Demo.trace := [n]; Demo.errors := []; Demo.resumes := 1 |})
    as (s2 & Hfill & Hwf2 & Hp2 & Hx2 & Hs2 & Hcap2); simpl; try done; [lia|].
  assert (st = (s2, {| Demo.trace := [n]; Demo.errors := []; Demo.resumes := 1 |})) as Hst.
  { unfold st, Demo.enqueue_all. simpl. unfold Demo.enqueue at 2. simpl. rewrite He1.
    exact Hfill. }
  assert (ProcessQueue.pending s2 = Demo.item <$> ns) as Hp2'.
  { rewrite Hp2. unfold ProcessQueue.pending, Queue.contents. simpl. by rewrite Hsz1. }
  destruct (demo_drain ns s2 {| Demo.trace := [n]; Demo.errors := []; Demo.resumes := 1 |}
              (S (length ns))) as (s' & w' & Hrun & Ht & He & Hr & Hx' & Hs' & Hwf' & Hz' & Hcap');
    try done; [lia|].
  unfold st'. rewrite Hst, Hrun. simpl in *.
  split; [done|]. split; [done|]. split; [done|]. split; [done|].
  unfold idle. split_and!; try done. lia.
Qed.

Lemma jobs_run_in_submission_order_witness :
  ∃ st0, Demo.start 2 = Ok st0
    ∧ Demo.trace (Demo.run_resumes 3 (Demo.enqueue_all [5; 3; 8]%nat st0)).2 = [5; 3; 8]%nat.
Proof.
  eexists. split; [reflexivity|].
  apply (jobs_run_in_submission_order 2 5 [3; 8]%nat); [reflexivity|lia|simpl; lia].
Defined.

(** X13. A job with a completion callback. On an idle queue, [enqueue] of
    a function that returns [r] runs it at once and suspends. The
    resumption calls the callback with [r], in the world it finds; when the
    callback returns, the loop suspends again, and goes on only with the
    resumption after that, which finds the queue empty and ends the pass;
    when the callback throws, the error is logged and the pass is over. *)
Theorem completion_callback_gets_the_result {W R : Type}
    (console_error : string → exn → W → W) (schedule_resume : W → W)
    (s : ProcessQueue.t W R) (w : W) f cb r w1 :
  idle s →
  f w = ProcessQueue.Returns r w1 →
  ∃ s1, ProcessQueue.enqueue console_error schedule_resume f (Some cb) s w
        = Ok (s1, schedule_resume w1)
    ∧ ProcessQueue.isExecuting s1 = true
    ∧ (∀ w2 u w3, cb r w2 = ProcessQueue.Returns u w3 →
         ∃ s2, ProcessQueue.resume console_error schedule_resume s1 w2
               = (s2, schedule_resume w3)
           ∧ ProcessQueue.isExecuting s2 = true
           ∧ ∀ w4, ∃ s3, ProcessQueue.resume console_error schedule_resume s2 w4 = (s3, w4)
                         ∧ idle s3)
    ∧ (∀ w2 e w3, cb r w2 = ProcessQueue.Throws e w3 →
         ∃ s2, ProcessQueue.resume console_error schedule_resume s1 w2
               = (s2, console_error drain_error e w3)
           ∧ idle s2).
Proof.
  intros (Hex & Hsus & Hwf & Hsz & Hcap) Hret.
  set (it := Some {| ProcessQueue.function := f; ProcessQueue.callback := Some cb |}).
  destruct (enqueue_ok None (ProcessQueue.queue s) it Hwf) as (q1 & Hen & Hwf1 & Hc1 & Hs1 & Hcap1);
    [lia|].
  assert (Queue.size q1 ≠ 0) as Hne1 by lia.
  destruct (dequeue_ok None q1 Hwf1 Hne1) as (x & q2 & Hde & Hwf2 & Hc2 & Hs2 & Hcap2).
  assert (Queue.contents None (ProcessQueue.queue s) = []) as Hnil.
  { unfold Queue.contents. by rewrite Hsz. }
  rewrite Hc1, Hnil in Hc2. simpl in Hc2. injection Hc2 as <- Hrest.
  eexists. split.
  { unfold ProcessQueue.enqueue. fold it. rewrite Hen. simpl. rewrite Hex.
    unfold ProcessQueue.execute. simpl. rewrite Hex.
    unfold Queue.isEmpty at 1.
    destruct (Z.eqb_spec (Queue.size q1) 0) as [|_]; [done|]. simpl.
    unfold ProcessQueue.loop. simpl. unfold Queue.isEmpty.
    destruct (Z.eqb_spec (Queue.size q1) 0) as [|_]; [done|].
    rewrite Hde. simpl. rewrite Hret. done. }
  simpl. split; [done|]. split.
  - intros w2 u w3 Hcb. unfold ProcessQueue.resume. simpl. rewrite Hcb.
    eexists. split; [done|]. simpl. split; [done|].
    intros w4. unfold ProcessQueue.loop, Queue.isEmpty. simpl.
    destruct (Z.eqb_spec (Queue.size q2) 0) as [_|]; [|lia].
    eexists. split; [done|]. unfold idle. simpl. split_and!; try done; lia.
  - intros w2 e w3 Hcb. unfold ProcessQueue.resume. simpl. rewrite Hcb.
    eexists. split; [done|]. unfold idle. simpl. split_and!; try done; lia.
Qed.

Lemma completion_callback_gets_the_result_witness :
  ∃ st0 s1, Demo.start 2 = Ok st0
    ∧ ProcessQueue.enqueue Demo.console_error Demo.schedule_resume (Demo.job 1)
        (Some (λ _, Demo.job 2)) st0.1 st0.2
      = Ok (s1, Demo.schedule_resume {| Demo.trace := [1%nat]; Demo.errors := [];
                                        Demo.resumes := 0 |})
    ∧ ProcessQueue.isExecuting s1 = true.
Proof.
  eexists. 
  destruct (completion_callback_gets_the_result Demo.console_error Demo.schedule_resume
              (ProcessQueue.mk (Queue.mk 2 [None; None] 0 1 0) false None)
              {| Demo.trace := []; Demo.errors := []; Demo.resumes := 0 |}
              (Demo.job 1) (λ _, Demo.job 2) ()
              {| Demo.trace := [1%nat]; Demo.errors := []; Demo.resumes := 0 |})
    as (s1 & He & Hx & _).
  - unfold idle. simpl. split_and!; try done.
    constructor; simpl; try lia. intros _. reflexivity.
  - reflexivity.
  - exists s1. split; [reflexivity|]. split; [exact He|exact Hx].
Defined.

(** X14. A write that finds the queue full is rejected. When [write]
    resumes after its [await] while the queue holds as many jobs as its
    capacity, [enqueue] throws, and the promise of [write] is rejected with
    the error "Queue is full". No job was added, and the map and the entry
    objects are what they were: the value is dropped. *)
Theorem write_on_a_full_queue_is_rejected `{Platform} c p key (v : value object) exp
    obfuscate typeOfValue hKey ts :
  microtasks (cw c) = Resume (ContWrite p key v exp obfuscate typeOfValue hKey) :: ts →
  Queue.size (ProcessQueue.queue (writeQueue c))
    = Queue.capacity (ProcessQueue.queue (writeQueue c)) →
  ∃ c', tick c = Some c'
    ∧ settled (cw c') = settled (cw c) ++ [(p, Throw (Error "Queue is full"))]
    ∧ data (cw c') = data (cw c)
    ∧ heap (cw c') = heap (cw c)
    ∧ timers (cw c') = timers (cw c)
    ∧ writeQueue c' = writeQueue c.
Proof.
  intros Htasks Hfull. eexists. split; [by apply tick_cons|].
  simpl. unfold write_resume. simpl.
  set (w0 := upd_microtasks (λ _, ts) (cw c)).
  assert (∃ val w2,
    (if obfuscate
     then try_catch (encode v)
            (λ err, throw (CacheException "UNABLE_TO_OBFUSCATE" "Failed to obfuscate value." err))
     else ret v) w0 = (Ok val, w2)
    ∧ same_but_encoding w0 w2) as (val & w2 & -> & Hsame).
  { destruct obfuscate.
    - destruct (encode_total v w0) as (val & w' & ts' & He & _ & _ & Hs).
      exists val, w'. unfold try_catch. by rewrite He.
    - exists v, w0. done. }
  unfold ProcessQueue.enqueue. rewrite enqueue_full by done. simpl.
  destruct Hsame as (_ & _ & Hs & _ & _ & Hd & Hh & _ & Ht).
  rewrite Hs, Hd, Hh, Ht. done.
Qed.

Lemma write_on_a_full_queue_is_rejected_witness :
  ∃ c', tick Toy.crowded = Some c'
    ∧ settled (cw c') = settled (cw Toy.crowded) ++ [(0%nat, Throw (Error "Queue is full"))].
Proof.
  destruct (write_on_a_full_queue_is_rejected Toy.crowded 0 (js "k") (VNumber (Int 1))
              ExpNever false (js "number") (hash_loop 5381 (js "k")) [])
    as (c' & Ht & Hs & _).
  - vm_compute. reflexivity.
  - reflexivity.
  - by exists c'.
Defined.

(** ** Further properties of the obfuscator *)

Section MoreStringFacts.
Implicit Types (s : jsstring).

Lemma split_length sep s : length (split sep s) = S (length (filter (λ c, c = sep) s)).
Proof.
  induction s as [|c s IH]; [done|]. simpl.
  destruct (Z.eqb_spec c sep) as [->|Hne].
  - rewrite filter_cons_True by done. simpl. by rewrite IH.
  - rewrite filter_cons_False by done.
    destruct (split sep s) as [|p ps]; [done|]. exact IH.
Qed.

(** The digits that [digits_of] writes in front of [acc] are read back as
    the number they were written for. *)
Lemma parse_digits_of fuel :
  ∀ n acc a, 0 <= n < 2 ^ Z.of_nat fuel →
    ∃ k, 0 <= k ∧ parse_digits (digits_of fuel n acc) a = parse_digits acc (a * 10 ^ k + n).
Proof.
  induction fuel as [|fuel IH]; intros n acc a Hn.
  - exists 0. split; [done|]. simpl in *. f_equal. lia.
  - assert (0 <= n mod 10 < 10) as Hm by (apply Z.mod_pos_bound; lia).
    cbn [digits_of]. destruct (Z.ltb_spec n 10) as [Hlt|Hge].
    + exists 1. split; [done|]. cbn [parse_digits].
      destruct (Z.leb_spec 48 (48 + n mod 10)); [|lia].
      destruct (Z.leb_spec (48 + n mod 10) 57); [|lia]. simpl.
      f_equal. rewrite Z.mod_small by lia. lia.
    + assert (0 <= n / 10 < 2 ^ Z.of_nat fuel) as Hdiv.
      { split; [apply Z.div_pos; lia|].
        apply Z.div_lt_upper_bound; [lia|].
        rewrite Nat2Z.inj_succ, Z.pow_succ_r in Hn by lia. lia. }
      destruct (IH (n / 10) ((48 + n mod 10) :: acc) a Hdiv) as (k & Hk & ->).
      exists (k + 1). split; [lia|]. cbn [parse_digits].
      destruct (Z.leb_spec 48 (48 + n mod 10)); [|lia].
      destruct (Z.leb_spec (48 + n mod 10) 57); [|lia]. simpl.
      f_equal. rewrite Z.pow_add_r by lia.
      pose proof (Z.div_mod n 10 ltac:(lia)). lia.
Qed.

Lemma parse_digits_of_decimal n :
  0 <= n → parse_digits (digits_of (S (Z.to_nat (Z.log2 n))) n []) 0 = Some n.
Proof.
  intros Hn.
  destruct (parse_digits_of (S (Z.to_nat (Z.log2 n))) n [] 0) as (k & _ & ->).
  - split; [done|]. rewrite Nat2Z.inj_succ, Z2Nat.id by apply Z.log2_nonneg.
    destruct (decide (n = 0)) as [->|]; [done|].
    apply Z.log2_spec. lia.
  - simpl. f_equal; lia.
Qed.

(** [Number] and [BigInt] read back what [toString] wrote for an
    integer. *)
Lemma parse_decimal_inverts z : parse_decimal (decimal z) = Some z.
Proof.
  unfold decimal. destruct (Z.ltb_spec z 0) as [Hneg|Hpos].
  - pose proof (parse_digits_of_decimal (- z) ltac:(lia)) as Hp.
    destruct (digits_of_digits (Z.to_nat (Z.log2 (- z))) (- z) []) as (ds' & Hds & Hne & _).
    remember (digits_of (S (Z.to_nat (Z.log2 (- z)))) (- z) []) as ds eqn:Heq.
    clear Heq. rewrite app_nil_r in Hds. subst ds'.
    unfold parse_decimal. change (45 =? 45) with true. cbv iota.
    destruct ds as [|c ds0]; [done|]. rewrite Hp. simpl. f_equal. lia.
  - pose proof (parse_digits_of_decimal z ltac:(lia)) as Hp.
    destruct (digits_of_digits (Z.to_nat (Z.log2 z)) z []) as (ds' & Hds & Hne & Hall).
    remember (digits_of (S (Z.to_nat (Z.log2 z))) z []) as ds eqn:Heq.
    clear Heq. rewrite app_nil_r in Hds. subst ds'.
    destruct ds as [|c ds0]; [done|].
    apply Forall_cons in Hall as [Hc _]. unfold is_digit in Hc.
    unfold parse_decimal. destruct (Z.eqb_spec c 45); [lia|]. exact Hp.
Qed.

End MoreStringFacts.

Section Obfuscation.
Context `{Platform}.
Implicit Types (w : world) (c : cache) (key : jsstring) (v : value object).

(** [Number] reads back the digits that [toString] wrote for a safe
    integer. *)
Lemma Number_decimal z : isSafeInteger z = true → Number (decimal z) = Int z.
Proof.
  intros Hsafe. pose proof (parse_decimal_inverts z) as Hp.
  destruct (decimal_shape z) as (ds & Hne & Hall & Hd).
  rewrite Hd in Hp. unfold Number. rewrite Hd.
  destruct ds as [|c ds]; [done|].
  apply Forall_cons in Hall as [Hc _]. unfold is_digit in Hc.
  change (js "NaN") with [78; 97; 78].
  change (js "Infinity") with [73; 110; 102; 105; 110; 105; 116; 121].
  change (js "-Infinity") with [45; 73; 110; 102; 105; 110; 105; 116; 121].
  destruct (Z.ltb_spec z 0) as [Hneg|Hpos].
  - cbn [str_eqb]. change (45 =? 78) with false. change (45 =? 73) with false.
    change (45 =? 45) with true. cbn [andb].
    destruct (Z.eqb_spec c 73); [lia|]. cbn [andb].
    rewrite Hp, Hsafe. destruct (Z.eqb_spec z 0); [lia|]. done.
  - cbn [str_eqb].
    destruct (Z.eqb_spec c 78); [lia|]. destruct (Z.eqb_spec c 73); [lia|].
    destruct (Z.eqb_spec c 45); [lia|]. cbn [andb].
    rewrite Hp, Hsafe. by rewrite andb_false_r.
Qed.

(** [toType] restores a value that survives from what [converttostring]
    made of it. *)
Lemma toType_inverts v s ty :
  survives v → converttostring v = Ok (VString s, ty) → toType s ty = Ok v.
Proof.
  intros Hv Hconv. destruct v as [| |b|n|z|s0|o|o| |]; simpl in Hv; try done.
  - destruct Hv as (s' & Hs & Hp). unfold converttostring in Hconv.
    rewrite Hs in Hconv. injection Hconv as <- <-. exact Hp.
  - injection Hconv as <- <-. by destruct b.
  - injection Hconv as <- <-. unfold toType. simpl str_eqb. cbv iota.
    destruct n as [z| | | | |s0]; simpl in Hv; try done.
    + unfold number_toString. rewrite Hv. by rewrite Number_decimal.
    + simpl. by rewrite Hv.
  - injection Hconv as <- <-. done.
  - destruct Hv as (s' & Hs & Hp). unfold converttostring in Hconv.
    rewrite Hs in Hconv. injection Hconv as <- <-. exact Hp.
  - destruct Hv as (s' & Hs & Hp). unfold converttostring in Hconv.
    rewrite Hs in Hconv. injection Hconv as <- <-. exact Hp.
Qed.


(** The loop of [#handleBeforeKeyRotated] writes to the entry objects and
    to nothing else. *)
Lemma decode_in_place_heap_only (d : list (Z * nat)) :
  ∀ w, ∃ h, (forEach (λ p : Z * nat, bind (deref p.2) (λ e,
                           bind (decode (value_of e)) (λ v,
                           set_value p.2 v))) d w).2 = upd_heap (λ _, h) w.
Proof.
  unfold bind, deref, bind, get, ret, throw, set_value, modify.
  induction d as [|[k l] d IH]; intros w.
  - exists (heap w). by destruct w.
  - cbn [forEach]. unfold bind. simpl.
    destruct (heap w !! l) as [e|]; simpl; [|exists (heap w); by destruct w].
    pose proof (decode_pure (value_of e) w) as Hp.
    destruct (decode (value_of e) w) as [[val|err] w1]; simpl in Hp; subst w1;
      [|exists (heap w); by destruct w].
    match goal with |- context [forEach ?f d ?w0] =>
      destruct (IH w0) as [h Hh]; destruct (forEach f d w0) as [r w2] end.
    simpl in *. subst w2. exists h. by destruct w.
Qed.

(** [#handleBeforeKeyRotated] takes the copy of the map and writes to
    the entry objects; it leaves everything else. *)
Lemma handleBeforeKeyRotated_heap_only w :
  ∃ r h, handleBeforeKeyRotated w
         = (r, upd_heap (λ _, h) (upd_temp (λ _, Some (data w)) w)).
Proof.
  change (handleBeforeKeyRotated w)
    with (forEach (λ p : Z * nat, bind (deref p.2) (λ e,
                     bind (decode (value_of e)) (λ v, set_value p.2 v)))
            (data w) (upd_temp (λ _, Some (data w)) w)).
  destruct (decode_in_place_heap_only (data w) (upd_temp (λ _, Some (data w)) w))
    as [h Hh].
  destruct (forEach _ (data w) (upd_temp (λ _, Some (data w)) w)) as [r w1].
  simpl in Hh. subst w1. by exists r, h.
Qed.

(** [rotateKey()] up to the [await] of [emitter], in any world. *)
Lemma rotateKey_total w :
  ∃ w', rotateKey w = (Ok (), w')
    ∧ fideliusCharm w' = Some (randomBytes (draws w) 32)
    ∧ draws w' = S (draws w)
    ∧ data w' = data w
    ∧ temp w' = Some (data w)
    ∧ isPaused w' = isPaused w
    ∧ timers w' = timers w
    ∧ emitted w' = emitted w
    ∧ microtasks w' = microtasks w ++ [EmitterResume key_rotated]
    ∧ now w' = now w.
Proof.
  unfold rotateKey, emitter. cbn [handlers_of beforeHandlers]. unfold run_hooks.
  cbn [forEach]. unfold bind, try_catch.
  destruct (handleBeforeKeyRotated_heap_only w) as (r & h & ->).
  destruct r as [[]|err]; unfold console_error, ret, random_bytes, bind, get, modify,
    queueMicrotask, modify, ret; simpl; (eexists; split; [done|]); simpl; done.
Qed.

(** What [decode] makes of the value of an entry depends on the entry
    and on the key. *)
Lemma decodes_to_frame w w0 l v :
  heap w0 = heap w → fideliusCharm w0 = fideliusCharm w →
  decodes_to w l v → decodes_to w0 l v.
Proof.
  intros Hh Hk (e & Hl & Hd). exists e. rewrite Hh. split; [done|].
  by rewrite (decode_reads_key _ w w0).
Qed.

Lemma fails_to_decode_frame w w0 l err :
  heap w0 = heap w → fideliusCharm w0 = fideliusCharm w →
  fails_to_decode w l err → fails_to_decode w0 l err.
Proof.
  intros Hh Hk (e & Hl & Hd). exists e. rewrite Hh. split; [done|].
  by rewrite (decode_reads_key _ w w0).
Qed.

Abbreviation decode_entry :=
  (λ p : Z * nat, bind (deref p.2) (λ e,
                    bind (decode (value_of e)) (λ v, set_value p.2 v))).

(** The loop of [#handleBeforeKeyRotated] over entries that decode:
    each is decoded in place, and the loop goes on with the rest. *)
Lemma decode_entries_prefix pre :
  ∀ w rest,
    NoDup (pre ++ rest).*2 →
    Forall (λ p, ∃ v, decodes_to w p.2 v) pre →
    ∃ h', forEach decode_entry (pre ++ rest) w
          = forEach decode_entry rest (upd_heap (λ _, h') w)
      ∧ (∀ p v, p ∈ pre → decodes_to w p.2 v →
           ∃ e, heap w !! p.2 = Some e ∧ h' !! p.2 = Some (with_value e v))
      ∧ (∀ l, l ∉ pre.*2 → h' !! l = heap w !! l).
Proof.
  induction pre as [|[k l] pre IH]; intros w rest Hnd Hall.
  - exists (heap w). split; [by destruct w|]. split; [|done].
    intros p v Hin. by apply elem_of_nil in Hin.
  - apply Forall_cons in Hall as [(v0 & e0 & Hl & Hdec) Hall].
    simpl in Hnd. apply NoDup_cons in Hnd as [Hnotin Hnd].
    simpl in Hl, Hdec.
    pose proof (decode_pure (value_of e0) w) as Hpure.
    set (w1 := upd_heap (alter (λ e, with_value e v0) l) w).
    assert (decode_entry (k, l) w = (Ok (), w1)) as Hstep.
    { assert (decode (value_of e0) w = (Ok v0, w)) as Hdw.
      { destruct (decode (value_of e0) w) as [r w2]. simpl in *. by subst. }
      unfold bind, deref, bind, get, ret. cbn [snd]. rewrite Hl. cbn beta iota.
      rewrite Hdw. done. }
    assert (∀ l', l' ≠ l → heap w1 !! l' = heap w !! l') as Hframe.
    { intros l' Hne. unfold w1. destruct w. simpl. by rewrite lookup_alter_ne. }
    assert (l ∉ pre.*2) as Hlpre.
    { intros Hin. apply Hnotin. rewrite fmap_app. apply elem_of_app. by left. }
    assert (∀ p, p ∈ pre → p.2 ≠ l) as Hne.
    { intros p Hin Heq. apply Hlpre. rewrite <- Heq. by apply list_elem_of_fmap_2. }
    assert (fideliusCharm w1 = fideliusCharm w) as Hk by (unfold w1; by destruct w).
    destruct (IH w1 rest Hnd) as (h' & Hrun & Hdone & Hrest).
    { apply Forall_forall. intros p Hin.
      apply (proj1 (Forall_forall _ _) Hall) in Hin as Hp. destruct Hp as (v & e & He & Hd).
      exists v, e. rewrite Hframe by by apply Hne. split; [done|].
      by rewrite (decode_reads_key _ w w1). }
    exists h'. split; [|split].
    + rewrite <- app_comm_cons.
      cbn [forEach]. unfold bind at 1. rewrite Hstep. by rewrite Hrun.
    + intros p v Hin Hp. apply elem_of_cons in Hin as [->|Hin].
      * destruct Hp as (e & He & Hd). simpl in He, Hd.
        rewrite Hl in He. injection He as <-. rewrite Hdec in Hd. injection Hd as <-.
        exists e0. split; [done|]. simpl. rewrite Hrest by done.
        unfold w1. destruct w. simpl in *. by rewrite lookup_alter_eq, Hl.
      * destruct (Hdone p v Hin) as (e & He & Hh).
        { destruct Hp as (e & He & Hd). exists e.
          rewrite Hframe by by apply Hne. split; [done|].
          by rewrite (decode_reads_key _ w w1). }
        exists e. rewrite <- (Hframe p.2) by by apply Hne. done.
    + intros l' Hl'. simpl in Hl'. apply not_elem_of_cons in Hl' as [Hne' Hl'].
      rewrite Hrest by done. by apply Hframe.
Qed.

(** [rotateKey()] after the loop of the before handler: the entry objects
    are as the loop left them, and the console has the error that ended
    it, if one did. *)
Lemma rotateKey_after_loop w r w1 :
  forEach decode_entry (data w) (upd_temp (λ _, Some (data w)) w) = (r, w1) →
  ∃ w', rotateKey w = (Ok (), w')
    ∧ heap w' = heap w1
    ∧ console w'
      = console w1
        ++ match r with
           | Ok _ => []
           | Throw err =>
               [LogError "[OBFUSCATOR][ERROR]Error in before handler for event" err]
           end.
Proof.
  intros Hloop.
  unfold rotateKey, emitter. cbn [handlers_of beforeHandlers]. unfold run_hooks.
  cbn [forEach]. unfold bind, try_catch.
  change (handleBeforeKeyRotated w)
    with (forEach decode_entry (data w) (upd_temp (λ _, Some (data w)) w)).
  rewrite Hloop.
  destruct r as [[]|err]; unfold console_error, ret, random_bytes, bind, get, modify,
    queueMicrotask, modify, ret; simpl; (eexists; split; [done|]); simpl;
    rewrite ?app_nil_r; done.
Qed.

(** The loop of the before handler, on a map whose entries up to a place
    decode. *)
Lemma rotateKey_decodes w pre rest :
  data w = pre ++ rest →
  NoDup (data w).*2 →
  Forall (λ p, ∃ v, decodes_to w p.2 v) pre →
  ∃ h' w',
    rotateKey w = (Ok (), w')
    ∧ (∀ p v, p ∈ pre → decodes_to w p.2 v →
         ∃ e, heap w !! p.2 = Some e ∧ h' !! p.2 = Some (with_value e v))
    ∧ (∀ l, l ∉ pre.*2 → h' !! l = heap w !! l)
    ∧ (rest = [] → heap w' = h' ∧ console w' = console w)
    ∧ (∀ p rest' err, rest = p :: rest' → fails_to_decode w p.2 err →
         heap w' = h'
         ∧ console w'
           = console w
             ++ [LogError "[OBFUSCATOR][ERROR]Error in before handler for event" err]).
Proof.
  intros Hdata Hnd Hall.
  set (w0 := upd_temp (λ _, Some (data w)) w).
  destruct (decode_entries_prefix pre w0 rest) as (h' & Hrun & Hdone & Hrest).
  { by rewrite <- Hdata. }
  { eapply Forall_impl; [exact Hall|]. intros p [v Hp]. exists v.
    by apply (decodes_to_frame w w0). }
  destruct (forEach decode_entry (data w) w0) as [r w1] eqn:Hloop.
  destruct (rotateKey_after_loop w r w1 Hloop) as (w' & Hrot & Hheap & Hcons).
  exists h', w'. split; [done|]. split; [|split; [done|split]].
  - intros p v Hin Hp. apply (Hdone p v Hin). by apply (decodes_to_frame w w0).
  - intros ->. rewrite app_nil_r in Hdata, Hrun. rewrite Hdata, Hrun in Hloop.
    simpl in Hloop. injection Hloop as <- <-. rewrite Hheap, Hcons.
    by rewrite app_nil_r.
  - intros [k l] rest' err -> (e & Hl & Hd).
    rewrite Hdata, Hrun in Hloop. cbn [forEach] in Hloop.
    assert (l ∉ pre.*2) as Hlpre.
    { rewrite Hdata, fmap_app in Hnd. apply NoDup_app in Hnd as (_ & Hdisj & _).
      intros Hin. apply (Hdisj l Hin). simpl. apply elem_of_cons. by left. }
    simpl in Hl, Hd.
    pose proof (decode_pure (value_of e) (upd_heap (λ _, h') w0)) as Hpure.
    assert ((decode (value_of e) (upd_heap (λ _, h') w0)).1 = Throw err) as Hd'.
    { rewrite (decode_reads_key _ w (upd_heap (λ _, h') w0)); [done|by destruct w]. }
    assert (decode_entry (k, l) (upd_heap (λ _, h') w0)
            = (Throw err, upd_heap (λ _, h') w0)) as Hstep.
    { assert (decode (value_of e) (upd_heap (λ _, h') w0)
              = (Throw err, upd_heap (λ _, h') w0)) as Hdw.
      { destruct (decode (value_of e) (upd_heap (λ _, h') w0)) as [r2 w2].
        simpl in Hpure, Hd'. by subst. }
      pose proof (Hrest l Hlpre) as Hlook. change (heap w0) with (heap w) in Hlook.
      rewrite Hl in Hlook.
      unfold bind, deref, bind, get, ret. cbn [snd].
      change (heap (upd_heap (λ _, h') w0)) with h'. rewrite Hlook. cbn beta iota.
      by rewrite Hdw. }
    unfold bind at 1 in Hloop. rewrite Hstep in Hloop. injection Hloop as <- <-.
    rewrite Hheap, Hcons. by destruct w.
Qed.

End Obfuscation.

(** X15. [decode] inverts [encode], but for the negative zero. Let the
    cipher encrypt the string form of a value to a text that it decrypts
    again. Then [encode] returns a string of the form
    [iv:ciphertext:type] in hexadecimal, and in every world with the same
    key [decode] of that string returns the value when it is a string, a
    boolean, a safe integer, [NaN] or an infinity, another finite number
    that the platform reads back from its string, or [null], an object or
    an array that [JSON.parse] restores from what [JSON.stringify] wrote.
    For the negative zero, whose string is ["0"], it returns the positive
    zero. *)
Theorem decode_inverts_encode `{Platform} w (v : value object) k s ty ct :
  fideliusCharm w = Some k →
  converttostring v = Ok (VString s, ty) →
  cipher k (randomBytes (draws w) 16) s = Ok ct →
  decipher k (randomBytes (draws w) 16) ct = Ok s →
  let enc := VString (to_hex (randomBytes (draws w) 16) ++ [colon] ++ to_hex ct
                      ++ [colon] ++ ty) in
  ∃ w', encode v w = (Ok enc, w')
    ∧ ∀ w2, fideliusCharm w2 = Some k →
        (survives v → decode enc w2 = (Ok v, w2))
        ∧ (v = VNumber NegZero → decode enc w2 = (Ok (VNumber (Int 0)), w2)).
Proof.
  intros Hk Hconv Hc Hd enc. eexists. split; [by apply (encode_ok _ _ k s ty ct)|].
  intros w2 Hk2.
  assert (ty = type_of v) as ->.
  { unfold converttostring in Hconv.
    destruct v; try destruct (JSON_stringify _); simpl in *; congruence. }
  unfold enc.
  rewrite (decode_encoded _ k) by (first [done | apply type_of_no_colon]).
  rewrite Hd. split.
  - intros Hv. by rewrite (toType_inverts v).
  - intros ->. injection Hconv as <-. done.
Qed.

Lemma decode_inverts_encode_witness :
  let enc := to_hex (@randomBytes Toy.platform (draws (cw Toy.fresh)) 16) ++ [colon]
             ++ to_hex (Toy.encrypted (decimal (-42))) ++ [colon] ++ js "number" in
  ∃ w', encode (VNumber (Int (-42))) (cw Toy.fresh) = (Ok (VString enc), w')
    ∧ decode (VString enc) (cw Toy.fresh) = (Ok (VNumber (Int (-42))), cw Toy.fresh).
Proof.
  destruct (decode_inverts_encode (cw Toy.fresh) (VNumber (Int (-42))) Toy.first_key
              (decimal (-42)) (js "number") (Toy.encrypted (decimal (-42))))
    as (w' & He & Hd).
  - vm_compute. reflexivity.
  - reflexivity.
  - vm_compute. reflexivity.
  - vm_compute. reflexivity.
  - exists w'. split; [exact He|].
    apply (Hd (cw Toy.fresh)); [vm_compute; reflexivity|reflexivity].
Defined.

(** X16. [decode] refuses what is not of the form [iv:ciphertext:type]. A
    string whose number of colons is not two makes it throw the error
    "Invalid string to decode."; a value that is not a string makes it
    throw a TypeError. The world is what it was. *)
Theorem decode_rejects_malformed_input `{Platform} (string : value object) w :
  (∀ s, string = VString s → colons s ≠ 2%nat →
     decode string w = (Throw (Error "Invalid string to decode."), w))
  ∧ ((∀ s, string ≠ VString s) →
     ∃ msg, decode string w = (Throw (TypeError msg), w)).
Proof.
  split.
  - intros s -> Hcolons. unfold decode.
    pose proof (split_length colon s) as Hlen. fold (colons s) in Hlen.
    destruct (split colon s) as [|p1 [|p2 [|p3 [|p4 ps]]]]; try done.
    simpl in Hlen. lia.
  - intros Hns. destruct string; try (by eexists). by destruct (Hns s).
Qed.

Lemma decode_rejects_malformed_input_witness :
  decode (VString (js "a:b")) (cw Toy.fresh)
  = (Throw (Error "Invalid string to decode."), cw Toy.fresh).
Proof.
  apply (proj1 (decode_rejects_malformed_input
                  (VString (js "a:b")) (cw Toy.fresh)) (js "a:b")).
  - reflexivity.
  - vm_compute. discriminate.
Defined.



(** X18. [rotateKey()] always replaces the key. In every world it returns
    without throwing, whatever the entries of the cache hold: the key is
    the next 32 random bytes, the map of the cache is the same, its copy
    was taken, the gate is as it was (the call does not close it), no timer
    was set, and the rest of [emitter], which will emit the event, waits as
    the last micro-task. Before that the before handler has gone through
    the entries of the map, each bucket with an entry object of its own, in
    the order of the map. When they all decode, each entry holds what
    [decode] made of its value, in place, and nothing is logged. When one
    does not decode, the entries before it hold their decoded values, this
    one and those after it are as they were, for the error ended the loop,
    and the console has the error of the before handler; the rotation goes
    on all the same. No other entry object is touched. *)
Theorem rotateKey_always_replaces_the_key `{Platform} w :
  ∃ w', rotateKey w = (Ok (), w')
    ∧ fideliusCharm w' = Some (randomBytes (draws w) 32)
    ∧ draws w' = S (draws w)
    ∧ data w' = data w
    ∧ temp w' = Some (data w)
    ∧ isPaused w' = isPaused w
    ∧ timers w' = timers w
    ∧ emitted w' = emitted w
    ∧ microtasks w' = microtasks w ++ [EmitterResume key_rotated]
    ∧ (NoDup (data w).*2 →
       Forall (λ p, ∃ v, decodes_to w p.2 v) (data w) →
       console w' = console w
       ∧ (∀ p v, p ∈ data w → decodes_to w p.2 v →
            ∃ e, heap w !! p.2 = Some e ∧ heap w' !! p.2 = Some (with_value e v))
       ∧ (∀ l, l ∉ (data w).*2 → heap w' !! l = heap w !! l))
    ∧ (∀ pre p rest err,
         data w = pre ++ p :: rest →
         NoDup (data w).*2 →
         Forall (λ q, ∃ v, decodes_to w q.2 v) pre →
         fails_to_decode w p.2 err →
         console w'
         = console w
           ++ [LogError "[OBFUSCATOR][ERROR]Error in before handler for event" err]
         ∧ (∀ q v, q ∈ pre → decodes_to w q.2 v →
              ∃ e, heap w !! q.2 = Some e ∧ heap w' !! q.2 = Some (with_value e v))
         ∧ (∀ l, l ∉ pre.*2 → heap w' !! l = heap w !! l)).
Proof.
  destruct (rotateKey_total w) as (w' & Hrot & Hk & Hdr & Hd & Ht & Hp & Hti & Hem & Hm & _).
  exists w'. split_and!; try done.
  - intros Hnd Hall.
    destruct (rotateKey_decodes w (data w) []) as (h' & w2 & Hrot2 & Hdone & Hrest & Hend & _);
      [by rewrite app_nil_r|done|done|].
    rewrite Hrot in Hrot2. injection Hrot2 as <-.
    destruct (Hend eq_refl) as [-> Hc]. done.
  - intros pre p rest err Hdata Hnd Hall Hfail.
    destruct (rotateKey_decodes w pre (p :: rest)) as (h' & w2 & Hrot2 & Hdone & Hrest & _ & Hend);
      [done..|].
    rewrite Hrot in Hrot2. injection Hrot2 as <-.
    destruct (Hend p rest err eq_refl Hfail) as [-> Hc]. done.
Qed.

(** A plain entry, whose value is the number 1, is no string for [decode]
    to split: the rotation logs the TypeError of the before handler and
    leaves the entry as it was. *)
Lemma rotateKey_always_replaces_the_key_witness :
  ∃ w', rotateKey (cw Toy.wrote_A) = (Ok (), w')
    ∧ console w'
      = console (cw Toy.wrote_A)
        ++ [LogError "[OBFUSCATOR][ERROR]Error in before handler for event"
              (TypeError "string.split is not a function")]
    ∧ heap w' !! 0%nat = heap (cw Toy.wrote_A) !! 0%nat.
Proof.
  destruct (rotateKey_always_replaces_the_key (cw Toy.wrote_A))
    as (w' & Hrot & _ & _ & _ & _ & _ & _ & _ & _ & _ & Hfail).
  exists w'. split; [exact Hrot|].
  destruct (Hfail [] (5863208, 0%nat) [] (TypeError "string.split is not a function"))
    as (Hc & _ & Hh).
  - vm_compute. reflexivity.
  - vm_compute. apply NoDup_cons. split; [apply not_elem_of_nil|apply NoDup_nil_2].
  - apply Forall_nil_2.
  - eexists. split; [vm_compute; reflexivity|]. vm_compute. reflexivity.
  - split; [exact Hc|]. apply Hh. apply not_elem_of_nil.
Defined.

(** X19. A rotation period beyond one trillion milliseconds is swallowed.
    The setter stores the period; [setUnboundedTimeout] then throws inside
    the callback of [emitter], which logs the error and emits the event at
    once. The setter returns normally. No timer was set or removed, and the
    rotation that was scheduled stays as it was. *)
Theorem overlong_rotation_period_is_swallowed `{Platform} w d k :
  fideliusCharm w = Some k →
  toMilliseconds d > maxTotalDelay →
  ∃ w', set_defaultKeyRotationDuration d w = (Ok (), w')
    ∧ defaultKeyRotationDuration w' = d
    ∧ timers w' = timers w
    ∧ existingRotatorTimerObject w' = existingRotatorTimerObject w
    ∧ fideliusCharm w' = Some k
    ∧ console w'
      = console w ++ [LogError "[OBFUSCATOR][ERROR]Error in callback for event" time_traveler]
    ∧ emitted w' = emitted w ++ [rotation_duration_changed]
    ∧ microtasks w' = microtasks w.
Proof.
  intros Hk Hd.
  unfold set_defaultKeyRotationDuration, emitter, bind, modify, run_hooks, try_catch, get.
  simpl. unfold rotator, bind, get, clearTimeout, ret. simpl.
  destruct (existingRotatorTimerObject w) eqn:Hex; simpl; rewrite Hk; simpl;
    unfold setUnboundedTimeout;
    (destruct (Z.gtb_spec (toMilliseconds d) maxTotalDelay) as [_|]; [|lia]);
    unfold throw; simpl; (eexists; split; [done|]); simpl; rewrite ?Hex; done.
Qed.

Lemma overlong_rotation_period_is_swallowed_witness :
  ∃ w', set_defaultKeyRotationDuration {| toMilliseconds := 10 ^ 12 + 1 |} (cw Toy.fresh)
        = (Ok (), w')
    ∧ timers w' = timers (cw Toy.fresh).
Proof.
  destruct (overlong_rotation_period_is_swallowed (cw Toy.fresh)
              {| toMilliseconds := 10 ^ 12 + 1 |} Toy.first_key)
    as (w' & Hs & _ & Ht & _).
  - vm_compute. reflexivity.
  - vm_compute. reflexivity.
  - by exists w'.
Defined.

(** ** The key rotation on a cache at rest *)

Section RotationAtRest.
Context `{Platform}.
Implicit Types (w : world) (c : cache) (key : jsstring) (v : value object).

(** [rotateKey()] up to the [await] of [emitter], on a map of one entry:
    the before handler has decoded the value of the entry in place, or
    has left it where [decode] threw. *)
Lemma rotateKey_one w hKey l e :
  data w = [(hKey, l)] →
  heap w !! l = Some e →
  ∃ w1, rotateKey w = (Ok (), w1)
    ∧ heap w1 !! l = Some (with_value e (decoded_in_place (value_of e) w))
    ∧ data w1 = [(hKey, l)]
    ∧ temp w1 = Some [(hKey, l)]
    ∧ fideliusCharm w1 = Some (randomBytes (draws w) 32)
    ∧ draws w1 = S (draws w)
    ∧ microtasks w1 = microtasks w ++ [EmitterResume key_rotated]
    ∧ CACHE_HASH_KEY_INITALIZER w1 = CACHE_HASH_KEY_INITALIZER w
    ∧ settled w1 = settled w
    ∧ next_promise w1 = next_promise w
    ∧ emitted w1 = emitted w.
Proof.
  intros Hdata Hheap.
  unfold rotateKey, emitter, bind. simpl.
  unfold run_hooks, forEach, bind, try_catch, handleBeforeKeyRotated, bind, get, modify.
  rewrite Hdata. simpl. unfold deref, bind, get. simpl. rewrite Hheap.
  unfold ret. cbv beta iota. unfold decoded_in_place.
  match goal with |- context [decode (value_of e) ?w0] =>
    pose proof (decode_pure (value_of e) w0) as Hpure;
    pose proof (decode_reads_key (value_of e) w w0 eq_refl) as Hsame;
    destruct (decode (value_of e) w0) as [r w0'] end.
  simpl in Hpure, Hsame. subst w0'. rewrite <- Hsame.
  destruct r as [val|err].
  - unfold set_value, modify, random_bytes, bind, get, modify, queueMicrotask, modify,
      ret. simpl.
    eexists. split; [done|]. simpl. rewrite lookup_alter_eq, Hheap. done.
  - unfold console_error, modify, random_bytes, bind, get, modify, queueMicrotask,
      modify, ret. simpl.
    eexists. split; [done|]. simpl. rewrite Hheap. by destruct e.
Qed.

(** [#handleKeyRotated] on a copy of one entry whose value [encode]
    takes: the entry holds the encoded value, whether it is marked
    obfuscated or not; the map is the copy; the gate is open. *)
Lemma handleKeyRotated_one w hKey l e k s ty ct :
  temp w = Some [(hKey, l)] →
  heap w !! l = Some e →
  fideliusCharm w = Some k →
  converttostring (value_of e) = Ok (VString s, ty) →
  cipher k (randomBytes (draws w) 16) s = Ok ct →
  ∃ w2, handleKeyRotated w = (Ok (), w2)
    ∧ heap w2 !! l = Some (with_value e
                             (VString (to_hex (randomBytes (draws w) 16) ++ [colon]
                                       ++ to_hex ct ++ [colon] ++ ty)))
    ∧ data w2 = [(hKey, l)]
    ∧ isPaused w2 = false
    ∧ fideliusCharm w2 = Some k
    ∧ microtasks w2 = microtasks w ++ [EmitterResume obfuscated]
    ∧ CACHE_HASH_KEY_INITALIZER w2 = CACHE_HASH_KEY_INITALIZER w
    ∧ settled w2 = settled w
    ∧ next_promise w2 = next_promise w
    ∧ emitted w2 = emitted w.
Proof.
  intros Htemp Hheap Hk Hconv Hciph.
  unfold handleKeyRotated, destroy. unfold bind, modify, get. simpl.
  rewrite Htemp. cbn [forEach]. unfold bind, deref, bind, get. simpl.
  rewrite Hheap. unfold ret. cbv beta iota.
  erewrite (encode_ok _ (value_of e) k s ty ct); [|exact Hk|exact Hconv|exact Hciph].
  unfold set_value, modify. simpl.
  eexists. split; [done|]. simpl. rewrite lookup_alter_eq, Hheap. done.
Qed.

(** The rotation as a whole, on a cache at rest with one entry:
    [rotateKey()] and the two micro-tasks that follow it. *)
Lemma rotation_one_entry seed c hKey l e s ty ct :
  ready seed c →
  data (cw c) = [(hKey, l)] →
  heap (cw c) !! l = Some e →
  let v := decoded_in_place (value_of e) (cw c) in
  let k' := randomBytes (draws (cw c)) 32 in
  let iv' := randomBytes (S (draws (cw c))) 16 in
  converttostring v = Ok (VString s, ty) →
  cipher k' iv' s = Ok ct →
  let c' := run_microtasks 2 (lift_world rotateKey c).2 in
  ready seed c'
  ∧ data (cw c') = [(hKey, l)]
  ∧ heap (cw c') !! l
    = Some (with_value e (VString (to_hex iv' ++ [colon] ++ to_hex ct ++ [colon] ++ ty)))
  ∧ fideliusCharm (cw c') = Some k'
  ∧ settled (cw c') = settled (cw c)
  ∧ emitted (cw c') = emitted (cw c) ++ [key_rotated; obfuscated].
Proof.
  intros [Hseed Htasks Hgate Hidle] Hdata Hheap v k' iv' Hconv Hciph c'.
  destruct c as [w q]. simpl in *.
  destruct (rotateKey_one w hKey l e Hdata Hheap)
    as (w1 & Hrot & Hh1 & Hd1 & Ht1 & Hk1 & Hdr1 & Hm1 & Hs1 & Hst1 & Hp1 & Hem1).
  fold v in Hh1. fold k' in Hk1.
  unfold c', lift_world. simpl. rewrite Hrot. simpl.
  rewrite Htasks in Hm1. simpl in Hm1.
  erewrite run_microtasks_cons; [|simpl; exact Hm1].
  simpl. unfold lift_world. simpl.
  unfold emitter_rest, try_catch, emit, bind, modify. cbn [listeners afterHandlers forEach].
  unfold bind.
  match goal with |- context [handleKeyRotated ?w0] =>
    destruct (handleKeyRotated_one w0 hKey l (with_value e v) k' s ty ct)
      as (w2 & -> & Hh2 & Hd2 & Hg2 & Hk2 & Hm2 & Hs2 & Hst2 & Hp2 & He2) end;
    try (simpl; done).
  { simpl. rewrite Hdr1. exact Hciph. }
  simpl in Hh2, Hm2, Hs2, Hst2, Hp2, He2. rewrite Hdr1 in Hh2. fold iv' in Hh2.
  unfold ret, run_hooks. cbn [forEach]. unfold ret. simpl.
  erewrite run_microtasks_cons; [|simpl; exact Hm2].
  simpl. unfold lift_world. simpl.
  unfold emitter_rest, try_catch, emit, bind, modify, run_hooks. simpl.
  split.
  { constructor; simpl; try done.
    destruct Hseed as [Hs Hne]. split; [simpl; congruence|done]. }
  simpl. split; [done|]. split; [exact Hh2|]. split; [done|].
  split; [congruence|]. rewrite He2, Hem1, <- app_assoc. done.
Qed.


Lemma survives_cachable v : survives v → non_cachable (type_of v) = false.
Proof. by destruct v. Qed.

End RotationAtRest.

(** X20. An obfuscated entry is readable after a rotation that meets no
    other operation. A value that survives encoding (a string, a boolean, a
    safe integer, [NaN], an infinity, another finite number that the
    platform reads back from its string, or [null], an object or an array
    that [JSON] restores; not the negative zero) is written with
    [obfuscate] true on an empty cache at rest, and the write drains; then
    [rotateKey()] is called and the micro-tasks run. The cache is at rest
    again under the new key, the entry holds the value encrypted under the
    new key with a new initialization vector, and a read of the key is
    fulfilled with the value. The ciphers are any that encrypt the string
    form of the value, under each key, to a text they decrypt again. *)
Theorem rotation_keeps_an_obfuscated_entry_readable `{Platform} seed c key
    (v : value object) exp k s ty ct ct' :
  ready seed c →
  data (cw c) = [] →
  fideliusCharm (cw c) = Some k →
  survives v →
  converttostring v = Ok (VString s, ty) →
  cipher k (randomBytes (draws (cw c)) 16) s = Ok ct →
  decipher k (randomBytes (draws (cw c)) 16) ct = Ok s →
  let c1 := run_microtasks 3 (lift_world (write key v exp true) c).2 in
  let k' := randomBytes (draws (cw c1)) 32 in
  let iv' := randomBytes (S (draws (cw c1))) 16 in
  cipher k' iv' s = Ok ct' →
  decipher k' iv' ct' = Ok s →
  let c2 := run_microtasks 2 (lift_world rotateKey c1).2 in
  let c3 := run_microtasks 1 (lift_world (read key) c2).2 in
  ready seed c2
  ∧ fideliusCharm (cw c2) = Some k'
  ∧ emitted (cw c2) = emitted (cw c1) ++ [key_rotated; obfuscated]
  ∧ (∃ l e, map_get (hash_loop seed (remove_whitespace key)) (data (cw c2)) = Some l
       ∧ heap (cw c2) !! l = Some e
       ∧ isObfusacated e = true
       ∧ value_of e = VString (to_hex iv' ++ [colon] ++ to_hex ct' ++ [colon] ++ ty))
  ∧ settled (cw c3) = settled (cw c2) ++ [(next_promise (cw c2), Ok v)].
Proof.
  intros Hready Hempty Hk Hv Hconv Hc Hd c1 k' iv' Hc' Hd' c2 c3.
  assert (accepts (hash_loop seed (remove_whitespace key)) key (cw c)) as Hacc.
  { unfold accepts. by rewrite Hempty. }
  assert (ty = type_of v) as Hty.
  { unfold converttostring in Hconv.
    destruct v; try destruct (JSON_stringify _); simpl in *; congruence. }
  destruct (write_stored seed c key v exp true Hready (survives_cachable v Hv) Hacc)
    as (Hready1 & Hd1 & Hh1 & Hk1 & _).
  fold c1 in Hready1, Hd1, Hh1, Hk1.
  unfold handed in Hh1.
  rewrite (encode_ok _ v k s ty ct) in Hh1 by done.
  cbv beta iota in Hh1. cbn [fst] in Hh1.
  change (draws (resumed_world (cw c))) with (draws (cw c)) in Hh1.
  rewrite Hempty in Hd1.
  set (hKey := hash_loop seed (remove_whitespace key)) in *.
  change (map_set hKey (next_loc (cw c)) []) with [(hKey, next_loc (cw c))] in Hd1.
  set (e1 := {| value_of := VString (to_hex (randomBytes (draws (cw c)) 16) ++ [colon]
                                     ++ to_hex ct ++ [colon] ++ ty);
                expiresOn := exp; isObfusacated := true; type := type_of v;
                checksum := createCheckSum key |}) in *.
  assert (heap (cw c1) !! next_loc (cw c) = Some e1) as Hl1
    by (rewrite Hh1; apply lookup_insert_eq).
  assert (decoded_in_place (value_of e1) (cw c1) = v) as Hdec.
  { unfold decoded_in_place. cbn [value_of e1].
    rewrite (decode_encoded _ k) by (first [congruence | subst ty; apply type_of_no_colon]).
    rewrite Hd. cbn [fst]. by rewrite (toType_inverts v). }
  destruct (rotation_one_entry seed c1 hKey (next_loc (cw c)) e1 s ty ct'
              Hready1 Hd1 Hl1) as (Hready2 & Hd2 & Hh2 & Hk2 & Hs2 & He2).
  { by rewrite Hdec. }
  { exact Hc'. }
  fold c2 in Hready2, Hd2, Hh2, Hk2, Hs2, He2. fold iv' in Hh2.
  split; [done|]. split; [done|]. split; [done|].
  split.
  { eexists _, _. split; [rewrite Hd2; unfold map_get; simpl; by rewrite Z.eqb_refl|].
    split; [exact Hh2|]. done. }
  destruct (read_drained seed c2 key Hready2) as [_ Hr]. fold c3 in Hr. rewrite Hr.
  simpl.
  erewrite (read_body_obfuscated seed (resumed_world (cw c2)) key (next_loc (cw c)));
    [|apply Hready2|simpl; rewrite Hd2; unfold map_get; simpl; by rewrite Z.eqb_refl
     |simpl; exact Hh2|done].
  cbn [value_of with_value].
  rewrite (decode_encoded _ k') by (first [done | subst ty; apply type_of_no_colon]).
  rewrite Hd'. by rewrite (toType_inverts v).
Qed.

Lemma rotation_keeps_an_obfuscated_entry_readable_witness :
  let c1 := run_microtasks 3
              (lift_world (write (js "k") (VString (js "hello")) ExpNever true) Toy.fresh).2 in
  let c2 := run_microtasks 2 (lift_world rotateKey c1).2 in
  let c3 := run_microtasks 1 (lift_world (read (js "k")) c2).2 in
  settled (cw c3) = settled (cw c2) ++ [(next_promise (cw c2), Ok (VString (js "hello")))].
Proof.
  apply (rotation_keeps_an_obfuscated_entry_readable 5381 Toy.fresh (js "k")
           (VString (js "hello")) ExpNever Toy.first_key (js "hello") (js "string")
           (Toy.encrypted (js "hello"))
           (match Toy.xor_cipher (@randomBytes Toy.platform 2 32)
                    (@randomBytes Toy.platform 3 16) (js "hello") with
            | Ok ct => ct
            | Throw _ => []
            end)).
  - apply toy_fresh_ready.
  - apply toy_fresh_ready.
  - vm_compute. reflexivity.
  - exact I.
  - reflexivity.
  - vm_compute. reflexivity.
  - vm_compute. reflexivity.
  - vm_compute. reflexivity.
  - vm_compute. reflexivity.
Defined.



(** ** Delays beyond the range of [setTimeout] *)

Section Chain.
Context `{Platform}.
Implicit Types (w : world) (c : cache) (cb : unbounded_callback).

Lemma setUnboundedTimeout_first cb d w :
  1 <= d <= maxTotalDelay →
  setUnboundedTimeout cb d w =
    (Ok {| ctimer := next_timer w; ccell := length (cells w) |},
     upd_next_timer S
       (upd_timers (λ ts, ts ++ [first_timeout cb d (next_timer w) (length (cells w)) w])
          (upd_cells (λ cs, cs ++ [None]) w))).
Proof.
  intros Hd. unfold setUnboundedTimeout, first_timeout.
  destruct (Z.gtb_spec d maxTotalDelay) as [|_]; [lia|].
  unfold maxDelay, TIMEOUT_MAX in *.
  destruct (Z.gtb_spec d 2147483647) as [Hlong|Hshort];
    unfold bind, get, modify, setTimeout, bind, get, modify, ret, TIMEOUT_MAX; simpl.
  - rewrite Z.min_r by lia. done.
  - rewrite Z.min_l by lia.
    destruct (Z.leb_spec 1 d); [|lia]. destruct (Z.leb_spec d 2147483647); [|lia]. done.
Qed.

Lemma run_timers_none fuel c : timers (cw c) = [] → run_timers fuel c = c.
Proof.
  intros Ht. destruct fuel; [done|]. simpl. unfold fire_next_timer. by rewrite Ht.
Qed.

(** [world_at] forgets the clock, the timers, the cells and the timer
    identifiers of the world it is given. *)
Lemma world_at_cells t cs nt w f : world_at t cs nt (upd_cells f w) = world_at t cs nt w.
Proof. by destruct w. Qed.

Lemma world_at_next_timer t cs nt w f :
  world_at t cs nt (upd_next_timer f w) = world_at t cs nt w.
Proof. by destruct w. Qed.

Lemma world_at_timers t cs nt w f : world_at t cs nt (upd_timers f w) = world_at t cs nt w.
Proof. by destruct w. Qed.

Lemma world_at_now t cs nt w f : world_at t cs nt (upd_now f w) = world_at t cs nt w.
Proof. by destruct w. Qed.

Lemma world_at_here w : timers w = [] → world_at (now w) (cells w) (next_timer w) w = w.
Proof. destruct w. simpl. by intros ->. Qed.

(** The chain of timers that [setUnboundedTimeout] starts runs link by
    link, each link [maxDelay] after the one before, until the callback
    is called, at the time the delay asked for. *)
Lemma chain_runs cb q n :
  ∀ d w id cell fuel,
    1 <= d <= maxTotalDelay →
    d <= Z.of_nat n * maxDelay →
    timers w = [first_timeout cb d id cell w] →
    microtasks w = [] →
    (n ≤ fuel)%nat →
    ∃ cs nt fuel',
      run_timers fuel {| cw := w; writeQueue := q |} =
        run_timers fuel'
          (run_microtasks (S fuel')
             {| cw := (run_timer_callback (CallAsync cb) (world_at (now w + d) cs nt w)).2;
                writeQueue := q |}).
Proof.
  induction n as [|n IH]; intros d w id cell fuel Hd Hn Ht Hm Hfuel; [lia|].
  destruct fuel as [|fuel]; [lia|].
  cbn [run_timers]. unfold fire_next_timer. cbn [cw writeQueue]. rewrite Ht.
  cbn [next_timer_due]. cbv zeta.
  assert (filter (λ t', tid t' ≠ id) [first_timeout cb d id cell w] = []) as Hfilter.
  { rewrite (filter_singleton _ _ []). by destruct (decide _). }
  unfold maxDelay in *.
  destruct (Z.gtb_spec d 2147483647) as [Hlong|Hshort].
  - (* a link of the chain fires and sets the next timer *)
    assert (tcallback (first_timeout cb d id cell w) = Chain cb d cell) as ->.
    { unfold first_timeout, maxDelay. simpl.
      destruct (Z.gtb_spec d 2147483647); [done|lia]. }
    cbn [run_timer_callback]. unfold bind at 1.
    rewrite setUnboundedTimeout_first by (unfold maxDelay; lia).
    unfold modify. cbn [snd].
    set (w1 := upd_timers _ (upd_now _ w)).
    set (w2 := upd_cells _ _).
    assert (now w1 = now w + 2147483647) as Hnow1.
    { unfold w1. cbn [now upd_timers upd_now due first_timeout]. unfold maxDelay. lia. }
    assert (timers w1 = []) as Ht1.
    { unfold w1. cbn [timers upd_timers upd_now tid first_timeout]. by rewrite Ht, Hfilter. }
    assert (microtasks w2 = []) as Hm2 by (unfold w2, w1; simpl; done).
    rewrite run_microtasks_nil by done.
    destruct (IH (d - 2147483647) w2 (next_timer w1) (length (cells w1)) fuel)
      as (cs & nt & fuel' & ->); try lia; try done.
    { unfold w2. cbn [timers upd_cells upd_next_timer upd_timers]. rewrite Ht1.
      unfold first_timeout. simpl. done. }
    exists cs, nt, fuel'. do 4 f_equal.
    replace (now w2 + (d - 2147483647)) with (now w + d)
      by (unfold w2; cbn [now upd_cells upd_next_timer upd_timers]; lia).
    unfold w2, w1.
    by rewrite ?world_at_cells, ?world_at_next_timer, ?world_at_timers, ?world_at_cells,
      ?world_at_timers, ?world_at_now.
  - (* the last link calls the callback *)
    assert (tcallback (first_timeout cb d id cell w) = CallAsync cb) as ->.
    { unfold first_timeout, maxDelay. simpl.
      destruct (Z.gtb_spec d 2147483647); [lia|done]. }
    exists (cells w), (next_timer w), fuel. do 4 f_equal.
    set (w1 := upd_timers _ (upd_now _ w)).
    assert (now w1 = now w + d) as Hnow1.
    { unfold w1. cbn [now upd_timers upd_now due first_timeout]. unfold maxDelay. lia. }
    assert (timers w1 = []) as Ht1.
    { unfold w1. cbn [timers upd_timers upd_now tid first_timeout]. by rewrite Ht, Hfilter. }
    rewrite <- Hnow1.
    replace (cells w) with (cells w1) by done.
    replace (next_timer w) with (next_timer w1) by done.
    rewrite <- (world_at_here w1 Ht1) at 1.
    unfold w1 at 4. by rewrite world_at_timers, world_at_now.
Qed.

Lemma chunks_cover d : 1 <= d → d <= Z.of_nat (chunks d) * maxDelay.
Proof.
  intros Hd. unfold chunks, maxDelay.
  rewrite Nat2Z.inj_succ, Z2Nat.id by (apply Z.div_pos; lia).
  pose proof (Z.div_mod (d - 1) 2147483647 ltac:(lia)).
  pose proof (Z.mod_pos_bound (d - 1) 2147483647 ltac:(lia)). lia.
Qed.

End Chain.

(** X22. A delay of any length up to one trillion milliseconds ends on
    time. [setUnboundedTimeout] is called with the callback of a cleanup and
    a delay [d] of at least one millisecond, in a world with no other timer
    and no micro-task. After the timers have fired, [chunks d] of them, one
    every 2147483647 ms, the clock stands at the time of the call plus [d],
    the callback has run once (the bucket is empty and the console was told
    once), and no timer and no micro-task is left. *)
Theorem unbounded_timeout_ends_on_time `{Platform} c hKey exp _timer d fuel :
  timers (cw c) = [] →
  microtasks (cw c) = [] →
  1 <= d <= maxTotalDelay →
  (chunks d ≤ fuel)%nat →
  let c1 := (lift_world (setUnboundedTimeout (ExpireEntry hKey exp _timer) d) c).2 in
  let c' := run_timers fuel c1 in
  now (cw c') = now (cw c) + d
  ∧ timers (cw c') = []
  ∧ microtasks (cw c') = []
  ∧ data (cw c') = map_delete hKey (data (cw c))
  ∧ console (cw c') = console (cw c) ++ [LogInfo expired_info].
Proof.
  intros Ht Hm Hd Hfuel c1 c'. destruct c as [w q]. simpl in *.
  unfold c', c1, lift_world. simpl.
  rewrite setUnboundedTimeout_first by done. simpl.
  match goal with |- context [run_timers fuel {| cw := ?w1; writeQueue := q |}] =>
    destruct (chain_runs (ExpireEntry hKey exp _timer) q (chunks d) d w1
                (next_timer w) (length (cells w)) fuel Hd (chunks_cover d ltac:(lia)))
      as (cs & nt & fuel' & ->) end; try done.
  { simpl. by rewrite Ht. }
  simpl.
  erewrite run_microtasks_cons; [|simpl; rewrite Hm; done].
  simpl. rewrite run_microtasks_nil by done.
  rewrite run_timers_none by done. simpl. done.
Qed.

Lemma unbounded_timeout_ends_on_time_witness :
  let c0 := {| cw := @empty_world Toy.platform (Some 5381);
               writeQueue := writeQueue Toy.fresh |} in
  let c1 := (lift_world (setUnboundedTimeout
                           (ExpireEntry 1 (Duration_days 60) {| ctimer := 0; ccell := 0 |})
                           (toMilliseconds (Duration_days 60))) c0).2 in
  now (cw (run_timers 3 c1)) = 5184000000 ∧ timers (cw (run_timers 3 c1)) = [].
Proof.
  destruct (unbounded_timeout_ends_on_time
              {| cw := @empty_world Toy.platform (Some 5381);
                 writeQueue := writeQueue Toy.fresh |}
              1 (Duration_days 60) {| ctimer := 0; ccell := 0 |}
              (toMilliseconds (Duration_days 60)) 3)
    as (Hnow & Htimers & _).
  - reflexivity.
  - reflexivity.
  - vm_compute. split; discriminate.
  - vm_compute. lia.
  - split; [exact Hnow|exact Htimers].
Defined.

Section NoRearming.
Context `{Platform}.
Implicit Types (w : world) (c : cache).

Lemma rotation_step_refl w : rotation_step w w.
Proof. split_and!; try done. exists []. by rewrite app_nil_r. Qed.

Lemma rotation_step_trans w1 w2 w3 :
  rotation_step w1 w2 → rotation_step w2 w3 → rotation_step w1 w3.
Proof.
  intros (Hn & Ht & Hk & ts & Hm & Hts) (Hn' & Ht' & Hk' & ts' & Hm' & Hts').
  split_and!; try congruence.
  exists (ts ++ ts'). rewrite Hm', Hm, <- app_assoc. split; [done|].
  by apply Forall_app.
Qed.

Lemma encode_step (v : value object) w : rotation_step w (encode v w).2.
Proof.
  destruct (encode_total v w) as (val & w' & ts & He & Hm & Hts & Hs).
  destruct (encode_clock v w) as (Hn & _).
  rewrite He in *. simpl in *.
  destruct Hs as (_ & _ & _ & _ & Hk & _ & _ & _ & Ht).
  split_and!; try done. exists ts. split; [done|].
  destruct Hts as [-> | ->]; [done|].
  constructor; [|done]. right. by eexists.
Qed.

(** The loop of [#handleKeyRotated]. *)
Lemma encode_in_place_step (t : list (Z * nat)) :
  ∀ w, rotation_step w
         (forEach (λ p : Z * nat, bind (deref p.2) (λ e,
                     bind (encode (value_of e)) (λ v, set_value p.2 v))) t w).2.
Proof.
  induction t as [|[k l] t IH]; intros w; [apply rotation_step_refl|].
  cbn [forEach]. unfold bind at 1. unfold bind at 1.
  unfold deref at 1, bind at 1, get at 1. cbn [snd].
  destruct (heap w !! l) as [e|]; cbn beta iota; [|apply rotation_step_refl].
  unfold ret at 1. cbn beta iota. unfold bind at 1.
  pose proof (encode_step (value_of e) w) as He.
  destruct (encode (value_of e) w) as [[val|err] w1]; cbn [snd] in *; [|done].
  unfold set_value, modify. cbn beta iota.
  eapply rotation_step_trans; [|apply IH].
  eapply rotation_step_trans; [exact He|].
  split_and!; try done. exists []. by rewrite app_nil_r.
Qed.

Lemma handleKeyRotated_step w : rotation_step w (handleKeyRotated w).2.
Proof.
  unfold handleKeyRotated, destroy. unfold bind at 1, modify at 1.
  unfold bind at 1. unfold bind at 1, modify at 1. unfold bind at 1, modify at 1.
  unfold modify at 1. cbn beta iota. unfold bind at 1, get at 1. cbn beta iota.
  match goal with |- context [temp ?w0] => destruct (temp w0) as [t|] end.
  - unfold bind at 1.
    match goal with |- context [forEach ?f t ?w0] =>
      pose proof (encode_in_place_step t w0) as Hloop;
      destruct (forEach f t w0) as [[[]|err] w1] end; cbn [snd] in *.
    + unfold bind, modify. cbn beta iota.
      eapply rotation_step_trans; [eapply rotation_step_trans; [|exact Hloop]|].
      * split_and!; try done. exists []. by rewrite app_nil_r.
      * split_and!; try done. exists []. by rewrite app_nil_r.
    + eapply rotation_step_trans; [|exact Hloop].
      split_and!; try done. exists []. by rewrite app_nil_r.
  - unfold throw. cbn [snd].
    split_and!; try done. exists []. by rewrite app_nil_r.
Qed.

(** The rest of [emitter], for each event. *)
Lemma emitter_rest_step ev w :
  rotation_step w (emitter_rest ev (handlers_of ev) w).2.
Proof.
  unfold emitter_rest, try_catch, emit. unfold bind at 1. unfold bind at 1, modify at 1.
  destruct ev; cbn [handlers_of listeners afterHandlers no_handlers forEach].
  - unfold bind at 1.
    match goal with |- context [handleKeyRotated ?w0] =>
      pose proof (handleKeyRotated_step w0) as Hh;
      destruct (handleKeyRotated w0) as [[[]|err] w1] end; cbn [snd] in *.
    + unfold ret, run_hooks. cbn [forEach]. unfold ret. cbn [snd].
      eapply rotation_step_trans; [|exact Hh].
      split_and!; try done. exists []. by rewrite app_nil_r.
    + unfold ret. cbn [snd].
      eapply rotation_step_trans; [|exact Hh].
      split_and!; try done. exists []. by rewrite app_nil_r.
  - unfold ret, run_hooks. cbn [forEach]. unfold ret. cbn [snd].
    split_and!; try done. exists []. by rewrite app_nil_r.
  - unfold ret, run_hooks. cbn [forEach]. unfold ret. cbn [snd].
    split_and!; try done. exists []. by rewrite app_nil_r.
Qed.

(** The micro-tasks of a rotation set no timer and leave the key, however
    many of them run. *)
Lemma rotation_tasks_run fuel :
  ∀ c, Forall rotation_task (microtasks (cw c)) →
    let c' := run_microtasks fuel c in
    now (cw c') = now (cw c) ∧ timers (cw c') = timers (cw c)
    ∧ fideliusCharm (cw c') = fideliusCharm (cw c)
    ∧ writeQueue c' = writeQueue c.
Proof.
  induction fuel as [|fuel IH]; intros c Hall; [done|].
  destruct (microtasks (cw c)) as [|t ts] eqn:Hm.
  - cbv zeta. by rewrite run_microtasks_nil.
  - cbv zeta. rewrite (run_microtasks_cons fuel c t ts Hm).
    apply Forall_cons in Hall as [Ht Hts].
    set (c0 := {| cw := upd_microtasks (λ _, ts) (cw c); writeQueue := writeQueue c |}).
    assert (now (cw (run_task t c0)) = now (cw c)
            ∧ timers (cw (run_task t c0)) = timers (cw c)
            ∧ fideliusCharm (cw (run_task t c0)) = fideliusCharm (cw c)
            ∧ writeQueue (run_task t c0) = writeQueue c
            ∧ Forall rotation_task (microtasks (cw (run_task t c0)))) as Hstep.
    { destruct Ht as [->|[ev ->]]; [done|].
      cbn [run_task]. unfold lift_world. cbn [cw c0 writeQueue].
      pose proof (emitter_rest_step ev (upd_microtasks (λ _, ts) (cw c)))
        as (Hn & Hti & Hk & ts' & Hmt & Hts').
      destruct (emitter_rest ev (handlers_of ev) (upd_microtasks (λ _, ts) (cw c)))
        as [r w1]. cbn [snd cw writeQueue] in *.
      split_and!; try done. rewrite Hmt. by apply Forall_app. }
    destruct Hstep as (Hn & Hti & Hk & Hq & Hall').
    destruct (IH (run_task t c0) Hall') as (Hn' & Hti' & Hk' & Hq').
    split_and!; congruence.
Qed.

End NoRearming.

(** X23. The key is rotated once. [#rotator()], which the constructor
    calls, sets the chain of timers for the rotation period; let the period
    be between one and one trillion milliseconds, and no other timer or
    micro-task be there. When the period is over, [rotateKey()] is called:
    the key is replaced by the next 32 random bytes. The rotation and the
    micro-tasks it queues set no timer: once they have run no timer is
    left, and however much time passes nothing happens any more. The key
    is not rotated a second time. *)
Theorem key_rotation_fires_once `{Platform} c fuel :
  timers (cw c) = [] →
  microtasks (cw c) = [] →
  let d := toMilliseconds (defaultKeyRotationDuration (cw c)) in
  1 <= d <= maxTotalDelay →
  (chunks d ≤ fuel)%nat →
  let c1 := (lift_world rotator c).2 in
  let c' := run_timers fuel c1 in
  now (cw c') = now (cw c) + d
  ∧ timers (cw c') = []
  ∧ fideliusCharm (cw c') = Some (randomBytes (draws (cw c1)) 32)
  ∧ ∀ fuel', run_timers fuel' c' = c'.
Proof.
  intros Ht Hm d Hd Hfuel c1 c'. destruct c as [w q]. cbn [cw] in *.
  assert (∃ w1 id cell,
            c1 = {| cw := w1; writeQueue := q |}
            ∧ timers w1 = [first_timeout RotateKey d id cell w1]
            ∧ microtasks w1 = [] ∧ now w1 = now w) as (w1 & id & cell & Hc1 & Ht1 & Hm1 & Hn1).
  { unfold c1, lift_world, rotator. cbn [cw writeQueue].
    unfold bind at 1, get at 1. unfold bind at 1, get at 1. unfold bind at 1.
    fold d.
    destruct (fideliusCharm w) as [k|].
    - unfold ret at 1. unfold bind at 1.
      rewrite setUnboundedTimeout_first by done. unfold modify.
      eexists _, _, _. split; [done|]. simpl. rewrite Ht. done.
    - unfold bind at 1, random_bytes, bind, get, modify, ret. cbn beta iota.
      rewrite setUnboundedTimeout_first by done.
      eexists _, _, _. split; [done|]. simpl. rewrite Ht. done. }
  unfold c'. rewrite Hc1.
  destruct (chain_runs RotateKey q (chunks d) d w1 id cell fuel Hd
              (chunks_cover d ltac:(lia)) Ht1 Hm1 Hfuel) as (cs & nt & fuel' & ->).
  destruct (rotateKey_total (world_at (now w1 + d) cs nt w1))
    as (w2 & Hrot & Hk2 & _ & _ & _ & _ & Ht2 & _ & Hm2 & Hn2).
  assert ((run_timer_callback (CallAsync RotateKey) (world_at (now w1 + d) cs nt w1)).2
          = upd_microtasks (λ l, l ++ [AfterAwait]) w2) as ->.
  { cbn [run_timer_callback run_unbounded_callback]. unfold bind. by rewrite Hrot. }
  unfold world_at in Hk2, Ht2, Hm2, Hn2.
  cbn [draws timers microtasks now upd_cells upd_next_timer upd_timers upd_now]
    in Hk2, Ht2, Hm2, Hn2.
  rewrite Hm1 in Hm2.
  set (c2 := {| cw := upd_microtasks _ w2; writeQueue := q |}).
  destruct (rotation_tasks_run (S fuel') c2) as (Hn3 & Ht3 & Hk3 & Hq3).
  { unfold c2. cbn [cw microtasks upd_microtasks]. rewrite Hm2. simpl.
    apply Forall_cons_2; [right; by eexists|].
    apply Forall_cons_2; [by left|]. apply Forall_nil_2. }
  assert (timers (cw (run_microtasks (S fuel') c2)) = []) as Hnone.
  { rewrite Ht3. unfold c2. cbn [cw timers upd_microtasks]. exact Ht2. }
  rewrite run_timers_none by done.
  split; [rewrite Hn3; unfold c2; cbn [cw now upd_microtasks]; rewrite Hn2; lia|].
  split; [done|].
  split.
  { rewrite Hk3. unfold c2. cbn [cw fideliusCharm upd_microtasks]. rewrite Hk2. done. }
  intros fuel2. by apply run_timers_none.
Qed.

Lemma key_rotation_fires_once_witness :
  let c0 := {| cw := @empty_world Toy.platform (Some 5381);
               writeQueue := writeQueue Toy.fresh |} in
  let c' := run_timers 4 (lift_world rotator c0).2 in
  now (cw c') = 7776000000 ∧ timers (cw c') = [] ∧ run_timers 1000 c' = c'.
Proof.
  destruct (key_rotation_fires_once
              {| cw := @empty_world Toy.platform (Some 5381);
                 writeQueue := writeQueue Toy.fresh |} 4)
    as (Hnow & Htimers & _ & Hstop).
  - reflexivity.
  - reflexivity.
  - vm_compute. split; discriminate.
  - vm_compute. lia.
  - split; [exact Hnow|]. split; [exact Htimers|apply Hstop].
Defined.

(** ** Writes that are not awaited *)

Section Unawaited.
Context `{Platform}.
Implicit Types (w : world) (c : cache) (key : jsstring) (v : value object).




End Unawaited.



(** ** The gate of the cache in the reachable states *)

Section Arrays.
Context {A : Type} (undefined : A) (P : A → Prop).

Lemma array_set_Forall l i x :
  Forall P l → P x → P undefined → Forall P (Queue.array_set undefined l i x).
Proof.
  intros Hl Hx Hu. unfold Queue.array_set.
  destruct (i <? 0); [done|].
  destruct (Z.to_nat i <? length l)%nat.
  - by apply Forall_insert.
  - apply Forall_app. split; [done|]. apply Forall_app. split.
    + by apply Forall_replicate.
    + by constructor.
Qed.

Lemma new_Forall C q : Queue.new undefined C = Ok q → P undefined → Forall P (Queue.items q).
Proof.
  unfold Queue.new. destruct ((0 <=? C) && (C <? 2 ^ 32)); [|done].
  intros Heq Hu. injection Heq as <-. by apply Forall_replicate.
Qed.

Lemma array_get_Forall l i : Forall P l → P undefined → P (Queue.array_get undefined l i).
Proof.
  intros Hl Hu. unfold Queue.array_get. destruct (i <? 0); [done|].
  destruct (l !! Z.to_nat i) as [x|] eqn:Hx; simpl; [|done].
  by eapply Forall_lookup_1.
Qed.
End Arrays.

Section Gate.
Context `{Platform}.
Implicit Types (w : world) (c : cache) (s : ProcessQueue.t world (value object)).

Abbreviation pq_loop := (ProcessQueue.loop pq_console_error pq_schedule_resume).
Abbreviation pq_resume := (ProcessQueue.resume pq_console_error pq_schedule_resume).
Abbreviation pq_enqueue := (ProcessQueue.enqueue pq_console_error pq_schedule_resume).

Lemma loop_gate s w :
  Forall slot_ok (Queue.items (ProcessQueue.queue s)) →
  isPaused w = false →
  isPaused (pq_loop s w).2 = false ∧ queue_ok (pq_loop s w).1.
Proof.
  intros Hitems Hgate. unfold ProcessQueue.loop.
  destruct (Queue.isEmpty (ProcessQueue.queue s)); [done|].
  unfold Queue.dequeue. destruct (Queue.isEmpty (ProcessQueue.queue s)); [done|].
  pose proof (array_get_Forall None slot_ok (Queue.items (ProcessQueue.queue s))
                (Queue.front (ProcessQueue.queue s)) Hitems I) as Hslot.
  assert (Forall slot_ok
            (Queue.array_set None (Queue.items (ProcessQueue.queue s))
               (Queue.front (ProcessQueue.queue s)) None)) as Hitems'
    by (by apply array_set_Forall).
  destruct (Queue.array_get None _ _) as [it|]; [|done].
  destruct Hslot as [Hcb Hsafe]. specialize (Hsafe w Hgate).
  destruct (ProcessQueue.function it w) as [r w'|e w'|e w']; simpl; rewrite ?Hcb; done.
Qed.

Lemma resume_gate s w :
  queue_ok s → isPaused w = false →
  isPaused (pq_resume s w).2 = false ∧ queue_ok (pq_resume s w).1.
Proof.
  intros [Hitems Hsus] Hgate. unfold ProcessQueue.resume.
  destruct (ProcessQueue.suspended s) as [[[r|e] [cb|]|[u|e]]|] eqn:Hs;
    try done; try (by apply loop_gate);
    (split; [done|]; split; [done|]; simpl; rewrite ?Hs; done).
Qed.

Lemma as_job_gate_safe (m : M unit) :
  (∀ w, isPaused (m w).2 = isPaused w) → gate_safe (as_job m).
Proof.
  intros Hm w Hgate. unfold as_job. specialize (Hm w).
  destruct (m w) as [[[]|e] w']; simpl in *; congruence.
Qed.

Lemma enqueue_gate s w f q' w' :
  queue_ok s → isPaused w = false → gate_safe f →
  pq_enqueue f None s w = Ok (q', w') →
  isPaused w' = false ∧ queue_ok q'.
Proof.
  intros [Hitems Hsus] Hgate Hf. unfold ProcessQueue.enqueue, Queue.enqueue.
  destruct (Queue.isFull (ProcessQueue.queue s)); [done|]. cbn [ProcessQueue.with_queue].
  set (items' := Queue.array_set None _ _ _).
  assert (Forall slot_ok items') as Hitems'.
  { apply array_set_Forall; [done| |done]. split; [done|exact Hf]. }
  intros Heq. injection Heq as Heq.
  destruct (ProcessQueue.isExecuting s) eqn:Hex.
  - injection Heq as <- <-. split; [done|]. split; done.
  - unfold ProcessQueue.execute in Heq.
    cbn [ProcessQueue.queue ProcessQueue.isExecuting ProcessQueue.with_queue] in Heq.
    rewrite Hex, orb_false_r in Heq.
    destruct (Queue.isEmpty _) eqn:Hem.
    + injection Heq as <- <-. split; [done|]. split; done.
    + match type of Heq with ?l = _ =>
        assert (isPaused l.2 = false ∧ queue_ok l.1) as Hl end.
      { by apply loop_gate. }
      rewrite Heq in Hl. exact Hl.
Qed.

(** The loop of [#handleKeyRotated] leaves the gate. *)
Lemma encode_in_place_gate (t : list (Z * nat)) :
  ∀ w, isPaused (forEach (λ p : Z * nat, bind (deref p.2) (λ e,
                   bind (encode (value_of e)) (λ v, set_value p.2 v))) t w).2
       = isPaused w.
Proof.
  induction t as [|[k l] t IH]; intros w; [done|].
  cbn [forEach]. unfold bind at 1. unfold bind at 1.
  unfold deref at 1, bind at 1, get at 1. cbn [snd].
  destruct (heap w !! l) as [e|]; cbn beta iota; [|done].
  unfold ret at 1. cbn beta iota. unfold bind at 1.
  destruct (encode_total (value_of e) w) as (val & w1 & ts & He & _ & _ & Hs).
  rewrite He. cbn beta iota. unfold set_value, modify. cbn beta iota.
  rewrite IH. simpl. apply Hs.
Qed.

(** [#handleKeyRotated] leaves the gate open, however it ends. *)
Lemma handleKeyRotated_gate w : isPaused (handleKeyRotated w).2 = false.
Proof.
  unfold handleKeyRotated, destroy. unfold bind at 1, modify at 1.
  unfold bind at 1. unfold bind at 1, modify at 1. unfold bind at 1, modify at 1.
  unfold modify at 1. cbn beta iota. unfold bind at 1, get at 1. cbn beta iota.
  match goal with |- context [temp ?w0] => destruct (temp w0) as [t|] end; [|done].
  unfold bind at 1.
  match goal with |- context [forEach ?f t ?w0] =>
    pose proof (encode_in_place_gate t w0) as Hloop;
    destruct (forEach f t w0) as [[[]|err] w1] end; cbn [snd] in *; [done|].
  rewrite Hloop. done.
Qed.

Lemma emitter_rest_gate ev w :
  isPaused w = false → isPaused (emitter_rest ev (handlers_of ev) w).2 = false.
Proof.
  intros Hgate.
  unfold emitter_rest, try_catch, emit. unfold bind at 1. unfold bind at 1, modify at 1.
  destruct ev; cbn [handlers_of listeners afterHandlers no_handlers forEach]; [|done|done].
  unfold bind at 1.
  match goal with |- context [handleKeyRotated ?w0] =>
    pose proof (handleKeyRotated_gate w0) as Hh;
    destruct (handleKeyRotated w0) as [[[]|err] w1] end; cbn [snd] in *; done.
Qed.

Lemma write_gate key (v : value object) exp obfuscate w :
  isPaused (write key v exp obfuscate w).2 = isPaused w.
Proof.
  unfold write, bind, createHashKey, bind, get, throw, ret, new_promise, bind, get, modify,
    ret, pauseUntilOperationsResumed, bind, get, setTimeout, bind, get, modify, ret,
    queueMicrotask, modify.
  destruct (CACHE_HASH_KEY_INITALIZER w) as [[| |]|]; simpl; try done;
    destruct (non_cachable _); simpl; try done; destruct (isPaused w) eqn:Hp; simpl; done.
Qed.

Lemma read_gate key w : isPaused (read key w).2 = isPaused w.
Proof.
  unfold read, new_promise, bind, get, modify, ret, pauseUntilOperationsResumed, bind, get,
    setTimeout, bind, get, modify, ret, queueMicrotask, modify. simpl.
  destruct (isPaused w) eqn:Hp; simpl; done.
Qed.

Lemma rotator_gate w : isPaused (rotator w).2 = isPaused w.
Proof.
  unfold rotator. unfold bind at 1, get at 1. unfold bind at 1, get at 1. unfold bind at 1.
  destruct (fideliusCharm w).
  - unfold ret at 1. unfold bind at 1.
    match goal with |- context [setUnboundedTimeout ?cb ?d ?w0] =>
      pose proof (setUnboundedTimeout_frame cb d w0) as Hf;
      destruct (setUnboundedTimeout cb d w0) as [[cn|e] w1] end; simpl in *; apply Hf.
  - unfold bind at 1, random_bytes, bind, get, modify, ret. cbn beta iota.
    match goal with |- context [setUnboundedTimeout ?cb ?d ?w0] =>
      pose proof (setUnboundedTimeout_frame cb d w0) as Hf;
      destruct (setUnboundedTimeout cb d w0) as [[cn|e] w1] end; simpl in *; apply Hf.
Qed.

Lemma set_duration_gate d w : isPaused (set_defaultKeyRotationDuration d w).2 = isPaused w.
Proof.
  unfold set_defaultKeyRotationDuration, emitter, run_hooks.
  cbn [handlers_of beforeHandlers no_handlers forEach].
  unfold bind, try_catch, modify, ret, get. cbn beta iota.
  destruct (existingRotatorTimerObject _); cbn [clearTimeout]; unfold ret; cbn beta iota.
  all: match goal with |- context [rotator ?w0] =>
         pose proof (rotator_gate w0) as Hr;
         destruct (rotator w0) as [[[]|e] w1] end; cbn [snd] in *.
  all: unfold queueMicrotask, console_error, modify, emitter_rest, try_catch, emit, bind,
         modify, run_hooks, ret; simpl; done.
Qed.

Lemma run_call_gate op c : gate_open c → gate_open (run_call op c).
Proof.
  intros (Hgate & Hq). destruct c as [w q]. cbn [cw writeQueue] in *.
  assert (∀ X (m : M X), isPaused (m w).2 = false →
            gate_open (lift_world m {| cw := w; writeQueue := q |}).2) as Hlift.
  { intros X m Hm. unfold lift_world. cbn [cw writeQueue].
    destruct (m w) as [r w']. by split. }
  destruct op; cbn [run_call]; apply Hlift.
  - by rewrite has_pure.
  - pose proof (delete_frame key w) as Hf. destruct Hf as (_ & _ & -> & _). done.
  - done.
  - by rewrite write_gate.
  - by rewrite read_gate.
  - destruct (rotateKey_total w) as (w' & Hr & _ & _ & _ & _ & Hp & _).
    rewrite Hr. simpl. congruence.
  - by rewrite set_duration_gate.
Qed.

Lemma write_resume_gate p key (v : value object) exp obfuscate typeOfValue hKey c :
  gate_open c → gate_open (write_resume p key v exp obfuscate typeOfValue hKey c).
Proof.
  intros (Hgate & Hq). unfold write_resume.
  assert (∃ r w2,
    (if obfuscate
     then try_catch (encode v)
            (λ err, throw (CacheException "UNABLE_TO_OBFUSCATE" "Failed to obfuscate value." err))
     else ret v) (cw c) = (r, w2) ∧ isPaused w2 = false) as (r & w2 & -> & Hg2).
  { destruct obfuscate.
    - destruct (encode_total v (cw c)) as (val & w' & ts & He & _ & _ & Hs).
      exists (Ok val), w'. unfold try_catch. rewrite He. split; [done|].
      destruct Hs as (_ & -> & _). done.
    - by exists (Ok v), (cw c). }
  destruct r as [_value|e]; [|by split].
  destruct (pq_enqueue _ None (writeQueue c) w2) as [[q' w']|e] eqn:Hen; [|by split].
  assert (gate_safe (as_job (write_job key hKey _value exp obfuscate typeOfValue))) as Hsafe.
  { apply as_job_gate_safe. intros w0.
    apply (write_job_frame key hKey _value exp obfuscate typeOfValue w0). }
  destruct (enqueue_gate (writeQueue c) w2 _ q' w' Hq Hg2 Hsafe Hen) as [Hg' Hq'].
  by split.
Qed.

Lemma tick_gate c c' : gate_open c → tick c = Some c' → gate_open c'.
Proof.
  intros (Hgate & Hq) Htick. unfold tick in Htick.
  destruct (microtasks (cw c)) as [|t ts]; [done|]. injection Htick as <-.
  set (c0 := {| cw := upd_microtasks (λ _, ts) (cw c); writeQueue := writeQueue c |}).
  assert (gate_open c0) as Hc0 by (by split).
  destruct t as [ev|k|k| |]; cbn [run_task].
  - unfold lift_world. cbn [cw c0 writeQueue].
    pose proof (emitter_rest_gate ev (upd_microtasks (λ _, ts) (cw c)) Hgate) as He.
    destruct (emitter_rest ev (handlers_of ev) _) as [r w1]. by split.
  - unfold lift_world, pauseUntilOperationsResumed, bind, get. cbn [cw c0 writeQueue].
    cbn [isPaused upd_microtasks]. rewrite Hgate. by split.
  - destruct k as [p key|p key v exp obfuscate typeOfValue hKey]; cbn [run_continuation].
    + rewrite read_resume_settles. by split.
    + by apply write_resume_gate.
  - cbn [c0 cw writeQueue].
    destruct (resume_gate (writeQueue c) (upd_microtasks (λ _, ts) (cw c)) Hq Hgate)
      as [Hg' Hq'].
    destruct (pq_resume _ _) as [q' w']. by split.
  - done.
Qed.

Lemma timer_gate c c' : gate_open c → fire_next_timer c = Some c' → gate_open c'.
Proof.
  intros (Hgate & Hq) Hfire. unfold fire_next_timer in Hfire.
  destruct (next_timer_due (timers (cw c))) as [t|]; [|done]. injection Hfire as <-.
  split; [|exact Hq]. cbn [cw].
  destruct (tcallback t) as [cb|cb delay cell|k]; cbn [run_timer_callback].
  - destruct cb as [|hKey exp tm]; cbn [run_unbounded_callback]; [|done].
    unfold bind.
    match goal with |- context [rotateKey ?w0] =>
      destruct (rotateKey_total w0) as (w' & -> & _ & _ & _ & _ & Hp & _) end.
    simpl. rewrite Hp. done.
  - unfold bind.
    match goal with |- context [setUnboundedTimeout ?cb0 ?d ?w0] =>
      pose proof (setUnboundedTimeout_frame cb0 d w0) as Hf;
      destruct (setUnboundedTimeout cb0 d w0) as [[cn|e] w1] end; simpl in *;
      destruct Hf as (_ & _ & -> & _); done.
  - done.
Qed.

Lemma step_gate c c' : gate_open c → step c c' → gate_open c'.
Proof.
  intros Hc Hstep. destruct Hstep as [op c|c c' Ht|c c' Hf].
  - by apply run_call_gate.
  - by eapply tick_gate.
  - by eapply timer_gate.
Qed.

Lemma new_Cache_gate seed c : new_Cache seed = Ok c → gate_open c.
Proof.
  unfold new_Cache, ProcessQueue.new.
  destruct (Queue.new None 5000) as [q0|e] eqn:Hq0; [|done].
  pose proof (new_Forall None slot_ok 5000 q0 Hq0 I) as Hitems.
  pose proof (rotator_gate (empty_world seed)) as Hr.
  destruct (rotator (empty_world seed)) as [[[]|e] w]; [|done].
  intros Heq. injection Heq as <-. split; [exact Hr|]. split; [exact Hitems|exact I].
Qed.

End Gate.

(** X25. The gate is never seen closed. In every state that a new cache
    comes to, by calls of its interface, micro-tasks and timers in any
    order, [#isPaused] is false: [destroy()] and [#handleKeyRotated] raise
    the flag and lower it again before they return, and nothing else
    touches it. So [read] and [write] never wait: their
    [#pauseUntilOperationsResumed] never sets its timer, and a rotation
    holds no operation back. *)
Theorem gate_is_never_seen_closed `{Platform} seed c :
  reachable seed c →
  isPaused (cw c) = false
  ∧ ∀ k, pauseUntilOperationsResumed k (cw c) = queueMicrotask (Resume k) (cw c).
Proof.
  intros (c0 & Hnew & Hsteps).
  assert (gate_open c) as (Hgate & _).
  { apply new_Cache_gate in Hnew.
    induction Hsteps as [c0|c0 c1 c2 Hstep _ IH]; [done|].
    apply IH. by eapply step_gate. }
  split; [done|]. intros k. unfold pauseUntilOperationsResumed, bind, get. by rewrite Hgate.
Qed.

Lemma gate_is_never_seen_closed_witness :
  isPaused (cw (run_call CallRotateKey Toy.fresh)) = false.
Proof.
  apply (gate_is_never_seen_closed (Some 5381) (run_call CallRotateKey Toy.fresh)).
  exists Toy.fresh. split; [reflexivity|]. apply rtc_once, step_call.
Defined.

(** ** The slots that the queue has given up *)

Section QueueSlots.
Context {A : Type} (undefined : A).
Implicit Types (q : Queue.t A) (x : A).

Lemma new_clean C q :
  Queue.new undefined C = Ok q →
  Queue.wf q ∧ clean undefined q ∧ Queue.capacity q = C.
Proof.
  intros Hnew.
  assert (0 <= C < 2 ^ 32) as HC.
  { unfold Queue.new in Hnew.
    destruct (Z.leb_spec 0 C); destruct (Z.ltb_spec C (2 ^ 32));
      simpl in Hnew; try done; lia. }
  destruct (new_ok undefined C HC) as (q' & Hq' & Hwf & _ & Hcap & _).
  rewrite Hnew in Hq'. injection Hq' as <-. split; [done|]. split; [|done].
  intros i Hi _. unfold Queue.new in Hnew.
  destruct ((0 <=? C) && (C <? 2 ^ 32)); [|done]. injection Hnew as <-.
  simpl. unfold Queue.array_get.
  destruct (Z.ltb_spec i 0); [done|].
  destruct (replicate (Z.to_nat C) undefined !! Z.to_nat i) as [y|] eqn:Hy;
    [|done].
  apply lookup_replicate in Hy as [-> _]. done.
Qed.

Lemma enqueue_clean q q' x :
  Queue.wf q → clean undefined q → Queue.enqueue undefined x q = Ok q' →
  Queue.wf q' ∧ clean undefined q' ∧ Queue.capacity q' = Queue.capacity q.
Proof.
  intros Hwf Hclean Hen.
  assert (Queue.size q ≠ Queue.capacity q) as Hnf.
  { intros Hfull. by rewrite enqueue_full in Hen. }
  destruct (enqueue_ok undefined q x Hwf Hnf) as (q1 & Hq1 & Hwf1 & _ & Hsz1 & Hcap1).
  rewrite Hen in Hq1. injection Hq1 as <-. split; [done|]. split; [|done].
  destruct Hwf as [Hlen Hsz Hfr Hre].
  set (C := Queue.capacity q) in *.
  assert (0 < C) as HC by lia.
  destruct Hfr as [Hfr|[? _]]; [|lia]. specialize (Hre HC).
  unfold Queue.enqueue, Queue.isFull in Hen.
  destruct (Z.eqb_spec (Queue.size q) (Queue.capacity q)) as [|_]; [done|].
  injection Hen as <-.
  assert (Z.rem (Queue.rear q + 1) C = (Queue.front q + Queue.size q) mod C)
    as Hrear.
  { rewrite Z.rem_mod_nonneg;
      [|rewrite Hre;
        pose proof (Z.mod_pos_bound (Queue.front q + Queue.size q - 1) C HC);
        lia|done].
    rewrite Hre, Zplus_mod_idemp_l. f_equal. lia. }
  pose proof (Z.mod_pos_bound (Queue.front q + Queue.size q) C HC) as Hb.
  intros i Hi Hout. unfold in_window in Hout. simpl in Hi, Hout |- *.
  fold C in Hi, Hout |- *. rewrite Hrear.
  rewrite array_get_set_ne; [|lia|].
  - apply Hclean; [done|]. intros (k & Hk & Hik). apply Hout.
    exists k. split; [lia|done].
  - intros <-. apply Hout. exists (Queue.size q). split; [lia|done].
Qed.

Lemma dequeue_clean q q' x :
  Queue.wf q → clean undefined q → Queue.dequeue undefined q = Ok (x, q') →
  Queue.wf q' ∧ clean undefined q' ∧ Queue.capacity q' = Queue.capacity q.
Proof.
  intros Hwf Hclean Hde.
  assert (Queue.size q ≠ 0) as Hne.
  { intros Hemp. by rewrite dequeue_empty in Hde. }
  destruct (dequeue_ok undefined q Hwf Hne) as (x1 & q1 & Hq1 & Hwf1 & _ & Hsz1 & Hcap1).
  rewrite Hde in Hq1. injection Hq1 as <- <-. split; [done|]. split; [|done].
  destruct Hwf as [Hlen Hsz Hfr Hre].
  set (C := Queue.capacity q) in *.
  assert (0 < C) as HC by lia.
  destruct Hfr as [Hfr|[? _]]; [|lia].
  unfold Queue.dequeue, Queue.isEmpty in Hde.
  destruct (Z.eqb_spec (Queue.size q) 0) as [|_]; [done|].
  injection Hde as _ <-.
  assert (Z.rem (Queue.front q + 1) C = (Queue.front q + 1) mod C) as Hfront
    by (apply Z.rem_mod_nonneg; lia).
  intros i Hi Hout. unfold in_window in Hout. simpl in Hi, Hout |- *.
  fold C in Hi, Hout |- *.
  destruct (decide (i = Queue.front q)) as [->|Hif].
  { apply array_get_set_eq. lia. }
  rewrite array_get_set_ne; [|lia|done].
  apply Hclean; [done|]. intros (k & Hk & Hik). fold C in Hik.
  destruct (decide (k = 0)) as [->|Hk0].
  { apply Hif. rewrite Hik, Z.add_0_r. apply Z.mod_small. lia. }
  apply Hout. exists (k - 1). split; [lia|].
  rewrite Hik, Hfront, Zplus_mod_idemp_l. f_equal. lia.
Qed.

Lemma run_clean C ops :
  ∀ q, Queue.wf q → clean undefined q → Queue.capacity q = C →
    let q' := (Queue.run undefined ops q).2 in
    Queue.wf q' ∧ clean undefined q' ∧ Queue.capacity q' = C.
Proof.
  induction ops as [|o ops IH]; intros q Hwf Hclean HC; [done|].
  destruct o as [x| |]; simpl.
  - destruct (Queue.enqueue undefined x q) as [q1|e] eqn:Hen.
    + destruct (enqueue_clean q q1 x Hwf Hclean Hen) as (Hwf1 & Hclean1 & HC1).
      specialize (IH q1 Hwf1 Hclean1 ltac:(congruence)).
      by destruct (Queue.run undefined ops q1).
    + specialize (IH q Hwf Hclean HC).
      by destruct (Queue.run undefined ops q).
  - destruct (Queue.dequeue undefined q) as [[x q1]|e] eqn:Hde.
    + destruct (dequeue_clean q q1 x Hwf Hclean Hde) as (Hwf1 & Hclean1 & HC1).
      specialize (IH q1 Hwf1 Hclean1 ltac:(congruence)).
      by destruct (Queue.run undefined ops q1).
    + specialize (IH q Hwf Hclean HC).
      by destruct (Queue.run undefined ops q).
  - specialize (IH q Hwf Hclean HC).
    destruct (Queue.peek undefined q);
      by destruct (Queue.run undefined ops q).
Qed.

End QueueSlots.

(** X26. The queue keeps nothing of what it has handed out. After any
    sequence of [enqueue], [dequeue] and [peek] on a new queue, failed
    calls included, the array still has as many slots as the capacity, and
    every slot outside the window of the pending items reads [undefined]:
    [dequeue] has cleared the slot of each item it returned, and [enqueue]
    has never written outside the array. So a queue that has been emptied
    holds [undefined] in every slot. *)
Theorem dequeued_slots_are_cleared {A : Type} (undefined : A) C ops q0 :
  Queue.new undefined C = Ok q0 →
  let q := (Queue.run undefined ops q0).2 in
  Z.of_nat (length (Queue.items q)) = C
  ∧ clean undefined q
  ∧ (Queue.size q = 0 →
     ∀ i, 0 <= i < C → Queue.array_get undefined (Queue.items q) i = undefined).
Proof.
  intros Hnew q.
  destruct (new_clean undefined C q0 Hnew) as (Hwf0 & Hclean0 & HC0).
  destruct (run_clean undefined C ops q0 Hwf0 Hclean0 HC0) as (Hwf & Hclean & HC).
  fold q in Hwf, Hclean, HC. split; [|split; [done|]].
  - rewrite <- HC. apply Hwf.
  - intros Hemp i Hi. apply Hclean; [lia|].
    intros (k & Hk & _). lia.
Qed.

Lemma dequeued_slots_are_cleared_witness :
  ∃ q0, Queue.new 0 3 = Ok q0 ∧
  let q := (Queue.run 0
              [Queue.Enqueue 7; Queue.Enqueue 8; Queue.Dequeue; Queue.Enqueue 9;
               Queue.Enqueue 10; Queue.Enqueue 11; Queue.Dequeue; Queue.Dequeue;
               Queue.Dequeue; Queue.Dequeue] q0).2 in
  Z.of_nat (length (Queue.items q)) = 3
  ∧ clean 0 q
  ∧ (Queue.size q = 0 →
     ∀ i, 0 <= i < 3 → Queue.array_get 0 (Queue.items q) i = 0).
Proof.
  eexists. split; [reflexivity|].
  apply (dequeued_slots_are_cleared 0 3). reflexivity.
Defined.

(** ** Business days *)

Section BusinessDayFacts.
Import BusinessDays.

Lemma Day_midnight d : Day (d * msPerDay) = d.
Proof. unfold Day. by apply Z.div_mul. Qed.

Lemma valid_Day t : valid t → - maxDay <= Day t <= maxDay.
Proof.
  unfold valid, Day, maxTime, maxDay, msPerDay. intros Ht.
  pose proof (Z.div_mod t 86400000 ltac:(lia)).
  pose proof (Z.mod_pos_bound t 86400000 ltac:(lia)). lia.
Qed.

Lemma TimeClip_midnight d :
  - maxDay <= d <= maxDay → TimeClip (d * msPerDay) = midnight d.
Proof.
  unfold TimeClip, maxTime, maxDay, msPerDay, midnight. intros Hd.
  destruct (Z.leb_spec (Z.abs (d * 86400000)) 8640000000000000); [done|lia].
Qed.

Lemma setUTCHours_midnight_valid t :
  valid t → setUTCHours_midnight (Some t) = midnight (Day t).
Proof. intros Ht. simpl. apply TimeClip_midnight. by apply valid_Day. Qed.

Lemma setUTCDate_next_midnight d :
  - maxDay <= d → d + 1 <= maxDay →
  setUTCDate_next (midnight d) = midnight (d + 1).
Proof.
  intros Hlo Hhi. unfold midnight. simpl.
  replace (d * msPerDay + msPerDay) with ((d + 1) * msPerDay) by lia.
  apply TimeClip_midnight. lia.
Qed.

Lemma getUTCDay_midnight d :
  not_weekend (getUTCDay (midnight d)) = business d.
Proof. unfold midnight, business. simpl. by rewrite Day_midnight. Qed.

Lemma date_lt_midnight a b :
  date_lt (midnight a) (midnight b) = (a <? b).
Proof.
  unfold midnight, msPerDay. simpl.
  destruct (Z.ltb_spec (a * 86400000) (b * 86400000));
    destruct (Z.ltb_spec a b); try done; lia.
Qed.

Lemma business_days_nil a b : b <= a → business_days a b = 0.
Proof. intros Hab. unfold business_days. by rewrite seqZ_nil by lia. Qed.

Lemma business_days_cons a b :
  a < b →
  business_days a b
  = (if business a then 1 else 0) + business_days (a + 1) b.
Proof.
  intros Hab. unfold business_days. rewrite seqZ_cons by lia.
  replace (Z.succ a) with (a + 1) by lia.
  replace (Z.pred (b - a)) with (b - (a + 1)) by lia.
  destruct (business a) eqn:Hb.
  - rewrite filter_cons_True by done. simpl length. lia.
  - rewrite filter_cons_False by (by rewrite Hb). lia.
Qed.

Lemma business_days_nonneg a b : 0 <= business_days a b.
Proof. unfold business_days. lia. Qed.

(** One of three days in a row is a business day, and after a day off
    and a business day comes no day off. *)
Lemma business_within_three d :
  business (d + 1) = true
  ∨ (business (d + 1) = false ∧ business (d + 2) = true)
  ∨ (business (d + 1) = false ∧ business (d + 2) = false
     ∧ business (d + 3) = true).
Proof.
  unfold business, not_weekend.
  pose proof (Z.mod_pos_bound (d + 4) 7 ltac:(lia)) as Hr.
  assert ((d + 1 + 4) mod 7 = ((d + 4) mod 7 + 1) mod 7) as ->
    by (rewrite Zplus_mod_idemp_l; f_equal; lia).
  assert ((d + 2 + 4) mod 7 = ((d + 4) mod 7 + 2) mod 7) as ->
    by (rewrite Zplus_mod_idemp_l; f_equal; lia).
  assert ((d + 3 + 4) mod 7 = ((d + 4) mod 7 + 3) mod 7) as ->
    by (rewrite Zplus_mod_idemp_l; f_equal; lia).
  assert ((d + 4) mod 7 = 0 ∨ (d + 4) mod 7 = 1 ∨ (d + 4) mod 7 = 2
          ∨ (d + 4) mod 7 = 3 ∨ (d + 4) mod 7 = 4 ∨ (d + 4) mod 7 = 5
          ∨ (d + 4) mod 7 = 6) as Hcases by lia.
  destruct Hcases as [->|[->|[->|[->|[->|[->| ->]]]]]]; vm_compute; tauto.
Qed.

Lemma between_loop_unfold fuel currDate endDate acc :
  between_loop fuel currDate endDate acc
  = if date_lt currDate endDate then
      match fuel with
      | O => None
      | S fuel' =>
          between_loop fuel' (setUTCDate_next currDate) endDate
            (if not_weekend (getUTCDay currDate) then acc + 1 else acc)
      end
    else Some acc.
Proof. by destruct fuel. Qed.

Lemma due_loop_unfold fuel dueDate n :
  due_loop fuel dueDate n
  = if n =? 0 then Some dueDate
    else
      match fuel with
      | O => None
      | S fuel' =>
          due_loop fuel' (setUTCDate_next dueDate)
            (if not_weekend (getUTCDay (setUTCDate_next dueDate))
             then n - 1 else n)
      end.
Proof. by destruct fuel. Qed.

Lemma between_loop_counts k :
  ∀ fuel a b acc,
    - maxDay <= a → b <= maxDay → b - a <= Z.of_nat k → (k ≤ fuel)%nat →
    between_loop fuel (midnight a) (midnight b) acc
    = Some (acc + business_days a b).
Proof.
  induction k as [|k IH]; intros fuel a b acc Hlo Hhi Hk Hfuel.
  - rewrite between_loop_unfold, date_lt_midnight.
    destruct (Z.ltb_spec a b); [lia|].
    rewrite business_days_nil by lia. f_equal. lia.
  - destruct fuel as [|fuel]; [lia|].
    rewrite between_loop_unfold, date_lt_midnight.
    destruct (Z.ltb_spec a b) as [Hab|Hab].
    + rewrite getUTCDay_midnight, setUTCDate_next_midnight by lia.
      rewrite IH by lia. rewrite (business_days_cons a b) by done.
      f_equal. destruct (business a); lia.
    + rewrite business_days_nil by lia. f_equal. lia.
Qed.

Lemma due_loop_step fuel d n :
  n ≠ 0 → - maxDay <= d → d + 1 <= maxDay →
  due_loop (S fuel) (midnight d) n
  = due_loop fuel (midnight (d + 1)) (if business (d + 1) then n - 1 else n).
Proof.
  intros Hn Hlo Hhi. rewrite due_loop_unfold.
  destruct (Z.eqb_spec n 0); [done|].
  by rewrite setUTCDate_next_midnight, getUTCDay_midnight.
Qed.

Lemma due_loop_zero fuel dueDate : due_loop fuel dueDate 0 = Some dueDate.
Proof. by destruct fuel. Qed.

Lemma due_loop_reaches k :
  ∀ d, - maxDay <= d → d + 3 * Z.of_nat k <= maxDay →
    ∃ d', d <= d' <= d + 3 * Z.of_nat k
          ∧ ((0 < k)%nat → d < d' ∧ business d' = true)
          ∧ business_days (d + 1) (d' + 1) = Z.of_nat k
          ∧ ∀ fuel, (3 * k ≤ fuel)%nat →
              due_loop fuel (midnight d) (Z.of_nat k) = Some (midnight d').
Proof.
  induction k as [|k IH]; intros d Hlo Hhi.
  - exists d. split; [lia|]. split; [lia|]. split.
    + by rewrite business_days_nil by lia.
    + intros fuel _. apply due_loop_zero.
  - destruct (business_within_three d)
      as [H1|[(H1 & H2)|(H1 & H2 & H3)]].
    + destruct (IH (d + 1)) as (d' & Hd' & Hb & Hcount & Hrun); [lia..|].
      exists d'. split; [lia|]. split.
      { intros _. split; [lia|]. destruct k; [|apply Hb; lia].
        assert (d' = d + 1) as -> by lia. done. }
      split.
      { rewrite business_days_cons, H1 by lia. lia. }
      intros [|fuel] Hfuel; [lia|].
      rewrite due_loop_step, H1 by lia.
      replace (Z.of_nat (S k) - 1) with (Z.of_nat k) by lia.
      apply Hrun. lia.
    + destruct (IH (d + 2)) as (d' & Hd' & Hb & Hcount & Hrun); [lia..|].
      exists d'. split; [lia|]. split.
      { intros _. split; [lia|]. destruct k; [|apply Hb; lia].
        assert (d' = d + 2) as -> by lia. done. }
      split.
      { rewrite business_days_cons, H1 by lia.
        replace (d + 1 + 1) with (d + 2) by lia.
        rewrite business_days_cons, H2 by lia. lia. }
      intros [|[|fuel]] Hfuel; [lia..|].
      rewrite due_loop_step, H1 by lia.
      rewrite due_loop_step by lia.
      replace (d + 1 + 1) with (d + 2) by lia. rewrite H2.
      replace (Z.of_nat (S k) - 1) with (Z.of_nat k) by lia.
      apply Hrun. lia.
    + destruct (IH (d + 3)) as (d' & Hd' & Hb & Hcount & Hrun); [lia..|].
      exists d'. split; [lia|]. split.
      { intros _. split; [lia|]. destruct k; [|apply Hb; lia].
        assert (d' = d + 3) as -> by lia. done. }
      split.
      { rewrite business_days_cons, H1 by lia.
        replace (d + 1 + 1) with (d + 2) by lia.
        rewrite business_days_cons, H2 by lia.
        replace (d + 2 + 1) with (d + 3) by lia.
        rewrite business_days_cons, H3 by lia. lia. }
      intros [|[|[|fuel]]] Hfuel; [lia..|].
      rewrite due_loop_step, H1 by lia.
      rewrite due_loop_step by lia.
      replace (d + 1 + 1) with (d + 2) by lia. rewrite H2.
      rewrite due_loop_step by lia.
      replace (d + 2 + 1) with (d + 3) by lia. rewrite H3.
      replace (Z.of_nat (S k) - 1) with (Z.of_nat k) by lia.
      apply Hrun. lia.
Qed.

Lemma due_date_reaches t n :
  valid t → 0 <= n → Day t + 3 * n <= maxDay →
  ∃ d, Day t <= d <= Day t + 3 * n
       ∧ (0 < n → Day t < d ∧ business d = true)
       ∧ business_days (Day t + 1) (d + 1) = n
       ∧ ∀ fuel, (Z.to_nat (3 * n) ≤ fuel)%nat →
           calcBusinessDaydueDate fuel (Some t) n = Some (midnight d).
Proof.
  intros Ht Hn Hhi. pose proof (valid_Day t Ht) as Hd.
  destruct (due_loop_reaches (Z.to_nat n) (Day t))
    as (d & Hd' & Hb & Hcount & Hrun); [lia..|].
  rewrite Z2Nat.id in Hd', Hcount, Hrun by done.
  exists d. split; [done|]. split; [intros; apply Hb; lia|].
  split; [done|]. intros fuel Hfuel. unfold calcBusinessDaydueDate.
  rewrite setUTCHours_midnight_valid by done. apply Hrun. lia.
Qed.

Lemma between_counts s e fuel :
  valid s → valid e → (Z.to_nat (Day e - Day s) ≤ fuel)%nat →
  calcBusinessDaysInBetween fuel (Some s) (Some e)
  = Some (Ok (business_days (Day s) (Day e)), midnight (Day e)).
Proof.
  intros Hs He Hfuel. unfold calcBusinessDaysInBetween.
  rewrite !setUTCHours_midnight_valid by done.
  pose proof (valid_Day s Hs). pose proof (valid_Day e He).
  by rewrite (between_loop_counts (Z.to_nat (Day e - Day s))) by lia.
Qed.

End BusinessDayFacts.

(** X27. The due date is the n-th business day after the start. For a
    valid start date and a count [n] of zero or more, as long as the days
    stay in the range of [Date]: with fuel for [3 n] turns
    [calcBusinessDaydueDate] returns UTC midnight of a day [d] that is at
    most [3 n] days after the day of the start; for [n] above zero [d] is
    after the day of the start and is no Saturday or Sunday; and exactly
    [n] business days lie after the day of the start up to and including
    [d]. The time of day of the start plays no part. *)
Theorem due_date_is_the_nth_business_day t n :
  BusinessDays.valid t → 0 <= n →
  BusinessDays.Day t + 3 * n <= BusinessDays.maxDay →
  ∃ d, (∀ fuel, (Z.to_nat (3 * n) ≤ fuel)%nat →
          BusinessDays.calcBusinessDaydueDate fuel (Some t) n
          = Some (BusinessDays.midnight d))
       ∧ BusinessDays.Day t <= d <= BusinessDays.Day t + 3 * n
       ∧ (0 < n → BusinessDays.Day t < d ∧ BusinessDays.business d = true)
       ∧ BusinessDays.business_days (BusinessDays.Day t + 1) (d + 1) = n.
Proof.
  intros Ht Hn Hhi.
  destruct (due_date_reaches t n Ht Hn Hhi) as (d & Hd & Hb & Hcount & Hrun).
  exists d. split_and!; try done; lia.
Qed.

(** Saturday 2 November 2024, 15:30 UTC, and three business days: the due
    date is Wednesday 6 November. *)
Lemma due_date_is_the_nth_business_day_witness :
  ∃ d, (∀ fuel, (9 ≤ fuel)%nat →
          BusinessDays.calcBusinessDaydueDate fuel (Some 1730561400000) 3
          = Some (BusinessDays.midnight d))
       ∧ 20029 <= d <= 20029 + 3 * 3
       ∧ (0 < 3 → 20029 < d ∧ BusinessDays.business d = true)
       ∧ BusinessDays.business_days (20029 + 1) (d + 1) = 3.
Proof.
  apply (due_date_is_the_nth_business_day 1730561400000 3).
  - vm_compute. discriminate.
  - lia.
  - vm_compute. discriminate.
Defined.

(** X28. Counting back from the due date. For a valid start date and a
    count [n] of zero or more, in the range of [Date]:
    [calcBusinessDaysInBetween] from the start to the date that
    [calcBusinessDaydueDate] returned gives [n] back when the start falls
    on a business day or [n] is zero, and [n - 1] when the start falls on a
    Saturday or Sunday, since the first function counts the day of the
    start and not the last day, and the second the last day and not the
    day of the start. The due date, which is at midnight already, is left
    as it was. *)
Theorem business_days_up_to_the_due_date t n :
  BusinessDays.valid t → 0 <= n →
  BusinessDays.Day t + 3 * n <= BusinessDays.maxDay →
  ∃ due,
    (∀ fuel, (Z.to_nat (3 * n) ≤ fuel)%nat →
       BusinessDays.calcBusinessDaydueDate fuel (Some t) n = Some due)
    ∧ (∀ fuel, (Z.to_nat (3 * n) ≤ fuel)%nat →
         BusinessDays.calcBusinessDaysInBetween fuel (Some t) due
         = Some (Ok (if BusinessDays.business (BusinessDays.Day t) || (n =? 0)
                     then n else n - 1), due)).
Proof.
  intros Ht Hn Hhi.
  destruct (due_date_reaches t n Ht Hn Hhi) as (d & Hd & Hb & Hcount & Hrun).
  exists (BusinessDays.midnight d). split; [done|]. intros fuel Hfuel.
  pose proof (valid_Day t Ht) as HDay.
  assert (BusinessDays.valid (d * BusinessDays.msPerDay)) as Hvd.
  { unfold BusinessDays.valid, BusinessDays.maxTime, BusinessDays.msPerDay.
    unfold BusinessDays.maxDay in *. lia. }
  unfold BusinessDays.midnight at 1.
  rewrite between_counts; [|done|done|rewrite Day_midnight; lia].
  rewrite Day_midnight. do 3 f_equal.
  destruct (Z.eqb_spec n 0) as [->|Hn0].
  { rewrite orb_true_r. apply business_days_nil. lia. }
  rewrite orb_false_r. destruct Hb as [Hlt Hbd]; [lia|].
  rewrite business_days_cons by done.
  assert (BusinessDays.business_days (BusinessDays.Day t + 1) (d + 1)
          = BusinessDays.business_days (BusinessDays.Day t + 1) d + 1) as Hlast.
  { unfold BusinessDays.business_days.
    replace (d + 1 - (BusinessDays.Day t + 1))
      with ((d - (BusinessDays.Day t + 1)) + 1) by lia.
    rewrite seqZ_app by lia. rewrite filter_app, length_app.
    replace (BusinessDays.Day t + 1 + (d - (BusinessDays.Day t + 1)))
      with d by lia.
    rewrite (seqZ_cons d 1), (seqZ_nil (Z.succ d)) by lia.
    rewrite filter_cons_True by done. rewrite filter_nil. simpl length. lia. }
  destruct (BusinessDays.business (BusinessDays.Day t)); lia.
Qed.

Lemma business_days_up_to_the_due_date_witness :
  ∃ due,
    (∀ fuel, (9 ≤ fuel)%nat →
       BusinessDays.calcBusinessDaydueDate fuel (Some 1730561400000) 3
       = Some due)
    ∧ (∀ fuel, (9 ≤ fuel)%nat →
         BusinessDays.calcBusinessDaysInBetween fuel (Some 1730561400000) due
         = Some (Ok 2, due)).
Proof.
  apply (business_days_up_to_the_due_date 1730561400000 3).
  - vm_compute. discriminate.
  - lia.
  - vm_compute. discriminate.
Defined.

(** X29. A negative count never comes back. [while (numberOfDays)] ends
    at zero only, and the loop of [calcBusinessDaydueDate] only counts
    down: for a negative [numberOfDays] no number of turns is enough,
    whatever the start date, valid or not. *)
Theorem negative_count_never_returns fuel startDate numberOfDays :
  numberOfDays < 0 →
  BusinessDays.calcBusinessDaydueDate fuel startDate numberOfDays = None.
Proof.
  intros Hn. unfold BusinessDays.calcBusinessDaydueDate.
  generalize (BusinessDays.setUTCHours_midnight startDate). clear startDate.
  revert numberOfDays Hn.
  induction fuel as [|fuel IH]; intros n Hn dueDate;
    rewrite due_loop_unfold; (destruct (Z.eqb_spec n 0); [lia|]); [done|].
  destruct (BusinessDays.not_weekend _); apply IH; lia.
Qed.

Lemma negative_count_never_returns_witness :
  BusinessDays.calcBusinessDaydueDate 1000 (Some 1730561400000) (-1) = None.
Proof.
  apply (negative_count_never_returns 1000 (Some 1730561400000) (-1)). lia.
Defined.

(** X30. [calcBusinessDaysInBetween] counts UTC days and truncates the
    end date of its caller. For two valid dates and fuel for one turn a
    day: the result is the number of days that are no Saturday or Sunday
    from the day of the start up to, and without, the day of the end,
    whatever the times of day, so it is zero when the end is not on a
    later day; the [Date] object passed as the end is at UTC midnight of
    its day afterwards. An invalid start makes [toISOString] throw a
    RangeError before the end is touched; an invalid end gives zero. *)
Theorem between_counts_whole_utc_days s e :
  BusinessDays.valid s → BusinessDays.valid e →
  (∀ fuel, (Z.to_nat (BusinessDays.Day e - BusinessDays.Day s) ≤ fuel)%nat →
     BusinessDays.calcBusinessDaysInBetween fuel (Some s) (Some e)
     = Some (Ok (BusinessDays.business_days
                   (BusinessDays.Day s) (BusinessDays.Day e)),
             BusinessDays.midnight (BusinessDays.Day e)))
  ∧ (BusinessDays.Day e <= BusinessDays.Day s →
     BusinessDays.business_days (BusinessDays.Day s) (BusinessDays.Day e) = 0)
  ∧ (∀ fuel, BusinessDays.calcBusinessDaysInBetween fuel None (Some e)
             = Some (Throw (RangeError "Invalid time value"), Some e))
  ∧ (∀ fuel, BusinessDays.calcBusinessDaysInBetween fuel (Some s) None
             = Some (Ok 0, None)).
Proof.
  intros Hs He. split_and!.
  - intros fuel Hfuel. by apply between_counts.
  - apply business_days_nil.
  - done.
  - intros fuel. unfold BusinessDays.calcBusinessDaysInBetween.
    rewrite setUTCHours_midnight_valid by done. by destruct fuel.
Qed.

(** Friday 1 November 2024, 23:59 UTC, to Monday 4 November, 00:01 UTC:
    one business day, and the end is moved to midnight. *)
Lemma between_counts_whole_utc_days_witness :
  BusinessDays.calcBusinessDaysInBetween 3 (Some 1730505540000)
    (Some 1730678460000)
  = Some (Ok 1, Some 1730678400000).
Proof.
  apply (between_counts_whole_utc_days 1730505540000 1730678460000).
  - vm_compute. discriminate.
  - vm_compute. discriminate.
  - vm_compute. lia.
Defined.
